(** * MySQL to PostgreSQL migration script: model and verification

    A shallow embedding of [migtate.py].  The script is a class
    [MySQLToPGMigration] with two connection handles and a dictionary
    [migrated_records]; its methods talk to two database drivers, to
    [uuid.uuid4] and to [datetime.now].  The embedding is a state and
    exception monad over a record holding the object's attributes and the
    state of its environment; everything the script does to the outside
    is written to a chronological log, so that orderings can be stated. *)

From Stdlib Require Import ZArith Lia Ascii String.
From stdpp Require Import base tactics option list strings pretty gmap.

Local Open Scope string_scope.
Local Open Scope list_scope.

(** ** Python values *)

(** The builtin conversions on floating-point numbers and on strings are
    Python's, not the script's: they are taken as an interface. *)
Class PyBuiltins := {
  pyfloat : Type;
  float_zero : pyfloat;
  float_truthy : pyfloat -> bool;
  float_of_int : Z -> option pyfloat;
  float_of_str : string -> option pyfloat;
  int_of_float : pyfloat -> option Z;
  int_of_str : string -> option Z;
  str_of_float : pyfloat -> string;
  str_of_time : nat -> string
}.

(** An interpretation in which the examples run: the floating-point
    numbers it has are the integers, and no string converts to a number. *)
Definition integral_builtins : PyBuiltins := {|
  pyfloat := Z;
  float_zero := 0%Z;
  float_truthy := fun x => negb (Z.eqb x 0);
  float_of_int := Some;
  float_of_str := fun _ => None;
  int_of_float := Some;
  int_of_str := fun _ => None;
  str_of_float := pretty;
  str_of_time := pretty
|}.

Section Migration.
Context `{PyBuiltins}.

Inductive pyval :=
| PNone
| PBool (b : bool)
| PInt (z : Z)
| PFloat (x : pyfloat)
| PStr (s : string)
| PTime (t : nat).

Definition str_truthy (s : string) : bool :=
  match s with EmptyString => false | String _ _ => true end.

(** [bool(v)] *)
Definition truthy (v : pyval) : bool :=
  match v with
  | PNone => false
  | PBool b => b
  | PInt z => negb (Z.eqb z 0)
  | PFloat x => float_truthy x
  | PStr s => str_truthy s
  | PTime _ => true
  end.

(** [a or b] *)
Definition py_or (a b : pyval) : pyval := if truthy a then a else b.

(** [str(v)], as an f-string formats a field *)
Definition py_str (v : pyval) : string :=
  match v with
  | PNone => "None"
  | PBool true => "True"
  | PBool false => "False"
  | PInt z => pretty z
  | PFloat x => str_of_float x
  | PStr s => s
  | PTime t => str_of_time t
  end.

(** [v == 'paid'] for a string literal on the right *)
Definition py_eq_str (v : pyval) (lit : string) : bool :=
  match v with
  | PStr s => bool_decide (s = lit)
  | _ => false
  end.

(** A row of a [dictionary=True] cursor, and a tuple of target columns. *)
Definition row := gmap string pyval.
Definition tuple := list pyval.

(** ** Tables, statements and driver calls *)

Inductive src_table :=
| tbl_karyawan | tbl_member | tbl_product | tbl_transaksi | tbl_detail_transaksi.

Inductive dst_table :=
| employees | customers | products | invoices | invoice_items.

Global Instance dst_table_eq_dec : EqDecision dst_table.
Proof. solve_decision. Defined.

Inductive sql :=
| SelectAll (t : src_table)
| SetConstraintsAllDeferred
| SelectTriggers
| DisableTrigger (name : string)
| EnableTrigger (name : string).

Inductive call :=
| MysqlConnect
| PgConnect
| MysqlCursor
| MysqlExecute (q : sql)
| MysqlFetchall
| MysqlCursorClose
| MysqlClose
| PgCursor
| PgExecute (q : sql)
| PgFetchall
| PgExecuteValues (t : dst_table) (data : list tuple) (page_size : nat)
| PgCommit
| PgRollback
| PgClose.

(** ** Exceptions *)

Inductive err :=
| KeyError (col : string)
| TypeError
| ValueError
| OverflowError
| AttributeError
| DriverError (c : call).

(** [SystemExit] is not an [Exception]: [except Exception] lets it pass. *)
Inductive exn :=
| Error (e : err)
| SystemExit (code : Z).

Inductive outcome (A : Type) :=
| Ret (a : A)
| Raise (e : exn).
Global Arguments Ret {A} a.
Global Arguments Raise {A} e.

(** ** The identifier registry's tags *)

Inductive tag := Emp | Member | Prod | Txn.

Global Instance tag_eq_dec : EqDecision tag.
Proof. solve_decision. Defined.

Definition tag_prefix (t : tag) : string :=
  match t with
  | Emp => "emp_"
  | Member => "member_"
  | Prod => "prod_"
  | Txn => "txn_"
  end.

(** [f"emp_{id}"] and its siblings *)
Definition reg_key (t : tag) (id : pyval) : string := tag_prefix t +:+ py_str id.

(** ** The log *)

Inductive msg :=
| MsgConnected
| MsgConnError (e : err)
| MsgBanner
| MsgStart (t : dst_table)
| MsgDone (t : dst_table) (n : nat)
| MsgError (t : dst_table) (e : err)
| MsgClosed
| MsgFinished.

Inductive event :=
| ECall (c : call)                                (* a driver call is issued *)
| ERaise (e : err)                                (* an exception is raised *)
| EMint (id : string)                             (* uuid.uuid4() returned id *)
| EGet (t : tag) (id : pyval) (r : option string) (* migrated_records.get *)
| EPut (t : tag) (id : pyval) (v : string)        (* migrated_records[k] = v *)
| EPrint (m : msg)
| EBulk (t : dst_table) (armed : list string) (deferred : bool)
    (* the store's view of a bulk insert into t: the triggers enabled on t
       and whether constraint checking is deferred *)
| EEnter (t : dst_table)                          (* main calls a transfer *)
| EReturn (t : dst_table).                        (* the transfer returned *)

(** ** The target store

    A session works on [pg_session]; [commit] publishes it and [rollback]
    restores the committed state (PostgreSQL's DDL, hence a trigger's
    enabled flag, is transactional). *)

Record trigger := mkTrigger {
  trg_table : dst_table;
  trg_name : string;
  trg_enabled : bool
}.

Record pgstore := mkStore {
  pg_rows : dst_table -> list tuple;
  pg_triggers : list trigger;
  pg_deferred : bool
}.

(** ** The environment of a run *)

Record world := mkWorld {
  mysql_rows : src_table -> list row;  (* contents of the source store *)
  uuid4 : nat -> string;               (* str(uuid.uuid4()) at the n-th call *)
  raises : nat -> call -> bool         (* the n-th driver call, being c, raises *)
}.

(** ** The object and what surrounds it *)

Record state := mkState {
  mysql_conn : bool;                        (* self.mysql_conn is not None *)
  pg_conn : bool;                           (* self.pg_conn is not None *)
  migrated_records : gmap string string;    (* self.migrated_records *)
  uuid_calls : nat;
  clock : nat;
  tick : nat;                               (* driver calls issued so far *)
  pg_committed : pgstore;
  pg_session : pgstore;
  trace : list event
}.

Definition set_mysql_conn (b : bool) (s : state) : state :=
  mkState b (pg_conn s) (migrated_records s) (uuid_calls s) (clock s) (tick s)
          (pg_committed s) (pg_session s) (trace s).
Definition set_pg_conn (b : bool) (s : state) : state :=
  mkState (mysql_conn s) b (migrated_records s) (uuid_calls s) (clock s) (tick s)
          (pg_committed s) (pg_session s) (trace s).
Definition set_records (m : gmap string string) (s : state) : state :=
  mkState (mysql_conn s) (pg_conn s) m (uuid_calls s) (clock s) (tick s)
          (pg_committed s) (pg_session s) (trace s).
Definition set_uuid_calls (n : nat) (s : state) : state :=
  mkState (mysql_conn s) (pg_conn s) (migrated_records s) n (clock s) (tick s)
          (pg_committed s) (pg_session s) (trace s).
Definition set_clock (n : nat) (s : state) : state :=
  mkState (mysql_conn s) (pg_conn s) (migrated_records s) (uuid_calls s) n (tick s)
          (pg_committed s) (pg_session s) (trace s).
Definition set_tick (n : nat) (s : state) : state :=
  mkState (mysql_conn s) (pg_conn s) (migrated_records s) (uuid_calls s) (clock s) n
          (pg_committed s) (pg_session s) (trace s).
Definition set_committed (p : pgstore) (s : state) : state :=
  mkState (mysql_conn s) (pg_conn s) (migrated_records s) (uuid_calls s) (clock s) (tick s)
          p (pg_session s) (trace s).
Definition set_session (p : pgstore) (s : state) : state :=
  mkState (mysql_conn s) (pg_conn s) (migrated_records s) (uuid_calls s) (clock s) (tick s)
          (pg_committed s) p (trace s).
Definition set_trace (t : list event) (s : state) : state :=
  mkState (mysql_conn s) (pg_conn s) (migrated_records s) (uuid_calls s) (clock s) (tick s)
          (pg_committed s) (pg_session s) t.

(** ** The monad *)

Definition M (A : Type) : Type := state -> outcome A * state.

Definition ret {A} (a : A) : M A := fun s => (Ret a, s).

Definition bind {A B} (m : M A) (f : A -> M B) : M B :=
  fun s => match m s with
           | (Ret a, s') => f a s'
           | (Raise e, s') => (Raise e, s')
           end.

Notation "'let*' x ':=' m 'in' k" := (bind m (fun x => k))
  (at level 10, x name, m at level 200, k at level 200).
Notation "m ;; k" := (bind m (fun _ => k))
  (at level 100, right associativity).

Definition log (e : event) : M unit :=
  fun s => (Ret tt, set_trace (trace s ++ [e]) s).

(** [raise e] *)
Definition throw {A} (e : err) : M A :=
  fun s => (Raise (Error e), set_trace (trace s ++ [ERaise e]) s).

(** [sys.exit(code)] *)
Definition sys_exit {A} (code : Z) : M A := fun s => (Raise (SystemExit code), s).

(** [try: m  except Exception as e: h e] *)
Definition try_except {A} (m : M A) (h : err -> M A) : M A :=
  fun s => match m s with
           | (Raise (Error e), s') => h e s'
           | r => r
           end.

(** [try: m  except: pass] *)
Definition try_pass (m : M unit) : M unit :=
  fun s => match m s with
           | (Raise _, s') => (Ret tt, s')
           | r => r
           end.

(** [for x in l: acc = body x acc] *)
Fixpoint for_each {A B} (l : list A) (body : A -> B -> M B) (acc : B) : M B :=
  match l with
  | [] => ret acc
  | x :: l' => let* acc' := body x acc in for_each l' body acc'
  end.

Definition print (m : msg) : M unit := log (EPrint m).

(** Reading and updating the state *)
Definition gets {A} (f : state -> A) : M A := fun s => (Ret (f s), s).
Definition modify (f : state -> state) : M unit := fun s => (Ret tt, f s).

(** [self.attr.method(...)]: an [AttributeError] when the attribute is [None] *)
Definition need {A} (attr : state -> bool) (m : M A) : M A :=
  fun s => if attr s then m s else throw AttributeError s.

(** [if self.attr: m] *)
Definition when_set (attr : state -> bool) (m : M unit) : M unit :=
  fun s => if attr s then m s else ret tt s.

(** A call into a driver: logged, counted, and failing when the
    environment says so. *)
Definition driver (w : world) (c : call) : M unit :=
  fun s =>
    let s1 := set_tick (S (tick s)) (set_trace (trace s ++ [ECall c]) s) in
    if raises w (tick s) c then throw (DriverError c) s1 else (Ret tt, s1).

(** [str(uuid.uuid4())] *)
Definition uuid4_str (w : world) : M string :=
  fun s =>
    let id := uuid4 w (uuid_calls s) in
    (Ret id, set_uuid_calls (S (uuid_calls s)) (set_trace (trace s ++ [EMint id]) s)).

(** [datetime.now()] *)
Definition now : M pyval :=
  fun s => (Ret (PTime (clock s)), set_clock (S (clock s)) s).

(** [r[col]] *)
Definition getitem (r : row) (col : string) : M pyval :=
  match r !! col with
  | Some v => ret v
  | None => throw (KeyError col)
  end.

(** [int(v)]: the integer, or the exception Python raises *)
Definition int_of (v : pyval) : err + pyval :=
  match v with
  | PInt z => inr (PInt z)
  | PBool b => inr (PInt (if b then 1 else 0))
  | PFloat x =>
      match int_of_float x with
      | Some z => inr (PInt z)
      | None => inl OverflowError
      end
  | PStr s =>
      match int_of_str s with
      | Some z => inr (PInt z)
      | None => inl ValueError
      end
  | PNone | PTime _ => inl TypeError
  end.

(** [float(v)] *)
Definition float_of (v : pyval) : err + pyval :=
  match v with
  | PInt z =>
      match float_of_int z with
      | Some x => inr (PFloat x)
      | None => inl OverflowError
      end
  | PBool b =>
      match float_of_int (if b then 1 else 0) with
      | Some x => inr (PFloat x)
      | None => inl OverflowError
      end
  | PFloat x => inr (PFloat x)
  | PStr s =>
      match float_of_str s with
      | Some x => inr (PFloat x)
      | None => inl ValueError
      end
  | PNone | PTime _ => inl TypeError
  end.

Definition of_result {A} (r : err + A) : M A :=
  match r with
  | inr a => ret a
  | inl e => throw e
  end.

Definition py_int (v : pyval) : M pyval := of_result (int_of v).
Definition py_float (v : pyval) : M pyval := of_result (float_of v).

(** [self.migrated_records.get(f"{tag}{id}")] *)
Definition records_get (t : tag) (id : pyval) : M (option string) :=
  fun s =>
    let r := migrated_records s !! reg_key t id in
    (Ret r, set_trace (trace s ++ [EGet t id r]) s).

(** [self.migrated_records[f"{tag}{id}"] = v] *)
Definition records_put (t : tag) (id : pyval) (v : string) : M unit :=
  fun s =>
    (Ret tt, set_records (<[reg_key t id := v]> (migrated_records s))
               (set_trace (trace s ++ [EPut t id v]) s)).

(** [not v] for the result of [dict.get] *)
Definition missing (v : option string) : bool :=
  match v with
  | None => true
  | Some s => negb (str_truthy s)
  end.

(** ** Driver calls of the script *)

(** [self.mysql_conn.cursor(dictionary=True)] *)
Definition mysql_cursor (w : world) : M unit :=
  need mysql_conn (driver w MysqlCursor).

(** [mysql_cursor.execute("SELECT * FROM t")] then [mysql_cursor.fetchall()] *)
Definition mysql_select_all (w : world) (t : src_table) : M (list row) :=
  driver w (MysqlExecute (SelectAll t)) ;;
  driver w MysqlFetchall ;;
  ret (mysql_rows w t).

(** [self.pg_conn.cursor()] *)
Definition pg_cursor (w : world) : M unit :=
  need pg_conn (driver w PgCursor).

Definition insert_rows (t : dst_table) (data : list tuple) (p : pgstore) : pgstore :=
  mkStore (fun t' => if decide (t' = t) then pg_rows p t' ++ data else pg_rows p t')
          (pg_triggers p) (pg_deferred p).

Definition armed_triggers (t : dst_table) (p : pgstore) : list string :=
  trg_name <$> List.filter (fun g => bool_decide (trg_table g = t) && trg_enabled g)
                           (pg_triggers p).

(** The store's view of a bulk insert into [t], at the moment it is sent. *)
Definition log_bulk (t : dst_table) : M unit :=
  fun s => log (EBulk t (armed_triggers t (pg_session s))
                      (pg_deferred (pg_session s))) s.

Definition session_insert (t : dst_table) (data : list tuple) (s : state) : state :=
  set_session (insert_rows t data (pg_session s)) s.

(** [execute_values(pg_cursor, "INSERT INTO public.t (...) VALUES %s", data,
    page_size=n)]: with no rows nothing is sent to the store. *)
Definition execute_values (w : world) (t : dst_table) (data : list tuple)
    (page_size : nat) : M unit :=
  match data with
  | [] => ret tt
  | _ :: _ => log_bulk t
  end ;;
  driver w (PgExecuteValues t data page_size) ;;
  modify (session_insert t data).

Definition end_transaction (p : pgstore) : pgstore :=
  mkStore (pg_rows p) (pg_triggers p) false.

Definition commit_state (s : state) : state :=
  let p := end_transaction (pg_session s) in set_session p (set_committed p s).

Definition rollback_state (s : state) : state :=
  set_session (pg_committed s) s.

(** [self.pg_conn.commit()] *)
Definition pg_commit (w : world) : M unit :=
  need pg_conn (driver w PgCommit ;; modify commit_state).

(** [self.pg_conn.rollback()] *)
Definition pg_rollback (w : world) : M unit :=
  need pg_conn (driver w PgRollback ;; modify rollback_state).

(** The pattern ['RI_%'] of SQL's [LIKE]: "RI", one more character, then
    anything. *)
Definition like_RI (name : string) : bool :=
  match name with
  | String "R"%char (String "I"%char (String _ _)) => true
  | _ => false
  end.

(** What the query on [information_schema.triggers] returns. *)
Definition listed_triggers (p : pgstore) : list string :=
  trg_name <$> List.filter (fun g => bool_decide (trg_table g = invoice_items)
                                     && negb (like_RI (trg_name g)))
                           (pg_triggers p).

Definition set_trigger (name : string) (b : bool) (p : pgstore) : pgstore :=
  mkStore (pg_rows p)
          ((fun g => if bool_decide (trg_table g = invoice_items) &&
                        bool_decide (trg_name g = name)
                     then mkTrigger (trg_table g) (trg_name g) b else g)
             <$> pg_triggers p)
          (pg_deferred p).

Definition sql_effect (q : sql) (p : pgstore) : pgstore :=
  match q with
  | SetConstraintsAllDeferred => mkStore (pg_rows p) (pg_triggers p) true
  | DisableTrigger name => set_trigger name false p
  | EnableTrigger name => set_trigger name true p
  | SelectAll _ | SelectTriggers => p
  end.

(** [pg_cursor.execute(q)] *)
Definition pg_execute (w : world) (q : sql) : M unit :=
  driver w (PgExecute q) ;;
  modify (fun s => set_session (sql_effect q (pg_session s)) s).

(** [pg_cursor.fetchall()] after the query on the triggers *)
Definition pg_fetch_triggers (w : world) : M (list string) :=
  driver w PgFetchall ;;
  gets (fun s => listed_triggers (pg_session s)).

(** [conv(r[col]) if r[col] else dflt] *)
Definition cond_conv (r : row) (col : string) (conv : pyval -> M pyval)
    (dflt : pyval) : M pyval :=
  let* c := getitem r col in
  if truthy c then (let* v := getitem r col in conv v) else ret dflt.

(** [r[col] or dflt] *)
Definition get_or (r : row) (col : string) (dflt : pyval) : M pyval :=
  let* v := getitem r col in ret (py_or v dflt).

(** ** The five transfers *)

(** Body of the loop of [migrate_employees] *)
Definition employee_row (w : world) (emp : row) (data : list tuple) : M (list tuple) :=
  let* emp_id := uuid4_str w in
  let* name := getitem emp "nama_karyawan" in
  let* email := getitem emp "email" in
  let* phone := getitem emp "nomor_telepon" in
  let* created_at := now in
  let* updated_at := now in
  let data := data ++ [[PStr emp_id; name; email; phone; PStr "technician";
                        PStr "available"; PFloat float_zero; PInt 0; PNone;
                        created_at; updated_at]] in
  let* id := getitem emp "id_karyawan" in
  records_put Emp id emp_id ;;
  ret data.

Definition migrate_employees (w : world) : M unit :=
  print (MsgStart employees) ;;
  try_except
    (mysql_cursor w ;;
     let* rows := mysql_select_all w tbl_karyawan in
     pg_cursor w ;;
     let* data := for_each rows (employee_row w) [] in
     execute_values w employees data 100 ;;
     pg_commit w ;;
     print (MsgDone employees (length data)) ;;
     driver w MysqlCursorClose)
    (fun e => print (MsgError employees e) ;; pg_rollback w).

(** Body of the loop of [migrate_customers] *)
Definition customer_row (w : world) (member : row) (data : list tuple) : M (list tuple) :=
  let* cust_id := uuid4_str w in
  let* name := getitem member "nama_member" in
  let* phone := getitem member "nomor_telepon" in
  let* address := getitem member "alamat" in
  let* created_at := now in
  let* updated_at := now in
  let data := data ++ [[PStr cust_id; name; phone; PNone; address; PStr "retail";
                        PInt 0; PFloat float_zero; PBool false; PNone;
                        created_at; updated_at; PFloat float_zero]] in
  let* id := getitem member "id_member" in
  records_put Member id cust_id ;;
  ret data.

Definition migrate_customers (w : world) : M unit :=
  print (MsgStart customers) ;;
  try_except
    (mysql_cursor w ;;
     let* rows := mysql_select_all w tbl_member in
     pg_cursor w ;;
     let* data := for_each rows (customer_row w) [] in
     execute_values w customers data 100 ;;
     pg_commit w ;;
     print (MsgDone customers (length data)) ;;
     driver w MysqlCursorClose)
    (fun e => print (MsgError customers e) ;; pg_rollback w).

(** Body of the loop of [migrate_products] *)
Definition product_row (w : world) (prod : row) (data : list tuple) : M (list tuple) :=
  let* prod_id := uuid4_str w in
  let* seri := getitem prod "seri" in
  let* sku := (if truthy seri then ret seri
               else let* id := getitem prod "id_product" in
                    ret (PStr ("SKU-" +:+ py_str id))) in
  let* name := get_or prod "nama" (PStr "Unnamed Product") in
  let* description := getitem prod "deskripsi" in
  let* unit := get_or prod "satuan" (PStr "pcs") in
  let* cost_price := get_or prod "hpp" (PInt 0) in
  let* sell_price := get_or prod "harga" (PInt 0) in
  let* stock := get_or prod "stok" (PInt 0) in
  let* created_at := now in
  let* updated_at := now in
  let data := data ++ [[PStr prod_id; sku; name; description; PStr "spare_parts";
                        unit; cost_price; sell_price; stock; PInt 5; PBool false;
                        PBool true; created_at; updated_at; PNone]] in
  let* id := getitem prod "id_product" in
  records_put Prod id prod_id ;;
  ret data.

Definition migrate_products (w : world) : M unit :=
  print (MsgStart products) ;;
  try_except
    (mysql_cursor w ;;
     let* rows := mysql_select_all w tbl_product in
     pg_cursor w ;;
     let* data := for_each rows (product_row w) [] in
     execute_values w products data 100 ;;
     pg_commit w ;;
     print (MsgDone products (length data)) ;;
     driver w MysqlCursorClose)
    (fun e => print (MsgError products e) ;; pg_rollback w).

(** Body of the loop of [migrate_invoices] *)
Definition invoice_row (w : world) (txn : row) (data : list tuple) : M (list tuple) :=
  let* inv_id := uuid4_str w in
  let* member_id := getitem txn "id_member" in
  let* cust_id := records_get Member member_id in
  match cust_id with
  | Some cust_id' =>
      if str_truthy cust_id' then
        let* invoice_number := getitem txn "id_transaksi" in
        let* invoice_date := getitem txn "tanggal_transaksi" in
        let* status_transaksi := getitem txn "status_transaksi" in
        let payment_status :=
          if py_eq_str status_transaksi "paid" then PStr "paid" else PStr "unpaid" in
        let* items_total := cond_conv txn "total_pembelian" py_int (PInt 0) in
        let* grand_total := cond_conv txn "total_pembelian" py_int (PInt 0) in
        let* amount_paid := get_or txn "total_pembayaran" (PInt 0) in
        let* notes := getitem txn "catatan" in
        let* created_at := now in
        let* updated_at := now in
        let* service_address := getitem txn "lokasi" in
        let data := data ++ [[PStr inv_id; invoice_number; PStr cust_id'; invoice_date;
                              PNone; PStr "completed"; payment_status;
                              PFloat float_zero; items_total; PFloat float_zero;
                              PFloat float_zero; grand_total; amount_paid; notes;
                              PNone; PNone; created_at; updated_at;
                              service_address]] in
        let* id := getitem txn "id_transaksi" in
        records_put Txn id inv_id ;;
        ret data
      else ret data
  | None => ret data
  end.

Definition migrate_invoices (w : world) : M unit :=
  print (MsgStart invoices) ;;
  try_except
    (mysql_cursor w ;;
     let* rows := mysql_select_all w tbl_transaksi in
     pg_cursor w ;;
     let* data := for_each rows (invoice_row w) [] in
     execute_values w invoices data 100 ;;
     pg_commit w ;;
     print (MsgDone invoices (length data)) ;;
     driver w MysqlCursorClose)
    (fun e => print (MsgError invoices e) ;; pg_rollback w).

(** Body of the loop of [migrate_invoice_items] *)
Definition invoice_item_row (w : world) (detail : row) (data : list tuple)
    : M (list tuple) :=
  let* txn_id := getitem detail "id_transaksi" in
  let* inv_id := records_get Txn txn_id in
  let* product_id := getitem detail "id_product" in
  let* prod_id := records_get Prod product_id in
  if missing inv_id || missing prod_id then ret data
  else
    let* id := uuid4_str w in
    let* product_name := getitem detail "nama_product" in
    let* quantity := cond_conv detail "qty" py_int (PInt 1) in
    let* unit_price := cond_conv detail "harga" py_float (PFloat float_zero) in
    let* total_price := cond_conv detail "subtotal" py_float (PFloat float_zero) in
    let* created_at := now in
    let* updated_at := now in
    ret (data ++ [[PStr id; PStr (default "" inv_id); PStr (default "" prod_id);
                   product_name; PNone; PNone; quantity; unit_price;
                   PFloat float_zero; total_price; PBool false; PNone;
                   created_at; updated_at]]).

(** Bodies of the two loops over the triggers:
    [try: pg_cursor.execute(f"ALTER TABLE ... TRIGGER {trigger[0]};")  except: pass] *)
Definition disable_trigger (w : world) (name : string) (_ : unit) : M unit :=
  try_pass (pg_execute w (DisableTrigger name)).

Definition enable_trigger (w : world) (name : string) (_ : unit) : M unit :=
  try_pass (pg_execute w (EnableTrigger name)).

Definition migrate_invoice_items (w : world) : M unit :=
  print (MsgStart invoice_items) ;;
  try_except
    (mysql_cursor w ;;
     let* details := mysql_select_all w tbl_detail_transaksi in
     pg_cursor w ;;
     pg_execute w SetConstraintsAllDeferred ;;
     pg_execute w SelectTriggers ;;
     let* triggers := pg_fetch_triggers w in
     for_each triggers (disable_trigger w) tt ;;
     let* data := for_each details (invoice_item_row w) [] in
     match data with
     | [] => ret tt
     | _ :: _ => execute_values w invoice_items data 100
     end ;;
     for_each triggers (enable_trigger w) tt ;;
     pg_commit w ;;
     print (MsgDone invoice_items (length data)) ;;
     driver w MysqlCursorClose)
    (fun e => print (MsgError invoice_items e) ;; pg_rollback w).

(** ** Connections and the orchestrator *)

Definition connect (w : world) : M unit :=
  try_except
    (driver w MysqlConnect ;;
     modify (set_mysql_conn true) ;;
     driver w PgConnect ;;
     modify (set_pg_conn true) ;;
     print MsgConnected)
    (fun e => print (MsgConnError e) ;; sys_exit 1).

Definition close (w : world) : M unit :=
  when_set mysql_conn (driver w MysqlClose) ;;
  when_set pg_conn (driver w PgClose) ;;
  print MsgClosed.

(** A method call of [main], bracketed in the log. *)
Definition transfer (t : dst_table) (m : M unit) : M unit :=
  log (EEnter t) ;; m ;; log (EReturn t).

Definition main (w : world) : M unit :=
  connect w ;;
  print MsgBanner ;;
  transfer employees (migrate_employees w) ;;
  transfer customers (migrate_customers w) ;;
  transfer products (migrate_products w) ;;
  transfer invoices (migrate_invoices w) ;;
  transfer invoice_items (migrate_invoice_items w) ;;
  close w ;;
  print MsgFinished.

(** [MySQLToPGMigration()] in front of a target store [p] *)
Definition init (p : pgstore) : state :=
  mkState false false ∅ 0 0 0 p p [].

(** The exit status of the process: 0 when [main] returns, the code of a
    [SystemExit], 1 for an exception nobody caught. *)
Definition exit_status (r : outcome unit) : Z :=
  match r with
  | Ret _ => 0%Z
  | Raise (SystemExit code) => code
  | Raise (Error _) => 1%Z
  end.

Definition run (w : world) (p : pgstore) : outcome unit * state := main w (init p).

(** The shape the first four transfers share *)
Definition table_transfer (w : world) (dst : dst_table) (src : src_table)
    (body : row -> list tuple -> M (list tuple)) : M unit :=
  print (MsgStart dst) ;;
  try_except
    (mysql_cursor w ;;
     let* rows := mysql_select_all w src in
     pg_cursor w ;;
     let* data := for_each rows body [] in
     execute_values w dst data 100 ;;
     pg_commit w ;;
     print (MsgDone dst (length data)) ;;
     driver w MysqlCursorClose)
    (fun e => print (MsgError dst e) ;; pg_rollback w).

(** ** Vocabulary of the proofs *)

(** A computation respects a relation between the state before and the
    state after, whatever its outcome. *)
Definition respects {A} (R : state -> state -> Prop) (m : M A) : Prop :=
  forall s, R s (m s).2.

(** [m] can return [a]. *)
Definition returned {A} (m : M A) (a : A) : Prop :=
  exists s s', m s = (Ret a, s').

(** The log grows, by events that satisfy [K] as a whole. *)
Definition logs (K : list event -> Prop) (s s' : state) : Prop :=
  exists evs, trace s' = trace s ++ evs /\ K evs.

(** Families of logs closed under concatenation. *)
Class Closed (K : list event -> Prop) : Prop := {
  closed_nil : K [];
  closed_app : forall l1 l2, K l1 -> K l2 -> K (l1 ++ l2)
}.

(** ** What a log says *)

(** The identifiers generated, in order. *)
Definition minted (tr : list event) : list string :=
  omap (fun e => match e with EMint v => Some v | _ => None end) tr.

(** The identifiers entered into the registry, in order. *)
Definition put_values (tr : list event) : list string :=
  omap (fun e => match e with EPut _ _ v => Some v | _ => None end) tr.

(** The registry a log leaves behind: it changes at [EPut] only. *)
Definition replay_event (m : gmap string string) (e : event) : gmap string string :=
  match e with
  | EPut t id v => <[reg_key t id := v]> m
  | _ => m
  end.

Definition replay (tr : list event) : gmap string string :=
  foldl replay_event ∅ tr.

(** Running a checker over a log. *)
Fixpoint check {S : Type} (step : S -> event -> option S) (st : S)
    (tr : list event) : option S :=
  match tr with
  | [] => Some st
  | e :: tr' =>
      match step st e with
      | Some st' => check step st' tr'
      | None => None
      end
  end.

(** The registry along a log: every lookup returns what was last stored. *)
Definition registry_step (m : gmap string string) (e : event)
    : option (gmap string string) :=
  match e with
  | EGet t id r => if decide (m !! reg_key t id = r) then Some m else None
  | _ => Some (replay_event m e)
  end.

(** An identifier enters the registry only as the latest one generated,
    and only once. *)
Definition fresh_step (pending : option string) (e : event) : option (option string) :=
  match e with
  | EMint v => Some (Some v)
  | EPut _ _ v => if decide (pending = Some v) then Some None else None
  | _ => Some pending
  end.

Definition fresh_safe (evs : list event) : Prop :=
  forall pending, is_Some (check fresh_step pending evs).

(** The transfer that fills a tag of the registry, and the transfers a
    transfer depends on. *)
Definition populates (t : tag) : dst_table :=
  match t with
  | Emp => employees
  | Member => customers
  | Prod => products
  | Txn => invoices
  end.

Definition requires (t : dst_table) : list dst_table :=
  match t with
  | invoices => [customers]
  | invoice_items => [invoices; products]
  | _ => []
  end.

(** Where the orchestrator is: the transfers that returned and the one
    that runs. *)
Record phase := mkPhase {
  finished : list dst_table;
  active : option dst_table
}.

(** A transfer starts once, after the transfers it depends on; the
    registry is written for a tag only by the transfer that fills it, and
    read for a tag only after that transfer returned. *)
Definition order_step (ph : phase) (e : event) : option phase :=
  match e with
  | EEnter t =>
      if bool_decide (active ph = None) && bool_decide (t ∉ finished ph)
         && forallb (fun t' => bool_decide (t' ∈ finished ph)) (requires t)
      then Some (mkPhase (finished ph) (Some t)) else None
  | EReturn t =>
      if bool_decide (active ph = Some t)
      then Some (mkPhase (t :: finished ph) None) else None
  | EGet tg _ _ =>
      if bool_decide (populates tg ∈ finished ph) then Some ph else None
  | EPut tg _ _ =>
      if bool_decide (active ph = Some (populates tg)) then Some ph else None
  | _ => Some ph
  end.

Definition is_marker (e : event) : bool :=
  match e with
  | EEnter _ | EReturn _ => true
  | _ => false
  end.

(** What a transfer may write to the log: no call bracket, lookups for
    the tags of the transfers it depends on, stores for its own tag. *)
Definition allowed (t : dst_table) (e : event) : Prop :=
  match e with
  | EEnter _ | EReturn _ => False
  | EGet tg _ _ => populates tg ∈ requires t
  | EPut tg _ _ => populates tg = t
  | _ => True
  end.

(** What the orchestrator itself may write outside the transfers. *)
Definition neutral (e : event) : Prop :=
  match e with
  | EEnter _ | EReturn _ | EGet _ _ _ | EPut _ _ _ => False
  | _ => True
  end.

(** From phase [ph] the log of [m] is in order, and [Q] holds of the phase
    reached when [m] returns. *)
Definition tracks {A} (ph : phase) (m : M A) (Q : phase -> Prop) : Prop :=
  forall s, exists evs ph',
    trace (m s).2 = trace s ++ evs /\
    check order_step ph evs = Some ph' /\
    (forall a, (m s).1 = Ret a -> Q ph').

(** An exception of a trigger switch is swallowed on the spot; any other
    exception ends the [try] block it is raised in. *)
Definition calm (e : event) : Prop :=
  match e with
  | ERaise (DriverError (PgExecute (DisableTrigger _)))
  | ERaise (DriverError (PgExecute (EnableTrigger _))) => True
  | ERaise _ => False
  | _ => True
  end.

(** A computation that does not exit, and whose exception, if it raises
    one, is the last thing it wrote to the log. *)
Definition disciplined {A} (m : M A) : Prop :=
  forall s, exists evs,
    Forall calm evs /\
    match (m s).1 with
    | Ret _ => trace (m s).2 = trace s ++ evs
    | Raise (Error e) => trace (m s).2 = trace s ++ evs ++ [ERaise e]
    | Raise (SystemExit _) => False
    end.

(** A projection of the state is left as it was. *)
Definition same {X} (f : state -> X) (s s' : state) : Prop := f s' = f s.

(** What a transfer [t] did from [s] to [s'] with log [evs], when it
    recovers from its exceptions: either nothing was raised but swallowed
    trigger switches, or the exception was the last event of the [try]
    block, followed by the diagnostic and the rollback, after which the
    session is back at the committed state. *)
Definition recovered (t : dst_table) (evs : list event) (s' : state) : Prop :=
  Forall calm evs \/
  exists evs0 e,
    evs = EPrint (MsgStart t) :: evs0
            ++ [ERaise e; EPrint (MsgError t e); ECall PgRollback] /\
    Forall calm evs0 /\
    pg_session s' = pg_committed s'.

(** The calls of [main], in order. *)
Definition transfers (w : world) : list (dst_table * M unit) :=
  [(employees, migrate_employees w); (customers, migrate_customers w);
   (products, migrate_products w); (invoices, migrate_invoices w);
   (invoice_items, migrate_invoice_items w)].

(** The log of a call of [main] to a transfer. *)
Definition bracket (t : dst_table) (evs : list event) : list event :=
  EEnter t :: evs ++ [EReturn t].

(** The state in which [connect] leaves a new object when both
    connections are established. *)
Definition connected_state (p : pgstore) : state :=
  mkState true true ∅ 0 0 2 p p
          [ECall MysqlConnect; ECall PgConnect; EPrint MsgConnected].

(** Both connections are established: the first two driver calls succeed. *)
Definition connected (w : world) : bool :=
  negb (raises w 0 MysqlConnect) && negb (raises w 1 PgConnect).

(** The source table and the loop body of each transfer. *)
Definition source_of (t : dst_table) : src_table :=
  match t with
  | employees => tbl_karyawan
  | customers => tbl_member
  | products => tbl_product
  | invoices => tbl_transaksi
  | invoice_items => tbl_detail_transaksi
  end.

Definition row_body (w : world) (t : dst_table) : row -> list tuple -> M (list tuple) :=
  match t with
  | employees => employee_row w
  | customers => customer_row w
  | products => product_row w
  | invoices => invoice_row w
  | invoice_items => invoice_item_row w
  end.

(** [data] is what the loop of the transfer into [t] builds from the whole
    source table, starting from the empty list. *)
Definition batch_of (w : world) (t : dst_table) (data : list tuple) : Prop :=
  returned (for_each (mysql_rows w (source_of t)) (row_body w t) []) data.

(** Every bulk insert carries the batch its transfer built, 100 rows a page. *)
Definition bulk_from_loop (w : world) (e : event) : Prop :=
  match e with
  | ECall (PgExecuteValues t data n) => n = 100 /\ batch_of w t data
  | _ => True
  end.

(** ** What a target row says about its source row *)

(** Columns 5 and 6 of an invoice: [status] and [payment_status]. *)
Definition invoice_status (txn : row) (t : tuple) : Prop :=
  exists v,
    txn !! "status_transaksi" = Some v /\
    t !! 5 = Some (PStr "completed") /\
    t !! 6 = Some (PStr (if py_eq_str v "paid" then "paid" else "unpaid")).

(** Columns 8 and 11 of an invoice: [items_total] and [grand_total]. *)
Definition invoice_totals (txn : row) (t : tuple) : Prop :=
  exists total,
    txn !! "total_pembelian" = Some total /\
    if truthy total
    then exists q, int_of total = inr q /\ t !! 8 = Some q /\ t !! 11 = Some q
    else t !! 8 = Some (PInt 0) /\ t !! 11 = Some (PInt 0).

(** Columns 6, 7 and 9 of a line item: [quantity], [unit_price] and
    [total_price]. *)
Definition item_amounts (detail : row) (t : tuple) : Prop :=
  exists qty harga subtotal,
    detail !! "qty" = Some qty /\
    detail !! "harga" = Some harga /\
    detail !! "subtotal" = Some subtotal /\
    (if truthy qty then exists q, int_of qty = inr q /\ t !! 6 = Some q
     else t !! 6 = Some (PInt 1)) /\
    (if truthy harga then exists x, float_of harga = inr x /\ t !! 7 = Some x
     else t !! 7 = Some (PFloat float_zero)) /\
    (if truthy subtotal then exists x, float_of subtotal = inr x /\ t !! 9 = Some x
     else t !! 9 = Some (PFloat float_zero)).

(** ** The transfers without dependencies *)

(** The registry tag and the key column of their source tables, and the
    columns their loop bodies read. *)
Definition tag_of (t : dst_table) : tag :=
  match t with
  | employees => Emp
  | customers => Member
  | products => Prod
  | invoices | invoice_items => Txn
  end.

Definition id_column (t : dst_table) : string :=
  match t with
  | employees => "id_karyawan"
  | customers => "id_member"
  | products => "id_product"
  | invoices | invoice_items => "id_transaksi"
  end.

Definition columns_read (t : dst_table) : list string :=
  match t with
  | employees => ["nama_karyawan"; "email"; "nomor_telepon"; "id_karyawan"]
  | customers => ["nama_member"; "nomor_telepon"; "alamat"; "id_member"]
  | products => ["seri"; "id_product"; "nama"; "deskripsi"; "satuan"; "hpp";
                 "harga"; "stok"]
  | invoices | invoice_items => []
  end.

Definition independent (t : dst_table) : bool :=
  match t with
  | employees | customers | products => true
  | invoices | invoice_items => false
  end.

Definition has_columns (cols : list string) (r : row) : bool :=
  forallb (fun c => bool_decide (is_Some (r !! c))) cols.

(** The source table has the columns read, and integer keys [ids], in the
    order of the rows. *)
Definition well_formed (w : world) (t : dst_table) (ids : list Z) : Prop :=
  forallb (has_columns (columns_read t)) (mysql_rows w (source_of t)) = true /\
  (fun r => r !! id_column t) <$> mysql_rows w (source_of t)
    = (fun z => Some (PInt z)) <$> ids.

(** Reading the source table raises nothing. *)
Definition fetch_succeeds (w : world) (t : dst_table) : Prop :=
  forall n, raises w n MysqlCursor = false /\
            raises w n (MysqlExecute (SelectAll (source_of t))) = false /\
            raises w n MysqlFetchall = false /\
            raises w n PgCursor = false.

(** The state when the loop of a transfer starts, after a successful read. *)
Definition fetched (t : dst_table) (s : state) : state :=
  set_tick (4 + tick s)
    (set_trace (trace s ++ [EPrint (MsgStart t); ECall MysqlCursor;
                            ECall (MysqlExecute (SelectAll (source_of t)));
                            ECall MysqlFetchall; ECall PgCursor]) s).

(** One of the first four transfers, by its target table. *)
Definition migrate (w : world) (t : dst_table) : M unit :=
  table_transfer w t (source_of t) (row_body w t).

(** What the loop leaves unchanged. *)
Definition loop_frame (s s' : state) : Prop :=
  mysql_conn s' = mysql_conn s /\ pg_conn s' = pg_conn s /\
  tick s' = tick s /\ pg_session s' = pg_session s /\
  pg_committed s' = pg_committed s.

(** What one round of the loop does to the state. *)
Definition row_step (w : world) (tg : tag) (id : pyval) (s s' : state) : Prop :=
  uuid_calls s' = S (uuid_calls s) /\
  migrated_records s' =
    <[reg_key tg id := uuid4 w (uuid_calls s)]> (migrated_records s) /\
  mysql_conn s' = mysql_conn s /\ pg_conn s' = pg_conn s /\
  tick s' = tick s /\ pg_session s' = pg_session s /\
  pg_committed s' = pg_committed s.

(** The end of a [try] block after the loop, and the handler. *)
Definition finish (w : world) (t : dst_table) (data : list tuple) : M unit :=
  execute_values w t data 100 ;;
  pg_commit w ;;
  print (MsgDone t (length data)) ;;
  driver w MysqlCursorClose.

Definition handler (w : world) (t : dst_table) (e : err) : M unit :=
  print (MsgError t e) ;; pg_rollback w.

(** ** The transfer of the line items, in parts *)

(** The names of the triggers on the line items, enabled or not. *)
Definition trigger_names (p : pgstore) : list string :=
  trg_name <$> List.filter (fun g => bool_decide (trg_table g = invoice_items))
                           (pg_triggers p).

(** [ALTER TABLE ... ENABLE TRIGGER] or [... DISABLE TRIGGER] *)
Definition toggle_sql (b : bool) (name : string) : sql :=
  if b then EnableTrigger name else DisableTrigger name.

Definition toggle_trigger (w : world) (b : bool) (name : string) (_ : unit) : M unit :=
  try_pass (pg_execute w (toggle_sql b name)).

(** An event that is no bulk insert. *)
Definition no_bulk (e : event) : Prop :=
  match e with
  | EBulk _ _ _ | ECall (PgExecuteValues _ _ _) => False
  | _ => True
  end.

(** The [try] block of [migrate_invoice_items] up to the list of the
    triggers, from the two loops on, and from the bulk insert on. *)
Definition items_prelude (w : world) : M (list row * list string) :=
  mysql_cursor w ;;
  let* details := mysql_select_all w tbl_detail_transaksi in
  pg_cursor w ;;
  pg_execute w SetConstraintsAllDeferred ;;
  pg_execute w SelectTriggers ;;
  let* triggers := pg_fetch_triggers w in
  ret (details, triggers).

Definition items_store (w : world) (triggers : list string) (data : list tuple)
    : M unit :=
  match data with
  | [] => ret tt
  | _ :: _ => execute_values w invoice_items data 100
  end ;;
  for_each triggers (enable_trigger w) tt ;;
  pg_commit w ;;
  print (MsgDone invoice_items (length data)) ;;
  driver w MysqlCursorClose.

Definition items_load (w : world) (details : list row) (triggers : list string)
    : M unit :=
  for_each triggers (disable_trigger w) tt ;;
  let* data := for_each details (invoice_item_row w) [] in
  items_store w triggers data.



(** What switching triggers leaves unchanged. *)
Definition toggle_frame (s s' : state) : Prop :=
  trigger_names (pg_session s') = trigger_names (pg_session s) /\
  listed_triggers (pg_session s') = listed_triggers (pg_session s) /\
  pg_deferred (pg_session s') = pg_deferred (pg_session s) /\
  pg_committed s' = pg_committed s /\
  pg_conn s' = pg_conn s.

(** A property of the state that, once true, stays true. *)
Definition keeps (I : state -> Prop) (s s' : state) : Prop := I s -> I s'.

(** The identifiers generated so far are the first [uuid_calls] ones. *)
Definition minted_ok (w : world) (s : state) : Prop :=
  minted (trace s) = uuid4 w <$> seq 0 (uuid_calls s).

(** The registry is the one the log determines, and every lookup of the
    log returned what the registry held. *)
Definition registry_ok (s : state) : Prop :=
  check registry_step ∅ (trace s) = Some (migrated_records s).

(** With [v] the latest identifier generated: logs that leave it pending,
    and logs that may also store it. *)
Definition holds_pending (v : string) (evs : list event) : Prop :=
  check fresh_step (Some v) evs = Some (Some v).

Definition may_store (v : string) (evs : list event) : Prop :=
  is_Some (check fresh_step (Some v) evs).

(** ** A small source store

    Three members, two transactions of which the second names a member
    that does not exist, and two line items of which the second belongs
    to that second transaction. *)

Definition mk_row (l : list (string * pyval)) : row := list_to_map l.

(** The transaction of a member that does not exist. *)
Definition demo_txn_unmapped : row :=
  mk_row [("id_transaksi", PInt 101); ("id_member", PInt 4);
          ("tanggal_transaksi", PTime 8); ("status_transaksi", PStr "PAID");
          ("total_pembelian", PNone); ("total_pembayaran", PNone);
          ("catatan", PNone); ("lokasi", PNone)].

Definition demo_rows (t : src_table) : list row :=
  match t with
  | tbl_karyawan =>
      [mk_row [("id_karyawan", PInt 1); ("nama_karyawan", PStr "Sari");
               ("email", PNone); ("nomor_telepon", PStr "0811")]]
  | tbl_member =>
      [mk_row [("id_member", PInt 1); ("nama_member", PStr "Adi");
               ("nomor_telepon", PStr "0812"); ("alamat", PNone)];
       mk_row [("id_member", PInt 2); ("nama_member", PStr "Budi");
               ("nomor_telepon", PNone); ("alamat", PStr "Jl. Melati 3")];
       mk_row [("id_member", PInt 3); ("nama_member", PStr "Citra");
               ("nomor_telepon", PNone); ("alamat", PNone)]]
  | tbl_product =>
      [mk_row [("id_product", PInt 10); ("seri", PNone); ("nama", PStr "Kabel");
               ("deskripsi", PNone); ("satuan", PStr ""); ("hpp", PInt 4000);
               ("harga", PInt 5000); ("stok", PNone)]]
  | tbl_transaksi =>
      [mk_row [("id_transaksi", PInt 100); ("id_member", PInt 2);
               ("tanggal_transaksi", PTime 7); ("status_transaksi", PStr "paid");
               ("total_pembelian", PInt 15000); ("total_pembayaran", PInt 15000);
               ("catatan", PNone); ("lokasi", PStr "Malang")];
       demo_txn_unmapped]
  | tbl_detail_transaksi =>
      [mk_row [("id_transaksi", PInt 100); ("id_product", PInt 10);
               ("nama_product", PStr "Kabel"); ("qty", PInt 3);
               ("harga", PNone); ("subtotal", PInt 0)];
       mk_row [("id_transaksi", PInt 101); ("id_product", PInt 10);
               ("nama_product", PStr "Kabel"); ("qty", PNone);
               ("harga", PInt 5000); ("subtotal", PInt 5000)]]
  end.

Definition demo_uuid (n : nat) : string := "uuid-" +:+ pretty n.

(** The run is given by the calls that fail. *)
Definition demo_world (fails : nat -> call -> bool) : world :=
  mkWorld demo_rows demo_uuid fails.

Definition no_failure (n : nat) (c : call) : bool := false.

(** The products cannot be read. *)
Definition product_fetch_fails (n : nat) (c : call) : bool :=
  match c with
  | MysqlExecute (SelectAll tbl_product) => true
  | _ => false
  end.

(** The employees cannot be read, and the rollback that follows raises. *)
Definition fetch_and_rollback_fail (n : nat) (c : call) : bool :=
  match c with
  | MysqlExecute (SelectAll tbl_karyawan) | PgRollback => true
  | _ => false
  end.

(** The target connection is lost before the first commit. *)
Definition commit_and_rollback_fail (n : nat) (c : call) : bool :=
  match c with
  | PgCommit | PgRollback => true
  | _ => false
  end.

(** The bulk insert of the customers is refused. *)
Definition customer_insert_fails (n : nat) (c : call) : bool :=
  match c with
  | PgExecuteValues customers _ _ => true
  | _ => false
  end.

(** The target store refuses the connection. *)
Definition pg_connect_fails (n : nat) (c : call) : bool :=
  match c with
  | PgConnect => true
  | _ => false
  end.



(** An empty target store with one user trigger and one that the query
    on the triggers leaves out. *)
Definition demo_store : pgstore :=
  mkStore (fun _ => [])
          [mkTrigger invoice_items "trg_stock" true;
           mkTrigger invoice_items "RI_ConstraintTrigger_a_1" true]
          false.

(** A source store whose second member has no address column. *)
Definition demo_member_first : row :=
  mk_row [("id_member", PInt 1); ("nama_member", PStr "Adi");
          ("nomor_telepon", PStr "0812"); ("alamat", PNone)].

Definition demo_member_no_address : row :=
  mk_row [("id_member", PInt 2); ("nama_member", PStr "Budi");
          ("nomor_telepon", PNone)].

Definition demo_rows_broken (t : src_table) : list row :=
  match t with
  | tbl_member => [demo_member_first; demo_member_no_address; demo_member_first]
  | _ => demo_rows t
  end.

Definition broken_world : world :=
  mkWorld demo_rows_broken demo_uuid no_failure.


(** A source store whose amounts are strings that are no numbers, and a
    connected object whose registry knows the parents. *)
Definition demo_txn_bad_total : row :=
  mk_row [("id_transaksi", PInt 100); ("id_member", PInt 2);
          ("tanggal_transaksi", PTime 7); ("status_transaksi", PStr "paid");
          ("total_pembelian", PStr "15.000,-"); ("total_pembayaran", PInt 15000);
          ("catatan", PNone); ("lokasi", PNone)].

Definition demo_detail_bad_qty : row :=
  mk_row [("id_transaksi", PInt 100); ("id_product", PInt 10);
          ("nama_product", PStr "Kabel"); ("qty", PStr "tiga");
          ("harga", PInt 5000); ("subtotal", PInt 15000)].

Definition demo_rows_bad_amount (t : src_table) : list row :=
  match t with
  | tbl_transaksi => [demo_txn_unmapped; demo_txn_bad_total]
  | tbl_detail_transaksi => [demo_detail_bad_qty]
  | _ => demo_rows t
  end.

Definition bad_amount_world : world :=
  mkWorld demo_rows_bad_amount demo_uuid no_failure.

Definition demo_registered : state :=
  set_records (list_to_map [("member_2", "uuid-2"); ("prod_10", "uuid-4");
                            ("txn_100", "uuid-5")])
              (connected_state demo_store).

(** ** The target rows, column by column

    What a row of each bulk insert is, given the source row it was built
    from.  [created_at] and [updated_at] are two successive readings of
    the clock. *)

Definition employee_fields (emp : row) (t : tuple) : Prop :=
  exists id name email phone created,
    emp !! "nama_karyawan" = Some name /\
    emp !! "email" = Some email /\
    emp !! "nomor_telepon" = Some phone /\
    t = [PStr id; name; email; phone; PStr "technician"; PStr "available";
         PFloat float_zero; PInt 0; PNone; PTime created; PTime (S created)].

Definition customer_fields (member : row) (t : tuple) : Prop :=
  exists id name phone address created,
    member !! "nama_member" = Some name /\
    member !! "nomor_telepon" = Some phone /\
    member !! "alamat" = Some address /\
    t = [PStr id; name; phone; PNone; address; PStr "retail"; PInt 0;
         PFloat float_zero; PBool false; PNone; PTime created;
         PTime (S created); PFloat float_zero].

Definition product_fields (prod : row) (t : tuple) : Prop :=
  exists id seri pid nama deskripsi satuan hpp harga stok created,
    prod !! "seri" = Some seri /\
    prod !! "id_product" = Some pid /\
    prod !! "nama" = Some nama /\
    prod !! "deskripsi" = Some deskripsi /\
    prod !! "satuan" = Some satuan /\
    prod !! "hpp" = Some hpp /\
    prod !! "harga" = Some harga /\
    prod !! "stok" = Some stok /\
    t = [PStr id;
         if truthy seri then seri else PStr ("SKU-" +:+ py_str pid);
         py_or nama (PStr "Unnamed Product"); deskripsi; PStr "spare_parts";
         py_or satuan (PStr "pcs"); py_or hpp (PInt 0); py_or harga (PInt 0);
         py_or stok (PInt 0); PInt 5; PBool false; PBool true; PTime created;
         PTime (S created); PNone].

(** The columns of an invoice other than the payment status and the two
    totals. *)
Definition invoice_fields (txn : row) (t : tuple) : Prop :=
  exists id number cust date payment items grand paid notes address created,
    txn !! "id_transaksi" = Some number /\
    txn !! "tanggal_transaksi" = Some date /\
    txn !! "total_pembayaran" = Some paid /\
    txn !! "catatan" = Some notes /\
    txn !! "lokasi" = Some address /\
    str_truthy cust = true /\
    t = [PStr id; number; PStr cust; date; PNone; PStr "completed"; payment;
         PFloat float_zero; items; PFloat float_zero; PFloat float_zero; grand;
         py_or paid (PInt 0); notes; PNone; PNone; PTime created;
         PTime (S created); address].

(** The columns of a line item other than the quantity and the two
    amounts. *)
Definition item_fields (detail : row) (t : tuple) : Prop :=
  exists id inv prod name quantity price total created,
    detail !! "nama_product" = Some name /\
    str_truthy inv = true /\ str_truthy prod = true /\
    t = [PStr id; PStr inv; PStr prod; name; PNone; PNone; quantity; price;
         PFloat float_zero; total; PBool false; PNone; PTime created;
         PTime (S created)].

(** ** What a transfer leaves behind *)

(** The bulk inserts issued and the success messages printed, in order. *)
Definition inserts (tr : list event) : list (dst_table * list tuple * nat) :=
  omap (fun e => match e with
                 | ECall (PgExecuteValues t d n) => Some (t, d, n)
                 | _ => None
                 end) tr.

Definition announced (tr : list event) : list (dst_table * nat) :=
  omap (fun e => match e with
                 | EPrint (MsgDone t n) => Some (t, n)
                 | _ => None
                 end) tr.

(** A log without bulk insert and without success message. *)
Definition quiet (evs : list event) : Prop :=
  inserts evs = [] /\ announced evs = [].

(** The [try] block of a transfer up to its loop. *)
Definition fetch (w : world) (src : src_table) : M (list row) :=
  mysql_cursor w ;;
  let* rows := mysql_select_all w src in
  pg_cursor w ;;
  ret rows.

(** The tag under which a transfer writes to the registry. *)
Definition registry_tag (t : dst_table) : option tag :=
  match t with
  | employees => Some Emp
  | customers => Some Member
  | products => Some Prod
  | invoices => Some Txn
  | invoice_items => None
  end.

(** The registry is as it was outside the keys of tag [tg]. *)
Definition writes_only (tg : option tag) (s s' : state) : Prop :=
  forall k, (forall t id, tg = Some t -> k <> reg_key t id) ->
            migrated_records s' !! k = migrated_records s !! k.

(** ** Parents in the registry

    With [reg] the registry: the customer of an invoice row is what [reg]
    holds for the member of the transaction; the invoice and the product
    of a line item are what [reg] holds for the transaction and the
    product of the detail row. *)
Definition customer_of (reg : gmap string string) (txn : row) (t : tuple) : Prop :=
  exists member_id cust,
    txn !! "id_member" = Some member_id /\
    reg !! reg_key Member member_id = Some cust /\
    t !! 2 = Some (PStr cust).

Definition parents_of (reg : gmap string string) (detail : row) (t : tuple) : Prop :=
  exists txn_id product_id inv prod,
    detail !! "id_transaksi" = Some txn_id /\
    detail !! "id_product" = Some product_id /\
    reg !! reg_key Txn txn_id = Some inv /\
    reg !! reg_key Prod product_id = Some prod /\
    t !! 1 = Some (PStr inv) /\ t !! 2 = Some (PStr prod).

(** The registry keys of the transactions of a source table. *)
Definition txn_keys (rows : list row) : list string :=
  omap (fun r => reg_key Txn <$> r !! "id_transaksi") rows.

(** With [reg] the registry: the row is registered under its invoice
    number with its own identifier. *)
Definition registered (reg : gmap string string) (t : tuple) : Prop :=
  exists id number,
    t !! 0 = Some (PStr id) /\ t !! 1 = Some number /\
    reg !! reg_key Txn number = Some id.


(** The trigger switches issued, in order: [false] for [DISABLE], [true]
    for [ENABLE]. *)
Definition switches (tr : list event) : list (bool * string) :=
  omap (fun e => match e with
                 | ECall (PgExecute (DisableTrigger n)) => Some (false, n)
                 | ECall (PgExecute (EnableTrigger n)) => Some (true, n)
                 | _ => None
                 end) tr.

(** A log without trigger switch. *)
Definition still (evs : list event) : Prop := switches evs = [].

(** The source cursor along a log: it is closed only right after a
    success message. *)
Definition close_step (st : bool) (e : event) : option bool :=
  match e with
  | EPrint (MsgDone _ _) => Some true
  | ECall MysqlCursorClose => if st then Some false else None
  | _ => Some false
  end.

Definition close_safe (evs : list event) : Prop :=
  forall st, is_Some (check close_step st evs).

(** An event other than the closing banner. *)
Definition unfinished (e : event) : Prop :=
  match e with
  | EPrint MsgFinished => False
  | _ => True
  end.

(** [m] prints the closing banner exactly when it returns. *)
Definition announces_end (m : M unit) : Prop :=
  forall s, exists evs,
    trace (m s).2 = trace s ++ evs /\
    ((m s).1 = Ret tt <-> EPrint MsgFinished ∈ evs).

(** * Verification *)

(** ** Running the monad *)

Lemma bind_ret_run {A B} (m : M A) (f : A -> M B) s a s1 :
  m s = (Ret a, s1) -> bind m f s = f a s1.
Proof. unfold bind. by intros ->. Qed.

Lemma bind_raise_run {A B} (m : M A) (f : A -> M B) s e s1 :
  m s = (Raise e, s1) -> bind m f s = (Raise e, s1).
Proof. unfold bind. by intros ->. Qed.

Lemma bind_inv_ret {A B} (m : M A) (f : A -> M B) s b s' :
  bind m f s = (Ret b, s') ->
  exists a s1, m s = (Ret a, s1) /\ f a s1 = (Ret b, s').
Proof. unfold bind. destruct (m s) as [[a|e] s1]; [eauto | discriminate]. Qed.

Lemma bind_inv_raise {A B} (m : M A) (f : A -> M B) s e s' :
  bind m f s = (Raise e, s') ->
  m s = (Raise e, s') \/ exists a s1, m s = (Ret a, s1) /\ f a s1 = (Raise e, s').
Proof. unfold bind. destruct (m s) as [[a|e0] s1]; [eauto | intros [= -> ->]; auto]. Qed.

Lemma getitem_inv (r : row) col s v s' :
  getitem r col s = (Ret v, s') -> r !! col = Some v /\ s' = s.
Proof. unfold getitem. destruct (r !! col); cbn; intros [=]; subst; auto. Qed.

Lemma getitem_some (r : row) col v s :
  r !! col = Some v -> getitem r col s = (Ret v, s).
Proof. unfold getitem. by intros ->. Qed.

Lemma of_result_inv {A} (r : err + A) s a s' :
  of_result r s = (Ret a, s') -> r = inr a /\ s' = s.
Proof. destruct r; cbn; intros [=]; subst; auto. Qed.

Lemma get_or_inv (r : row) col dflt s v s' :
  get_or r col dflt s = (Ret v, s') ->
  exists c, r !! col = Some c /\ v = py_or c dflt /\ s' = s.
Proof.
  unfold get_or. intros (c & s1 & Hc & Hr)%bind_inv_ret.
  apply getitem_inv in Hc as [Hc ->]. injection Hr as <- <-. eauto.
Qed.

(** [conv(r[col]) if r[col] else dflt] yields the default exactly for a
    falsy field. *)
Lemma cond_conv_inv (r : row) col (f : pyval -> err + pyval) dflt s v s' :
  cond_conv r col (fun x => of_result (f x)) dflt s = (Ret v, s') ->
  exists c, r !! col = Some c /\ s' = s /\
            (if truthy c then f c = inr v else v = dflt).
Proof.
  unfold cond_conv. intros (c & s1 & Hc & Hr)%bind_inv_ret.
  apply getitem_inv in Hc as [Hc ->]. exists c. split; [done|].
  destruct (truthy c).
  - apply bind_inv_ret in Hr as (c' & s1 & Hc' & Hr).
    apply getitem_inv in Hc' as [Hc' ->].
    apply of_result_inv in Hr as [Hr ->]. by simplify_eq.
  - by injection Hr as <- <-.
Qed.

Ltac inv_run H :=
  repeat match type of H with
  | bind _ _ _ = (Ret _, _) =>
      let a := fresh "a" in
      let s1 := fresh "s" in
      let H1 := fresh "Hrun" in
      apply bind_inv_ret in H as (a & s1 & H1 & H)
  end.

(** ** Relations respected by every step *)

Section Respects.
Context (R : state -> state -> Prop) (HR : PreOrder R).

Lemma respects_ret {A} (a : A) : respects R (ret a).
Proof. intros s. reflexivity. Qed.

Lemma respects_bind {A B} (m : M A) (f : A -> M B) :
  respects R m -> (forall a, returned m a -> respects R (f a)) ->
  respects R (bind m f).
Proof.
  intros Hm Hf s. unfold bind. specialize (Hm s).
  destruct (m s) as [[a|e] s1] eqn:Hms; [|done].
  etrans; [exact Hm | apply Hf]. by exists s, s1.
Qed.

Lemma respects_try_except {A} (m : M A) h :
  respects R m -> (forall e, respects R (h e)) -> respects R (try_except m h).
Proof.
  intros Hm Hh s. unfold try_except. specialize (Hm s).
  destruct (m s) as [[a|[e|c]] s1]; [done| |done].
  etrans; [exact Hm | apply Hh].
Qed.

Lemma respects_try_pass (m : M unit) : respects R m -> respects R (try_pass m).
Proof.
  intros Hm s. unfold try_pass. specialize (Hm s).
  by destruct (m s) as [[a|e] s1].
Qed.

Lemma respects_for_each {A B} (l : list A) (body : A -> B -> M B) acc :
  (forall x b, respects R (body x b)) -> respects R (for_each l body acc).
Proof.
  intros Hb. revert acc. induction l as [|x l IH]; intros acc; cbn.
  - apply respects_ret.
  - apply respects_bind; [apply Hb | intros b _; apply IH].
Qed.

Lemma respects_need {A} attr (m : M A) :
  respects R m -> respects R (throw AttributeError : M A) -> respects R (need attr m).
Proof. intros Hm Ht s. unfold need. destruct (attr s); [apply Hm | apply Ht]. Qed.

Lemma respects_when_set attr (m : M unit) :
  respects R m -> respects R (when_set attr m).
Proof. intros Hm s. unfold when_set. destruct (attr s); [apply Hm | reflexivity]. Qed.

Lemma respects_gets {A} (f : state -> A) : respects R (gets f).
Proof. intros s. reflexivity. Qed.

Lemma respects_sys_exit {A} code : respects R (sys_exit code : M A).
Proof. intros s. reflexivity. Qed.

End Respects.

Global Instance logs_preorder K `{!Closed K} : PreOrder (logs K).
Proof.
  split.
  - intros s. exists []. split; [by rewrite app_nil_r | apply closed_nil].
  - intros s1 s2 s3 (l1 & E1 & K1) (l2 & E2 & K2). exists (l1 ++ l2).
    split; [by rewrite E2, E1, app_assoc | by apply closed_app].
Qed.

Global Instance Forall_closed (P : event -> Prop) : Closed (Forall P).
Proof. split; [constructor | intros; by apply Forall_app]. Qed.

(** Splitting a computation into its steps, down to the primitives. *)
Ltac open_defs :=
  unfold main, transfer, connect, close, migrate_employees, migrate_customers,
    migrate_products, migrate_invoices, migrate_invoice_items, table_transfer,
    employee_row, customer_row, product_row, invoice_row, invoice_item_row,
    disable_trigger, enable_trigger, mysql_cursor, mysql_select_all, pg_cursor,
    execute_values, pg_commit, pg_rollback, pg_execute, pg_fetch_triggers,
    cond_conv, get_or, py_int, py_float, print.

Ltac split_steps_with early leaf :=
  repeat first
    [ early
    | apply respects_ret; apply _
    | apply respects_gets; apply _
    | apply respects_sys_exit; apply _
    | apply respects_bind; [apply _ | | intros ? ?]
    | apply respects_try_except; [apply _ | | intros ?]
    | apply respects_try_pass
    | apply respects_for_each; [apply _ | intros ? ?]
    | apply respects_need
    | apply respects_when_set; [apply _ |]
    | match goal with
      | |- respects _ (match ?x with _ => _ end) => destruct x
      end
    | progress open_defs
    | progress cbv zeta
    | leaf ].

Ltac split_steps leaf := split_steps_with ltac:(fail) leaf.

(** A primitive, run on a state. *)
Ltac run_prim :=
  intros ?; unfold log, throw, driver, uuid4_str, now, getitem, of_result,
    records_get, records_put, modify, log_bulk, ret, throw;
  cbn; repeat case_match; cbn.

Global Instance True_closed : Closed (fun _ => True).
Proof. by split. Qed.

(** The log of a primitive, with [ksolve] to show that it is in the family. *)
Ltac logs_leaf ksolve :=
  run_prim; unfold logs; cbn; rewrite <- ?app_assoc;
  first [ exists []; rewrite app_nil_r; split; [reflexivity | ksolve]
        | eexists; split; [reflexivity | ksolve] ].

Lemma main_grows w : respects (logs (fun _ => True)) (main w).
Proof. split_steps ltac:(logs_leaf ltac:(exact I)). Qed.

Global Instance keeps_preorder I : PreOrder (keeps I).
Proof. split; [intros s Hi; exact Hi | intros s1 s2 s3 H1 H2 Hi; auto]. Qed.

(** ** Checkers and logs *)

Lemma check_app {S} (step : S -> event -> option S) st l1 l2 :
  check step st (l1 ++ l2) =
  match check step st l1 with
  | Some st' => check step st' l2
  | None => None
  end.
Proof.
  revert st. induction l1 as [|e l1 IH]; intros st; cbn; [done|].
  destruct (step st e); [apply IH | done].
Qed.

Lemma check_app_inv {S} (step : S -> event -> option S) st l1 l2 st2 :
  check step st (l1 ++ l2) = Some st2 ->
  exists st1, check step st l1 = Some st1 /\ check step st1 l2 = Some st2.
Proof. rewrite check_app. destruct (check step st l1); [eauto | done]. Qed.

Lemma minted_app l1 l2 : minted (l1 ++ l2) = minted l1 ++ minted l2.
Proof. apply omap_app. Qed.

Lemma put_values_app l1 l2 : put_values (l1 ++ l2) = put_values l1 ++ put_values l2.
Proof. apply omap_app. Qed.

Lemma replay_app l1 l2 : replay (l1 ++ l2) = foldl replay_event (replay l1) l2.
Proof. apply foldl_app. Qed.

Global Instance fresh_safe_closed : Closed fresh_safe.
Proof.
  split.
  - intros pending. by eexists.
  - intros l1 l2 H1 H2 pending. rewrite check_app.
    destruct (H1 pending) as [st ->]. apply H2.
Qed.

(** ** Invariants of the state *)

Ltac keeps_leaf tac :=
  run_prim; unfold keeps; cbn; tac.

Lemma uuid4_str_minted w : respects (keeps (minted_ok w)) (uuid4_str w).
Proof.
  intros s Hi. unfold minted_ok in *.
  change (minted (trace s ++ [EMint (uuid4 w (uuid_calls s))]) =
          uuid4 w <$> seq 0 (S (uuid_calls s))).
  by rewrite minted_app, seq_S, fmap_app, Hi.
Qed.

Lemma main_minted w : respects (keeps (minted_ok w)) (main w).
Proof.
  split_steps_with ltac:(apply uuid4_str_minted) ltac:(keeps_leaf ltac:(
    unfold minted_ok; cbn; rewrite <- ?app_assoc, ?minted_app;
    cbn; rewrite ?app_nil_r; done)).
Qed.

Lemma main_registry w : respects (keeps registry_ok) (main w).
Proof.
  split_steps ltac:(keeps_leaf ltac:(
    unfold registry_ok; cbn; rewrite <- ?app_assoc, ?check_app; try done;
    intros ->; cbn; rewrite ?decide_True by done; done)).
Qed.

(** ** Freshness of what enters the registry *)

Global Instance holds_pending_closed v : Closed (holds_pending v).
Proof.
  split; [done|]. intros l1 l2 H1 H2. unfold holds_pending in *.
  by rewrite check_app, H1.
Qed.

Lemma logs_bind_store {A B} v (m : M A) (f : A -> M B) :
  respects (logs (holds_pending v)) m ->
  (forall a, respects (logs (may_store v)) (f a)) ->
  respects (logs (may_store v)) (bind m f).
Proof.
  intros Hm Hf s. unfold bind. destruct (Hm s) as (l1 & E1 & K1).
  destruct (m s) as [[a|e] s1]; cbn in *.
  - destruct (Hf a s1) as (l2 & E2 & K2). exists (l1 ++ l2). split.
    + by rewrite E2, E1, app_assoc.
    + unfold may_store, holds_pending in *. by rewrite check_app, K1.
  - exists l1. split; [done|]. unfold may_store, holds_pending in *.
    rewrite K1. by eexists.
Qed.

Lemma mint_then_store {B} w (f : string -> M B) :
  (forall v, respects (logs (may_store v)) (f v)) ->
  respects (logs fresh_safe) (bind (uuid4_str w) f).
Proof.
  intros Hf s. unfold bind, uuid4_str.
  match goal with |- logs _ _ (f ?v ?s1).2 => destruct (Hf v s1) as (l & E & K) end.
  cbn in E. exists (EMint (uuid4 w (uuid_calls s)) :: l). split.
  - by rewrite E, <- app_assoc.
  - intros pending. exact K.
Qed.

Ltac pending_leaf := logs_leaf ltac:(reflexivity).

Ltac store_leaf :=
  intros ?; unfold bind, records_put, ret; cbn; unfold logs; cbn;
  first [ exists []; rewrite app_nil_r; split; [reflexivity | by eexists]
        | eexists; split; [reflexivity|]; unfold may_store; cbn;
          rewrite decide_True by done; by eexists ].

Ltac fresh_row :=
  open_defs; apply mint_then_store; intros ?;
  repeat first
    [ apply logs_bind_store; [ solve [split_steps pending_leaf] | intros ? ]
    | progress cbv zeta
    | match goal with
      | |- respects _ (match ?x with _ => _ end) => destruct x
      end
    | store_leaf ].

Lemma employee_row_fresh w emp data :
  respects (logs fresh_safe) (employee_row w emp data).
Proof. fresh_row. Qed.

Lemma customer_row_fresh w member data :
  respects (logs fresh_safe) (customer_row w member data).
Proof. fresh_row. Qed.

Lemma product_row_fresh w prod data :
  respects (logs fresh_safe) (product_row w prod data).
Proof. fresh_row. Qed.

Lemma invoice_row_fresh w txn data :
  respects (logs fresh_safe) (invoice_row w txn data).
Proof. fresh_row. Qed.

Lemma main_fresh w : respects (logs fresh_safe) (main w).
Proof.
  split_steps_with
    ltac:(first [ apply employee_row_fresh | apply customer_row_fresh
                | apply product_row_fresh | apply invoice_row_fresh ])
    ltac:(logs_leaf ltac:(intros pending; cbn; eauto)).
Qed.

(** ** The registry is injective *)

Lemma fresh_sublist pending tr pending' :
  check fresh_step pending tr = Some pending' ->
  (put_values tr ++ option_list pending') `sublist_of`
  (option_list pending ++ minted tr).
Proof.
  unfold minted, put_values.
  revert pending. induction tr as [|e tr IH]; intros pending; cbn.
  - intros [= ->]. by rewrite app_nil_r.
  - destruct e; cbn; try (intros Hc; apply IH in Hc; exact Hc).
    + intros Hc. apply IH in Hc. cbn in Hc.
      apply sublist_inserts_l. exact Hc.
    + case_decide as Hp; [|done]. subst pending. intros Hc. apply IH in Hc.
      cbn in *. by apply sublist_skip.
Qed.

Lemma fresh_put_values tr pending' :
  check fresh_step None tr = Some pending' ->
  NoDup (minted tr) -> NoDup (put_values tr).
Proof.
  intros Hc Hnd. apply fresh_sublist in Hc. cbn in Hc.
  eapply sublist_NoDup; [exact Hnd|].
  etrans; [|exact Hc]. by apply sublist_inserts_r.
Qed.

Lemma replay_snoc tr e : replay (tr ++ [e]) = replay_event (replay tr) e.
Proof. by rewrite replay_app. Qed.

Lemma replay_values tr k v : replay tr !! k = Some v -> v ∈ put_values tr.
Proof.
  induction tr as [|e tr IH] using rev_ind; [done|].
  rewrite replay_snoc, put_values_app, elem_of_app.
  destruct e; cbn; auto.
  rewrite lookup_insert. case_decide.
  - intros [= ->]. right. by apply list_elem_of_singleton.
  - auto.
Qed.

Lemma replay_inj tr k1 k2 v :
  NoDup (put_values tr) ->
  replay tr !! k1 = Some v -> replay tr !! k2 = Some v -> k1 = k2.
Proof.
  revert k1 k2 v. induction tr as [|e tr IH] using rev_ind; [done|].
  intros k1 k2 v. rewrite replay_snoc, put_values_app.
  destruct e; cbn; rewrite ?app_nil_r; try apply IH.
  intros (Hnd & Hnew & _)%NoDup_app.
  assert (v0 ∉ put_values tr) as Hv0.
  { intros Hin. apply (Hnew _ Hin). by apply list_elem_of_singleton. }
  rewrite !lookup_insert. repeat case_decide; subst; try done.
  - intros [= <-] Hk2. by apply replay_values in Hk2.
  - intros Hk1 [= <-]. by apply replay_values in Hk1.
  - by apply IH.
Qed.

Lemma check_registry_replay m tr m' :
  check registry_step m tr = Some m' -> m' = foldl replay_event m tr.
Proof.
  revert m. induction tr as [|e tr IH]; intros m; cbn; [by intros [= ->]|].
  destruct e; cbn; try apply IH. case_decide; [apply IH | done].
Qed.

Lemma reg_key_inj t1 t2 z1 z2 :
  reg_key t1 (PInt z1) = reg_key t2 (PInt z2) -> t1 = t2 /\ z1 = z2.
Proof.
  unfold reg_key. destruct t1, t2; cbn; intros Heq; simplify_eq;
    (split; [done|]); by eapply (inj pretty).
Qed.

Lemma run_fresh w p : is_Some (check fresh_step None (trace (run w p).2)).
Proof.
  unfold run. destruct (main_fresh w (init p)) as (evs & E & Hs).
  rewrite E. apply Hs.
Qed.

Lemma run_minted w p :
  minted (trace (run w p).2) = uuid4 w <$> seq 0 (uuid_calls (run w p).2).
Proof. by apply (main_minted w (init p)). Qed.

Lemma run_registry w p :
  check registry_step ∅ (trace (run w p).2) = Some (migrated_records (run w p).2).
Proof. by apply (main_registry w (init p)). Qed.

Lemma run_prefix_puts w p pre post :
  Inj (=) (=) (uuid4 w) ->
  trace (run w p).2 = pre ++ post -> NoDup (put_values pre).
Proof.
  intros Hinj Htr.
  destruct (run_fresh w p) as [st Hst]. rewrite Htr in Hst.
  apply check_app_inv in Hst as (st1 & Hpre & _).
  apply (fresh_put_values _ _ Hpre).
  pose proof (run_minted w p) as Hm. rewrite Htr, minted_app in Hm.
  assert (NoDup (minted pre ++ minted post)) as Hnd.
  { rewrite Hm. apply NoDup_fmap_2; [done | apply NoDup_seq]. }
  by apply NoDup_app in Hnd as [? _].
Qed.

Lemma demo_uuid_inj : Inj (=) (=) demo_uuid.
Proof.
  intros n1 n2. unfold demo_uuid. cbn. intros Heq. simplify_eq.
  by eapply (inj pretty).
Qed.

(** ** The order of the transfers *)

Lemma allowed_step t e fin :
  allowed t e -> (forall t', t' ∈ requires t -> t' ∈ fin) ->
  order_step (mkPhase fin (Some t)) e = Some (mkPhase fin (Some t)).
Proof.
  intros He Hreq. destruct e; cbn in *; try done.
  - rewrite bool_decide_eq_true_2; [done | auto].
  - rewrite bool_decide_eq_true_2; [done | congruence].
Qed.

Lemma allowed_check t evs fin :
  Forall (allowed t) evs -> (forall t', t' ∈ requires t -> t' ∈ fin) ->
  check order_step (mkPhase fin (Some t)) evs = Some (mkPhase fin (Some t)).
Proof.
  intros Hall Hreq. induction Hall as [|e evs He _ IH]; cbn; [done|].
  by rewrite (allowed_step t e fin).
Qed.

Lemma neutral_check evs ph :
  Forall neutral evs -> check order_step ph evs = Some ph.
Proof.
  induction 1 as [|e evs He _ IH]; cbn; [done|].
  destruct e; cbn in *; done.
Qed.

Lemma tracks_bind {A B} ph (m : M A) (f : A -> M B) Q Q' :
  tracks ph m Q -> (forall a ph', Q ph' -> tracks ph' (f a) Q') ->
  tracks ph (bind m f) Q'.
Proof.
  intros Hm Hf s. unfold bind. destruct (Hm s) as (l1 & ph1 & E1 & C1 & Q1).
  destruct (m s) as [[a|e] s1]; cbn in *.
  - destruct (Hf a ph1 (Q1 a eq_refl) s1) as (l2 & ph2 & E2 & C2 & Q2).
    exists (l1 ++ l2), ph2. split; [by rewrite E2, E1, app_assoc|].
    split; [by rewrite check_app, C1 | done].
  - exists l1, ph1. by repeat split.
Qed.

Lemma tracks_neutral {A} ph (m : M A) :
  respects (logs (Forall neutral)) m -> tracks ph m (fun ph' => ph' = ph).
Proof.
  intros Hm s. destruct (Hm s) as (evs & E & Hn).
  exists evs, ph. split; [done|]. split; [by apply neutral_check | done].
Qed.

Lemma tracks_transfer t fin (m : M unit) :
  bool_decide (t ∉ fin)
    && forallb (fun t' => bool_decide (t' ∈ fin)) (requires t) = true ->
  respects (logs (Forall (allowed t))) m ->
  tracks (mkPhase fin None) (transfer t m) (fun ph' => ph' = mkPhase (t :: fin) None).
Proof.
  intros [Hnew Hf]%andb_prop Hm s. apply bool_decide_eq_true_1 in Hnew.
  assert (forall t', t' ∈ requires t -> t' ∈ fin) as Hreq.
  { intros t' Ht'. apply list_elem_of_In in Ht'.
    pose proof (proj1 (forallb_forall _ _) Hf t' Ht') as Hb.
    by apply bool_decide_eq_true_1 in Hb. }
  unfold transfer, bind, log. cbn.
  match goal with |- context [m ?s1] => destruct (Hm s1) as (evs & E & Hall) end.
  cbn in E. pose proof (allowed_check t evs fin Hall Hreq) as Hc.
  assert (order_step (mkPhase fin None) (EEnter t) = Some (mkPhase fin (Some t)))
    as Henter.
  { unfold order_step. cbn [active finished]. rewrite Hf.
    by rewrite !bool_decide_eq_true_2. }
  destruct (m _) as [[[]|e] s1]; cbn in E |- *.
  - exists (EEnter t :: evs ++ [EReturn t]), (mkPhase (t :: fin) None).
    split; [by rewrite E, <- !app_assoc|]. split; [|done].
    cbn [check]. rewrite Henter, check_app, Hc. cbn.
    by rewrite bool_decide_eq_true_2.
  - exists (EEnter t :: evs), (mkPhase fin (Some t)).
    split; [by rewrite E, <- !app_assoc|]. split; [|done].
    cbn [check]. by rewrite Henter.
Qed.

Ltac event_leaf :=
  logs_leaf ltac:(by repeat constructor).

Lemma migrate_employees_allowed w :
  respects (logs (Forall (allowed employees))) (migrate_employees w).
Proof. split_steps event_leaf. Qed.

Lemma migrate_customers_allowed w :
  respects (logs (Forall (allowed customers))) (migrate_customers w).
Proof. split_steps event_leaf. Qed.

Lemma migrate_products_allowed w :
  respects (logs (Forall (allowed products))) (migrate_products w).
Proof. split_steps event_leaf. Qed.

Lemma migrate_invoices_allowed w :
  respects (logs (Forall (allowed invoices))) (migrate_invoices w).
Proof. split_steps event_leaf. Qed.

Lemma migrate_invoice_items_allowed w :
  respects (logs (Forall (allowed invoice_items))) (migrate_invoice_items w).
Proof. split_steps event_leaf. Qed.

Lemma connect_neutral w : respects (logs (Forall neutral)) (connect w).
Proof. split_steps event_leaf. Qed.

Lemma close_neutral w : respects (logs (Forall neutral)) (close w).
Proof. split_steps event_leaf. Qed.

Lemma print_neutral m : respects (logs (Forall neutral)) (print m).
Proof. split_steps event_leaf. Qed.

Lemma main_in_order w :
  tracks (mkPhase [] None) (main w) (fun _ => True).
Proof.
  unfold main.
  eapply tracks_bind; [apply tracks_neutral, connect_neutral|]. intros _ ? ->.
  eapply tracks_bind; [apply tracks_neutral, print_neutral|]. intros _ ? ->.
  eapply tracks_bind.
  { by apply tracks_transfer, migrate_employees_allowed. }
  intros _ ? ->. eapply tracks_bind.
  { by apply tracks_transfer, migrate_customers_allowed. }
  intros _ ? ->. eapply tracks_bind.
  { by apply tracks_transfer, migrate_products_allowed. }
  intros _ ? ->. eapply tracks_bind.
  { by apply tracks_transfer, migrate_invoices_allowed. }
  intros _ ? ->. eapply tracks_bind.
  { by apply tracks_transfer, migrate_invoice_items_allowed. }
  intros _ ? ->.
  eapply tracks_bind; [apply tracks_neutral, close_neutral|]. intros _ ? ->.
  intros s. destruct (print_neutral MsgFinished s) as (evs & E & Hn).
  eexists evs, _. split; [done|]. split; [by apply neutral_check | done].
Qed.

Lemma run_in_order w p :
  is_Some (check order_step (mkPhase [] None) (trace (run w p).2)).
Proof.
  unfold run. destruct (main_in_order w (init p)) as (evs & ph & E & C & _).
  rewrite E. by exists ph.
Qed.

Lemma order_step_finished ph e ph' t :
  order_step ph e = Some ph' ->
  (t ∈ finished ph' <-> t ∈ finished ph \/ e = EReturn t).
Proof.
  destruct e; cbn; repeat case_match; try done; intros [= <-]; cbn;
    rewrite ?elem_of_cons; intuition congruence.
Qed.

Lemma order_step_active ph e ph' t :
  order_step ph e = Some ph' -> active ph' = Some t ->
  (active ph = Some t /\ e <> EReturn t) \/ (e = EEnter t /\ t ∉ finished ph).
Proof.
  destruct e as [c|er|idm|tg id r|tg id v|m|tb ar df|t0|t0]; cbn;
    try (intros [= <-]; auto).
  - case_bool_decide; [|done]. intros [= <-]. auto.
  - case_bool_decide; [|done]. intros [= <-]. auto.
  - case_match eqn:Hc; [|done]. intros [= <-]. cbn. intros [= ->].
    apply andb_prop in Hc as [[_ Hnew%bool_decide_eq_true_1]%andb_prop _].
    auto.
  - case_bool_decide; [|done]. by intros [= <-].
Qed.

Lemma order_invariant tr ph :
  check order_step (mkPhase [] None) tr = Some ph ->
  (forall t, t ∈ finished ph <-> EReturn t ∈ tr) /\
  (forall t, active ph = Some t -> EEnter t ∈ tr /\ EReturn t ∉ tr).
Proof.
  revert ph. induction tr as [|e tr IH] using rev_ind; intros ph.
  - intros [= <-]. cbn. split; [|done]. intros t. by rewrite !elem_of_nil.
  - intros (ph1 & H1 & He)%check_app_inv. cbn in He.
    destruct (order_step ph1 e) as [ph2|] eqn:Hstep; [|done].
    injection He as ->. destruct (IH ph1 H1) as [Hfin Hact]. split.
    + intros t. rewrite (order_step_finished _ _ _ t Hstep), Hfin, elem_of_app,
        list_elem_of_singleton. intuition congruence.
    + intros t Ht. rewrite !elem_of_app, !list_elem_of_singleton.
      destruct (order_step_active _ _ _ t Hstep Ht) as [[Ha Hne]|[-> Hnew]].
      * destruct (Hact t Ha). intuition congruence.
      * rewrite Hfin in Hnew. intuition congruence.
Qed.

Lemma order_at tr pre e post :
  is_Some (check order_step (mkPhase [] None) tr) -> tr = pre ++ e :: post ->
  match e with
  | EPut tg _ _ => EEnter (populates tg) ∈ pre /\ EReturn (populates tg) ∉ pre
  | EGet tg _ _ => EReturn (populates tg) ∈ pre
  | EEnter t => forall t', t' ∈ requires t -> EReturn t' ∈ pre
  | _ => True
  end.
Proof.
  intros [ph Hc] ->. apply check_app_inv in Hc as (ph1 & H1 & He).
  destruct (order_invariant pre ph1 H1) as [Hfin Hact].
  cbn in He.
  destruct e as [c|er|idm|tg id r|tg id v|m|tb ar df|t0|t0]; try done;
    cbn in He.
  - case_bool_decide; [|done]. by apply Hfin.
  - case_bool_decide; [|done]. by apply Hact.
  - destruct (_ && forallb _ _) eqn:Hc in He; [|done].
    apply andb_prop in Hc as [_ Hreq]. intros t' Ht'.
    apply Hfin. apply list_elem_of_In in Ht'.
    pose proof (proj1 (forallb_forall _ _) Hreq t' Ht') as Hb.
    by apply bool_decide_eq_true_1 in Hb.
Qed.

Lemma fresh_at tr pre t id v post :
  is_Some (check fresh_step None tr) -> NoDup (minted tr) ->
  tr = pre ++ EPut t id v :: post ->
  v ∈ minted pre /\ v ∉ put_values pre.
Proof.
  intros [st Hc] Hnd ->. apply check_app_inv in Hc as (pending & H1 & He).
  cbn in He. case_decide as Hp; [|done]. subst pending.
  apply fresh_sublist in H1. cbn in H1.
  rewrite minted_app in Hnd. apply NoDup_app in Hnd as [Hnd _].
  split.
  - eapply elem_of_sublist; [|exact H1]. rewrite elem_of_app.
    right. by apply list_elem_of_singleton.
  - pose proof (sublist_NoDup _ _ Hnd H1) as Hnd'.
    apply NoDup_app in Hnd' as (_ & Hdisj & _). intros Hin.
    apply (Hdisj _ Hin). by apply list_elem_of_singleton.
Qed.

Lemma registry_at tr m pre t id r post :
  check registry_step ∅ tr = Some m -> tr = pre ++ EGet t id r :: post ->
  r = replay pre !! reg_key t id.
Proof.
  intros Hc ->. apply check_app_inv in Hc as (m1 & H1 & He).
  apply check_registry_replay in H1. cbn in He.
  case_decide as Hr; [|done]. by rewrite <- Hr, H1.
Qed.

Lemma run_minted_NoDup w p :
  Inj (=) (=) (uuid4 w) -> NoDup (minted (trace (run w p).2)).
Proof.
  intros Hinj. rewrite run_minted. apply NoDup_fmap_2; [done | apply NoDup_seq].
Qed.

(** ** Exceptions and their handlers *)

Global Instance same_preorder {X} (f : state -> X) : PreOrder (same f).
Proof. split; [done | intros s1 s2 s3 H1 H2; unfold same in *; congruence]. Qed.

Lemma disciplined_ret {A} (a : A) : disciplined (ret a).
Proof. intros s. exists []. split; [done|]. cbn. by rewrite app_nil_r. Qed.

Lemma disciplined_gets {A} (f : state -> A) : disciplined (gets f).
Proof. intros s. exists []. split; [done|]. cbn. by rewrite app_nil_r. Qed.

Lemma disciplined_bind {A B} (m : M A) (f : A -> M B) :
  disciplined m -> (forall a, disciplined (f a)) -> disciplined (bind m f).
Proof.
  intros Hm Hf s. unfold bind. destruct (Hm s) as (l1 & C1 & E1).
  destruct (m s) as [[a|[e|c]] s1]; cbn in *; [|by exists l1|done].
  destruct (Hf a s1) as (l2 & C2 & E2). exists (l1 ++ l2).
  split; [by apply Forall_app|].
  destruct (f a s1) as [[b|[e|c]] s2]; cbn in *; [| |done];
    by rewrite E2, E1, <- ?app_assoc.
Qed.

Lemma disciplined_try_pass (m : M unit) :
  (forall s e, (m s).1 = Raise (Error e) -> calm (ERaise e)) ->
  disciplined m -> disciplined (try_pass m).
Proof.
  intros Hcalm Hm s. unfold try_pass. destruct (Hm s) as (l & C & E).
  specialize (Hcalm s).
  destruct (m s) as [[a|[e|c]] s1]; cbn in *; [by exists l| |done].
  exists (l ++ [ERaise e]). split; [|done].
  apply Forall_app. split; [done|]. constructor; [by apply Hcalm | done].
Qed.

Lemma disciplined_for_each {A B} (l : list A) (body : A -> B -> M B) acc :
  (forall x b, disciplined (body x b)) -> disciplined (for_each l body acc).
Proof.
  intros Hb. revert acc. induction l as [|x l IH]; intros acc; cbn.
  - apply disciplined_ret.
  - apply disciplined_bind; [apply Hb | intros b; apply IH].
Qed.

Lemma disciplined_throw {A} e : calm (ERaise e) \/ True -> disciplined (throw e : M A).
Proof. intros _ s. exists []. split; [done|]. done. Qed.

Lemma disciplined_need {A} attr (m : M A) :
  disciplined m -> disciplined (need attr m).
Proof.
  intros Hm s. unfold need. destruct (attr s); [apply Hm|].
  by apply (disciplined_throw AttributeError); right.
Qed.

Lemma disciplined_when_set attr (m : M unit) :
  disciplined m -> disciplined (when_set attr m).
Proof.
  intros Hm s. unfold when_set. destruct (attr s); [apply Hm|].
  apply disciplined_ret.
Qed.

Lemma disciplined_driver w c : disciplined (driver w c).
Proof.
  intros s. exists [ECall c]. split; [by repeat constructor|].
  unfold driver, throw. destruct (raises w (tick s) c); cbn; [|done].
  by rewrite <- app_assoc.
Qed.

Lemma disciplined_modify f :
  (forall s, trace (f s) = trace s) -> disciplined (modify f).
Proof. intros Hf s. exists []. split; [done|]. cbn. by rewrite Hf, app_nil_r. Qed.

Lemma disciplined_getitem (r : row) col : disciplined (getitem r col).
Proof.
  unfold getitem. destruct (r !! col); [apply disciplined_ret|].
  apply disciplined_throw. by right.
Qed.

Lemma disciplined_of_result {A} (r : err + A) : disciplined (of_result r).
Proof.
  destruct r; [|apply disciplined_ret]. apply disciplined_throw. by right.
Qed.

Ltac disciplined_leaf :=
  run_prim; rewrite <- ?app_assoc;
  first [ exists []; split; [constructor | by rewrite ?app_nil_r]
        | eexists; split; [|reflexivity]; by repeat constructor ].

Lemma toggle_disciplined w q :
  match q with DisableTrigger _ | EnableTrigger _ => True | _ => False end ->
  disciplined (try_pass (pg_execute w q)).
Proof.
  intros Hq. apply disciplined_try_pass.
  - intros s e. unfold pg_execute, bind, driver, modify, throw. cbn.
    destruct (raises w (tick s) (PgExecute q)); cbn; [|done].
    intros [= <-]. by destruct q.
  - unfold pg_execute. apply disciplined_bind; [apply disciplined_driver|].
    intros _. by apply disciplined_modify.
Qed.

Ltac split_disciplined :=
  repeat first
    [ apply disciplined_ret
    | apply disciplined_gets
    | apply toggle_disciplined; exact I
    | apply disciplined_driver
    | apply disciplined_getitem
    | apply disciplined_of_result
    | apply disciplined_bind; [|intros ?]
    | apply disciplined_for_each; intros ? ?
    | apply disciplined_need
    | apply disciplined_when_set
    | match goal with
      | |- disciplined (match ?x with _ => _ end) => destruct x
      end
    | progress open_defs
    | progress cbv zeta
    | disciplined_leaf ].

Lemma guarded_transfer w t (m : M unit) s :
  disciplined m -> respects (same pg_conn) m ->
  pg_conn s = true -> (forall n, raises w n PgRollback = false) ->
  let r := (print (MsgStart t) ;;
            try_except m (fun e => print (MsgError t e) ;; pg_rollback w)) s in
  r.1 = Ret tt /\
  exists evs, trace r.2 = trace s ++ evs /\ recovered t evs r.2.
Proof.
  intros Hm Hc Hpg Hrb. unfold bind, print, log, try_except. cbn.
  match goal with |- context [m ?s0] =>
    destruct (Hm s0) as (l & C & E); pose proof (Hc s0) as Hpg0
  end.
  unfold same in Hpg0. cbn in Hpg0. rewrite Hpg in Hpg0.
  destruct (m _) as [[[]|[e|c]] s1]; cbn in *; [| |done].
  - split; [done|]. exists (EPrint (MsgStart t) :: l).
    split; [by rewrite E, <- app_assoc|]. left. by constructor.
  - unfold pg_rollback, need, bind, driver, modify. cbn.
    rewrite Hpg0, Hrb. cbn. split; [done|].
    exists (EPrint (MsgStart t) :: l ++ [ERaise e; EPrint (MsgError t e); ECall PgRollback]).
    split; [by rewrite E, <- !app_assoc|]. right. by exists l, e.
Qed.

Ltac same_leaf := run_prim; unfold same; cbn; done.

(** What the orchestrator relies on, for each transfer. *)
Lemma transfers_behave w t m :
  (t, m) ∈ transfers w ->
  respects (logs (Forall (allowed t))) m /\
  respects (same pg_conn) m /\
  respects (same mysql_conn) m /\
  forall s, pg_conn s = true -> (forall n, raises w n PgRollback = false) ->
            (m s).1 = Ret tt /\
            exists evs, trace (m s).2 = trace s ++ evs /\ recovered t evs (m s).2.
Proof.
  unfold transfers. rewrite !elem_of_cons, elem_of_nil.
  intros [[= -> ->]|[[= -> ->]|[[= -> ->]|[[= -> ->]|[[= -> ->]|[]]]]]].
  - split; [apply migrate_employees_allowed|].
    split; [split_steps same_leaf|]. split; [split_steps same_leaf|].
    intros s Hpg Hrb. unfold migrate_employees.
    apply guarded_transfer; [split_disciplined | split_steps same_leaf | done..].
  - split; [apply migrate_customers_allowed|].
    split; [split_steps same_leaf|]. split; [split_steps same_leaf|].
    intros s Hpg Hrb. unfold migrate_customers.
    apply guarded_transfer; [split_disciplined | split_steps same_leaf | done..].
  - split; [apply migrate_products_allowed|].
    split; [split_steps same_leaf|]. split; [split_steps same_leaf|].
    intros s Hpg Hrb. unfold migrate_products.
    apply guarded_transfer; [split_disciplined | split_steps same_leaf | done..].
  - split; [apply migrate_invoices_allowed|].
    split; [split_steps same_leaf|]. split; [split_steps same_leaf|].
    intros s Hpg Hrb. unfold migrate_invoices.
    apply guarded_transfer; [split_disciplined | split_steps same_leaf | done..].
  - split; [apply migrate_invoice_items_allowed|].
    split; [split_steps same_leaf|]. split; [split_steps same_leaf|].
    intros s Hpg Hrb. unfold migrate_invoice_items.
    apply guarded_transfer; [split_disciplined | split_steps same_leaf | done..].
Qed.

(** ** The orchestrator *)

Lemma connect_ok w p :
  connected w = true -> connect w (init p) = (Ret tt, connected_state p).
Proof.
  unfold connected. intros [H1 H2]%andb_prop.
  apply negb_true_iff in H1, H2.
  unfold connect, try_except, bind, driver, modify, print, log. cbn.
  rewrite H1. cbn. by rewrite H2.
Qed.

Lemma connect_fails w p :
  connected w = false -> (connect w (init p)).1 = Raise (SystemExit 1).
Proof.
  unfold connected. intros Hc.
  unfold connect, try_except, bind, driver, modify, print, log, sys_exit, throw.
  cbn. destruct (raises w 0 MysqlConnect); cbn; [done|].
  destruct (raises w 1 PgConnect); cbn; done.
Qed.

Lemma transfer_step w t m s :
  (t, m) ∈ transfers w -> pg_conn s = true ->
  (forall n, raises w n PgRollback = false) ->
  exists s' evs,
    transfer t m s = (Ret tt, s') /\
    trace s' = trace s ++ bracket t evs /\
    Forall (allowed t) evs /\
    pg_conn s' = true /\ mysql_conn s' = mysql_conn s.
Proof.
  intros Hin Hpg Hrb.
  destruct (transfers_behave w t m Hin) as (Hal & Hsp & Hsm & Hret).
  unfold transfer, bind, log. cbn.
  match goal with |- context [m ?s1] =>
    destruct (Hret s1 Hpg Hrb) as [Hr _];
    destruct (Hal s1) as (evs & E & A);
    pose proof (Hsp s1) as Hp1; pose proof (Hsm s1) as Hm1
  end.
  unfold same in *. destruct (m _) as [r s2]. cbn in *. subst r.
  eexists _, evs. split; [reflexivity|]. cbn.
  split; [by rewrite E, <- !app_assoc|]. split; [done|].
  split; congruence.
Qed.

Ltac in_transfers :=
  unfold transfers; repeat first [apply list_elem_of_here | apply list_elem_of_further].

Lemma main_transfers w p :
  connected w = true -> (forall n, raises w n PgRollback = false) ->
  exists s e1 e2 e3 e4 e5,
    run w p = (close w ;; print MsgFinished) s /\
    trace s = [ECall MysqlConnect; ECall PgConnect; EPrint MsgConnected;
               EPrint MsgBanner]
              ++ bracket employees e1 ++ bracket customers e2
              ++ bracket products e3 ++ bracket invoices e4
              ++ bracket invoice_items e5 /\
    Forall (allowed employees) e1 /\ Forall (allowed customers) e2 /\
    Forall (allowed products) e3 /\ Forall (allowed invoices) e4 /\
    Forall (allowed invoice_items) e5 /\
    mysql_conn s = true /\ pg_conn s = true.
Proof.
  intros Hc Hrb. unfold run, main.
  rewrite (bind_ret_run _ _ _ _ _ (connect_ok w p Hc)).
  unfold print at 1. unfold log at 1. unfold bind at 1.
  set (s0 := set_trace _ (connected_state p)).
  destruct (transfer_step w employees (migrate_employees w) s0)
    as (s1 & e1 & R1 & T1 & A1 & P1 & M1); [in_transfers|done|done|].
  rewrite (bind_ret_run _ _ _ _ _ R1).
  destruct (transfer_step w customers (migrate_customers w) s1)
    as (s2 & e2 & R2 & T2 & A2 & P2 & M2); [in_transfers|done|done|].
  rewrite (bind_ret_run _ _ _ _ _ R2).
  destruct (transfer_step w products (migrate_products w) s2)
    as (s3 & e3 & R3 & T3 & A3 & P3 & M3); [in_transfers|done|done|].
  rewrite (bind_ret_run _ _ _ _ _ R3).
  destruct (transfer_step w invoices (migrate_invoices w) s3)
    as (s4 & e4 & R4 & T4 & A4 & P4 & M4); [in_transfers|done|done|].
  rewrite (bind_ret_run _ _ _ _ _ R4).
  destruct (transfer_step w invoice_items (migrate_invoice_items w) s4)
    as (s5 & e5 & R5 & T5 & A5 & P5 & M5); [in_transfers|done|done|].
  rewrite (bind_ret_run _ _ _ _ _ R5).
  exists s5, e1, e2, e3, e4, e5. split; [done|].
  split.
  { rewrite T5, T4, T3, T2, T1. subst s0. cbn [trace set_trace connected_state].
    by rewrite <- !app_assoc. }
  repeat (split; [done|]). split; [|done].
  rewrite M5, M4, M3, M2, M1. done.
Qed.

Lemma closing w s :
  mysql_conn s = true -> pg_conn s = true ->
  let r := (close w ;; print MsgFinished) s in
  if raises w (tick s) MysqlClose then
    r.1 = Raise (Error (DriverError MysqlClose)) /\
    trace r.2 = trace s ++ [ECall MysqlClose; ERaise (DriverError MysqlClose)]
  else if raises w (S (tick s)) PgClose then
    r.1 = Raise (Error (DriverError PgClose)) /\
    trace r.2 = trace s ++ [ECall MysqlClose; ECall PgClose;
                            ERaise (DriverError PgClose)]
  else
    r.1 = Ret tt /\
    trace r.2 = trace s ++ [ECall MysqlClose; ECall PgClose; EPrint MsgClosed;
                            EPrint MsgFinished].
Proof.
  intros Hm Hp. unfold close, when_set, bind, driver, print, log, throw, ret.
  cbn. rewrite Hm. cbn.
  destruct (raises w (tick s) MysqlClose); cbn.
  { by rewrite <- !app_assoc. }
  rewrite Hp. destruct (raises w (S (tick s)) PgClose); cbn;
    by rewrite <- !app_assoc.
Qed.

Lemma allowed_no_marker t evs :
  Forall (allowed t) evs -> List.filter is_marker evs = [].
Proof.
  induction 1 as [|e evs He _ IH]; [done|]. cbn. rewrite IH.
  by destruct e.
Qed.

(** ** What the bulk inserts carry *)

Lemma select_all_returned w t rows :
  returned (mysql_select_all w t) rows -> rows = mysql_rows w t.
Proof.
  intros (s & s' & Hr). unfold mysql_select_all in Hr.
  apply bind_inv_ret in Hr as (? & ? & _ & Hr).
  apply bind_inv_ret in Hr as (? & ? & _ & Hr).
  by injection Hr as <- _.
Qed.

Ltac bulk_leaf :=
  logs_leaf ltac:(
    repeat constructor; cbn; try done;
    repeat match goal with
    | Hs : returned (mysql_select_all _ _) _ |- _ =>
        apply select_all_returned in Hs; subst
    end;
    assumption).

Lemma main_bulk w : respects (logs (Forall (bulk_from_loop w))) (main w).
Proof. split_steps bulk_leaf. Qed.

(** ** The rows of a batch *)

Lemma for_each_batch (P : row -> tuple -> Prop) body :
  (forall r data s data' s',
      body r data s = (Ret data', s') ->
      data' = data \/ exists t, data' = data ++ [t] /\ P r t) ->
  forall rows data s data' s',
    for_each rows body data s = (Ret data', s') ->
    exists new, data' = data ++ new /\
                Forall (fun t => exists r, r ∈ rows /\ P r t) new.
Proof.
  intros Hbody rows. induction rows as [|r rows IH]; intros data s data' s'; cbn.
  - intros [= <- <-]. exists []. by rewrite app_nil_r.
  - intros (d1 & s1 & Hr & Hrest)%bind_inv_ret.
    apply IH in Hrest as (new & -> & Hnew).
    assert (Forall (fun t => exists r0, r0 ∈ r :: rows /\ P r0 t) new) as Hnew'.
    { eapply Forall_impl; [exact Hnew|]. intros t (r0 & Hin & Hp).
      exists r0. split; [by apply list_elem_of_further | done]. }
    apply Hbody in Hr as [->|(t & -> & Hp)].
    + by exists new.
    + exists (t :: new). split; [by rewrite <- app_assoc|].
      constructor; [|done]. exists r. split; [apply list_elem_of_here | done].
Qed.

Lemma invoice_row_emits w txn data s data' s' :
  invoice_row w txn data s = (Ret data', s') ->
  data' = data \/
  exists t, data' = data ++ [t] /\ (invoice_status txn t /\ invoice_totals txn t).
Proof.
  unfold invoice_row. intros Hr.
  apply bind_inv_ret in Hr as (inv_id & s1 & _ & Hr).
  apply bind_inv_ret in Hr as (member_id & s2 & _ & Hr).
  apply bind_inv_ret in Hr as ([cust|] & s3 & _ & Hr);
    [destruct (str_truthy cust)|]; [|injection Hr as <- _; by left..].
  apply bind_inv_ret in Hr as (number & s4 & _ & Hr).
  apply bind_inv_ret in Hr as (date & s5 & _ & Hr).
  apply bind_inv_ret in Hr as (status & s6 & [Hstatus _]%getitem_inv & Hr).
  cbv zeta in Hr.
  apply bind_inv_ret in Hr as (items & s7 & Hitems & Hr).
  apply bind_inv_ret in Hr as (grand & s8 & Hgrand & Hr).
  apply cond_conv_inv in Hitems as (total & Htotal & _ & Hi).
  apply cond_conv_inv in Hgrand as (total' & Htotal' & _ & Hg).
  assert (total' = total) as -> by congruence.
  apply bind_inv_ret in Hr as (paid & s9 & _ & Hr).
  apply bind_inv_ret in Hr as (notes & s10 & _ & Hr).
  apply bind_inv_ret in Hr as (created & s11 & _ & Hr).
  apply bind_inv_ret in Hr as (updated & s12 & _ & Hr).
  apply bind_inv_ret in Hr as (address & s13 & _ & Hr).
  apply bind_inv_ret in Hr as (id & s14 & _ & Hr).
  apply bind_inv_ret in Hr as ([] & s15 & _ & Hr).
  injection Hr as <- _. right. eexists. split; [reflexivity|]. split.
  - exists status. split; [done|]. split; [done|]. cbn.
    by destruct (py_eq_str status "paid").
  - exists total. split; [done|]. destruct (truthy total).
    + exists items. split; [done|]. split; [done|]. cbn. congruence.
    + by subst.
Qed.

Lemma invoice_item_row_emits w detail data s data' s' :
  invoice_item_row w detail data s = (Ret data', s') ->
  data' = data \/ exists t, data' = data ++ [t] /\ item_amounts detail t.
Proof.
  unfold invoice_item_row. intros Hr.
  apply bind_inv_ret in Hr as (txn_id & s1 & _ & Hr).
  apply bind_inv_ret in Hr as (inv_id & s2 & _ & Hr).
  apply bind_inv_ret in Hr as (product_id & s3 & _ & Hr).
  apply bind_inv_ret in Hr as (prod_id & s4 & _ & Hr).
  destruct (missing inv_id || missing prod_id); [injection Hr as <- _; by left|].
  apply bind_inv_ret in Hr as (id & s5 & _ & Hr).
  apply bind_inv_ret in Hr as (name & s6 & _ & Hr).
  apply bind_inv_ret in Hr as (quantity & s7 & Hq & Hr).
  apply bind_inv_ret in Hr as (unit_price & s8 & Hu & Hr).
  apply bind_inv_ret in Hr as (total_price & s9 & Ht & Hr).
  apply cond_conv_inv in Hq as (qty & Hqty & _ & Hq).
  apply cond_conv_inv in Hu as (harga & Hharga & _ & Hu).
  apply cond_conv_inv in Ht as (subtotal & Hsub & _ & Ht).
  apply bind_inv_ret in Hr as (created & s10 & _ & Hr).
  apply bind_inv_ret in Hr as (updated & s11 & _ & Hr).
  injection Hr as <- _. right. eexists. split; [reflexivity|].
  exists qty, harga, subtotal. do 3 (split; [done|]).
  split; [|split].
  - destruct (truthy qty); [by exists quantity | by subst].
  - destruct (truthy harga); [by exists unit_price | by subst].
  - destruct (truthy subtotal); [by exists total_price | by subst].
Qed.

Lemma run_bulk w p pre t data n post :
  trace (run w p).2 = pre ++ ECall (PgExecuteValues t data n) :: post ->
  n = 100 /\ batch_of w t data.
Proof.
  intros Htr. unfold run in Htr.
  destruct (main_bulk w (init p)) as (evs & E & Hall).
  rewrite E in Htr. cbn in Htr. subst evs.
  apply Forall_app in Hall as [_ Hall]. by inversion Hall.
Qed.

(** ** The loop of a transfer without dependencies *)

Lemma has_columns_lookup cols (r : row) c :
  has_columns cols r = true -> c ∈ cols -> exists v, r !! c = Some v.
Proof.
  unfold has_columns. intros Hall Hin.
  apply list_elem_of_In in Hin.
  pose proof (proj1 (forallb_forall _ _) Hall c Hin) as Hb.
  by apply bool_decide_eq_true_1 in Hb.
Qed.

Ltac column r c :=
  let v := fresh "v" in
  let Hv := fresh "Hv" in
  match goal with
  | Hc : has_columns _ r = true |- _ =>
      destruct (has_columns_lookup _ r c Hc) as [v Hv];
      [repeat first [apply list_elem_of_here | apply list_elem_of_further]|]
  end.

Lemma simple_row_runs w t r data s :
  independent t = true -> has_columns (columns_read t) r = true ->
  exists tu id s',
    row_body w t r data s = (Ret (data ++ [tu]), s') /\
    r !! id_column t = Some id /\
    tu !! 0 = Some (PStr (uuid4 w (uuid_calls s))) /\
    row_step w (tag_of t) id s s'.
Proof.
  intros Ht Hc. destruct t; try done; cbn [columns_read] in Hc;
    cbn [row_body id_column tag_of].
  - column r "nama_karyawan". column r "email". column r "nomor_telepon".
    column r "id_karyawan".
    unfold employee_row, bind, uuid4_str, getitem, now, records_put, ret.
    cbn. rewrite Hv, Hv0, Hv1, Hv2. cbn.
    eexists _, _, _. split; [reflexivity|]. by repeat split.
  - column r "nama_member". column r "nomor_telepon". column r "alamat".
    column r "id_member".
    unfold customer_row, bind, uuid4_str, getitem, now, records_put, ret.
    cbn. rewrite Hv, Hv0, Hv1, Hv2. cbn.
    eexists _, _, _. split; [reflexivity|]. by repeat split.
  - column r "seri". column r "id_product". column r "nama".
    column r "deskripsi". column r "satuan". column r "hpp".
    column r "harga". column r "stok".
    unfold product_row, get_or, bind, uuid4_str, getitem, now, records_put, ret.
    cbn. rewrite Hv. cbn.
    destruct (truthy v); cbn; rewrite ?Hv0, Hv1, Hv2, Hv3, Hv4, Hv5, Hv6; cbn;
      rewrite ?Hv0; cbn;
      (eexists _, _, _; split; [reflexivity|]; by repeat split).
Qed.

Lemma simple_loop w t rows (ids : list Z) data s :
  independent t = true ->
  forallb (has_columns (columns_read t)) rows = true ->
  (fun r => r !! id_column t) <$> rows = (fun z => Some (PInt z)) <$> ids ->
  exists new s',
    for_each rows (row_body w t) data s = (Ret (data ++ new), s') /\
    length new = length rows /\
    (forall i, i < length rows ->
       exists tu, new !! i = Some tu /\
                  tu !! 0 = Some (PStr (uuid4 w (uuid_calls s + i)))) /\
    uuid_calls s' = uuid_calls s + length rows /\
    (forall k, (forall z, z ∈ ids -> k <> reg_key (tag_of t) (PInt z)) ->
               migrated_records s' !! k = migrated_records s !! k) /\
    (NoDup ids ->
     forall i z, ids !! i = Some z ->
       migrated_records s' !! reg_key (tag_of t) (PInt z)
         = Some (uuid4 w (uuid_calls s + i))) /\
    loop_frame s s'.
Proof.
  intros Ht. revert ids data s.
  induction rows as [|r rows IH]; intros ids data s Hcols Hids.
  - destruct ids; [|done]. exists [], s. cbn. rewrite app_nil_r.
    split; [done|]. split; [done|]. split; [intros i Hi; lia|].
    split; [lia|]. split; [done|]. split; [by intros _ i z|]. by repeat split.
  - destruct ids as [|z ids]; [done|]. cbn in Hcols, Hids.
    apply andb_prop in Hcols as [Hc Hcols]. injection Hids as Hid Hids.
    destruct (simple_row_runs w t r data s Ht Hc)
      as (tu & id & s1 & Hrow & Hid' & Htu & Hu1 & Hreg1 & Hf1).
    rewrite Hid in Hid'. injection Hid' as <-.
    destruct (IH ids (data ++ [tu]) s1 Hcols Hids)
      as (new & s' & Hloop & Hlen & Hnew & Hu & Hother & Hmine & Hf).
    exists (tu :: new), s'. cbn [for_each].
    rewrite (bind_ret_run _ _ _ _ _ Hrow), Hloop, <- app_assoc. cbn.
    split; [done|]. split; [by rewrite Hlen|]. split; [|split; [lia|split; [|split]]].
    + intros [|i] Hi; cbn.
      * exists tu. by rewrite Nat.add_0_r.
      * destruct (Hnew i ltac:(lia)) as (tu' & ? & Hid').
        exists tu'. split; [done|]. rewrite Hid'. do 3 f_equal. lia.
    + intros k Hk. rewrite Hother, Hreg1.
      * apply lookup_insert_ne. intros Heq. apply (Hk z); [|done].
        apply list_elem_of_here.
      * intros z' Hz'. apply Hk. by apply list_elem_of_further.
    + intros [Hz Hnd]%NoDup_cons [|i] z' Hi; cbn in Hi.
      * injection Hi as <-. rewrite Hother, Hreg1, Nat.add_0_r.
        { apply lookup_insert_eq. }
        intros z' Hz' Heq. apply reg_key_inj in Heq as [_ ->]. done.
      * rewrite (Hmine Hnd i z' Hi). do 2 f_equal. lia.
    + destruct Hf1 as (? & ? & ? & ? & ?), Hf as (? & ? & ? & ? & ?).
      repeat split; congruence.
Qed.

(** ** A transfer after a successful read *)

Lemma fetch_runs w t body s :
  mysql_conn s = true -> pg_conn s = true -> fetch_succeeds w t ->
  exists s1,
    table_transfer w t (source_of t) body s
      = try_except (let* data := for_each (mysql_rows w (source_of t)) body [] in
                    finish w t data) (handler w t) s1 /\
    uuid_calls s1 = uuid_calls s /\
    migrated_records s1 = migrated_records s /\
    mysql_conn s1 = true /\ pg_conn s1 = true /\
    pg_session s1 = pg_session s /\ pg_committed s1 = pg_committed s /\
    trace s1 = trace s ++ [EPrint (MsgStart t); ECall MysqlCursor;
                           ECall (MysqlExecute (SelectAll (source_of t)));
                           ECall MysqlFetchall; ECall PgCursor].
Proof.
  intros Hm Hp Hf.
  unfold table_transfer, print, log, mysql_cursor, mysql_select_all, pg_cursor,
    need, driver, try_except, bind, ret. cbn.
  rewrite Hm. cbn. rewrite (proj1 (Hf _)). cbn.
  rewrite (proj1 (proj2 (Hf _))). cbn.
  rewrite (proj1 (proj2 (proj2 (Hf _)))). cbn.
  rewrite Hp. cbn. rewrite (proj2 (proj2 (proj2 (Hf _)))). cbn.
  eexists. split; [reflexivity|]. cbn. rewrite <- !app_assoc.
  by repeat split.
Qed.

Lemma try_except_bind_ret {A B} (m : M A) (f : A -> M B) h s a s1 :
  m s = (Ret a, s1) -> try_except (bind m f) h s = try_except (f a) h s1.
Proof. intros Hm. unfold try_except, bind. by rewrite Hm. Qed.

(** The end of a transfer whose loop built [data]: the bulk insert is
    issued, the registry and the count of identifiers stay as the loop
    left them, and nothing is committed when the insert or the commit
    raises. *)
Lemma finish_runs w t data s :
  pg_conn s = true ->
  let r := try_except (finish w t data) (handler w t) s in
  migrated_records r.2 = migrated_records s /\
  uuid_calls r.2 = uuid_calls s /\
  (exists pre post,
      trace r.2 = trace s ++ pre ++ ECall (PgExecuteValues t data 100) :: post) /\
  (raises w (tick s) (PgExecuteValues t data 100) = true \/
   raises w (S (tick s)) PgCommit = true ->
   pg_committed r.2 = pg_committed s) /\
  (raises w (tick s) (PgExecuteValues t data 100) = false ->
   raises w (S (tick s)) PgCommit = false ->
   pg_committed r.2 = end_transaction (insert_rows t data (pg_session s))).
Proof.
  intros Hp.
  unfold finish, handler, execute_values, pg_commit, pg_rollback, need, print,
    log_bulk, log, driver, modify, try_except, bind, throw, ret.
  destruct data as [|tu data]; cbn;
    (destruct (raises w (tick s) _) eqn:Hi; cbn; rewrite ?Hp; cbn;
     [|destruct (raises w (S (tick s)) PgCommit) eqn:Hc; cbn; rewrite ?Hp; cbn;
       [|destruct (raises w (S (S (tick s))) MysqlCursorClose); cbn;
         rewrite ?Hp; cbn]]);
    repeat match goal with
    | |- context [raises w ?n PgRollback] => destruct (raises w n PgRollback); cbn
    end;
    rewrite <- ?app_assoc; cbn;
    (split; [done|]); (split; [done|]);
    (split; [first [by eexists [], _ | by eexists [_], _]|]);
    (split; [intros [?|?]; congruence || done | try done; intros; congruence]).
Qed.

Lemma independent_is_migrate w t m :
  (t, m) ∈ transfers w -> independent t = true -> m = migrate w t.
Proof.
  unfold transfers. rewrite !elem_of_cons, elem_of_nil.
  intros [[= -> ->]|[[= -> ->]|[[= -> ->]|[[= -> ->]|[[= -> ->]|[]]]]]];
    by intros.
Qed.

(** A transfer without dependencies whose source table can be read and
    has the columns read: the loop runs over every row, and the rest of
    the transfer starts from the state the loop left. *)
Lemma independent_transfer_runs w t m ids s :
  (t, m) ∈ transfers w -> independent t = true ->
  mysql_conn s = true -> pg_conn s = true ->
  fetch_succeeds w t -> well_formed w t ids ->
  exists data s2,
    m s = try_except (finish w t data) (handler w t) s2 /\
    (exists pre, trace s2 = trace s ++ pre) /\
    pg_conn s2 = true /\
    pg_session s2 = pg_session s /\ pg_committed s2 = pg_committed s /\
    length data = length (mysql_rows w (source_of t)) /\
    (forall i, i < length (mysql_rows w (source_of t)) ->
       exists tu, data !! i = Some tu /\
                  tu !! 0 = Some (PStr (uuid4 w (uuid_calls s + i)))) /\
    (NoDup ids ->
     forall i z, ids !! i = Some z ->
       migrated_records s2 !! reg_key (tag_of t) (PInt z)
         = Some (uuid4 w (uuid_calls s + i))).
Proof.
  intros Hin Ht Hm Hp Hf [Hcols Hids].
  rewrite (independent_is_migrate w t m Hin Ht). unfold migrate.
  destruct (fetch_runs w t (row_body w t) s Hm Hp Hf)
    as (s1 & -> & Hu1 & Hr1 & Hm1 & Hp1 & Hs1 & Hc1 & Ht1).
  destruct (simple_loop w t _ ids [] s1 Ht Hcols Hids)
    as (data & s2 & Hloop & Hlen & Hnew & Hu2 & _ & Hmine & Hfr).
  cbn in Hloop. destruct Hfr as (_ & Hp2 & _ & Hs2 & Hc2).
  exists data, s2. split; [by apply try_except_bind_ret|].
  split.
  { destruct (respects_for_each (logs (fun _ => True)) _
                (mysql_rows w (source_of t)) (row_body w t) []) with (s := s1)
      as (evs & E & _).
    - intros r d. destruct t; try done; cbn [row_body];
        split_steps ltac:(logs_leaf ltac:(exact I)).
    - rewrite Hloop in E. cbn in E. eexists. by rewrite E, Ht1, <- app_assoc. }
  split; [congruence|]. split; [congruence|]. split; [congruence|].
  split; [done|]. split.
  - intros i Hi. rewrite <- Hu1. by apply Hnew.
  - intros Hnd i z Hi. rewrite <- Hu1. by apply Hmine.
Qed.

(** ** The triggers of the line items *)

Lemma armed_spec t p name :
  name ∈ armed_triggers t p <->
  exists g, g ∈ pg_triggers p /\ trg_table g = t /\ trg_name g = name /\
            trg_enabled g = true.
Proof.
  unfold armed_triggers. rewrite list_elem_of_fmap. split.
  - intros (g & -> & Hg). apply list_elem_of_In, filter_In in Hg as [Hin Hb].
    apply andb_prop in Hb as [Ht%bool_decide_eq_true_1 He].
    exists g. by rewrite list_elem_of_In.
  - intros (g & Hin & Ht & Hn & He). exists g. split; [done|].
    apply list_elem_of_In, filter_In. split; [by apply list_elem_of_In|].
    by rewrite He, bool_decide_eq_true_2.
Qed.

Lemma trigger_names_spec p name :
  name ∈ trigger_names p <->
  exists g, g ∈ pg_triggers p /\ trg_table g = invoice_items /\ trg_name g = name.
Proof.
  unfold trigger_names. rewrite list_elem_of_fmap. split.
  - intros (g & -> & Hg). apply list_elem_of_In, filter_In in Hg as [Hin Hb].
    apply bool_decide_eq_true_1 in Hb. exists g. by rewrite list_elem_of_In.
  - intros (g & Hin & Ht & Hn). exists g. split; [done|].
    apply list_elem_of_In, filter_In. split; [by apply list_elem_of_In|].
    by rewrite bool_decide_eq_true_2.
Qed.

Lemma listed_spec p name :
  name ∈ listed_triggers p <->
  name ∈ trigger_names p /\ like_RI name = false.
Proof.
  rewrite trigger_names_spec. unfold listed_triggers.
  rewrite list_elem_of_fmap. split.
  - intros (g & -> & Hg). apply list_elem_of_In, filter_In in Hg as [Hin Hb].
    apply andb_prop in Hb as [Ht%bool_decide_eq_true_1 Hl%negb_true_iff].
    split; [|done]. exists g. by rewrite list_elem_of_In.
  - intros [(g & Hin & Ht & <-) Hl]. exists g. split; [done|].
    apply list_elem_of_In, filter_In. split; [by apply list_elem_of_In|].
    by rewrite Hl, bool_decide_eq_true_2.
Qed.

Lemma set_trigger_spec name b p g' :
  g' ∈ pg_triggers (set_trigger name b p) <->
  exists g, g ∈ pg_triggers p /\
            g' = if bool_decide (trg_table g = invoice_items)
                    && bool_decide (trg_name g = name)
                 then mkTrigger (trg_table g) (trg_name g) b else g.
Proof.
  unfold set_trigger. cbn. rewrite list_elem_of_fmap.
  split; intros (g & ? & ?); eauto.
Qed.

Lemma set_trigger_names name b p :
  trigger_names (set_trigger name b p) = trigger_names p.
Proof.
  unfold trigger_names, set_trigger. cbn.
  induction (pg_triggers p) as [|g l IH]; [done|]. cbn.
  destruct (bool_decide (trg_table g = invoice_items)) eqn:Ht; cbn.
  - destruct (bool_decide (trg_name g = name)); cbn; rewrite Ht; cbn; by rewrite IH.
  - by rewrite Ht.
Qed.

Lemma set_trigger_listed name b p :
  listed_triggers (set_trigger name b p) = listed_triggers p.
Proof.
  unfold listed_triggers, set_trigger. cbn.
  induction (pg_triggers p) as [|g l IH]; [done|]. cbn.
  destruct (bool_decide (trg_table g = invoice_items)) eqn:Ht; cbn.
  - destruct (bool_decide (trg_name g = name)); cbn; rewrite Ht; cbn;
      destruct (like_RI (trg_name g)); cbn; by rewrite IH.
  - by rewrite Ht.
Qed.

Lemma set_trigger_armed name b p name' :
  name' ∈ armed_triggers invoice_items (set_trigger name b p) <->
  (name' <> name /\ name' ∈ armed_triggers invoice_items p) \/
  (name' = name /\ b = true /\ name ∈ trigger_names p).
Proof.
  rewrite !armed_spec, trigger_names_spec. split.
  - intros (g' & (g & Hin & ->)%set_trigger_spec & Ht & Hn & He).
    destruct (bool_decide (trg_table g = invoice_items)) eqn:Hgt; cbn in *.
    + destruct (bool_decide (trg_name g = name)) eqn:Hgn; cbn in *.
      * apply bool_decide_eq_true_1 in Hgn. subst. right. eauto 10.
      * apply bool_decide_eq_false_1 in Hgn. left. subst. eauto 10.
    + apply bool_decide_eq_false_1 in Hgt. done.
  - intros [[Hne (g & Hin & Ht & Hn & He)]|(-> & -> & g & Hin & Ht & Hn)].
    + exists g. split; [|done]. apply set_trigger_spec. exists g. split; [done|].
      rewrite (bool_decide_eq_false_2 (trg_name g = name)) by congruence.
      by rewrite andb_false_r.
    + exists (mkTrigger (trg_table g) (trg_name g) true). split; [|done].
      apply set_trigger_spec. exists g. split; [done|].
      by rewrite !bool_decide_eq_true_2.
Qed.

Lemma toggle_step w b name s :
  let q := toggle_sql b name in
  (toggle_trigger w b name tt s =
     (Ret tt, set_trace ((trace s ++ [ECall (PgExecute q)])
                          ++ [ERaise (DriverError (PgExecute q))])
                (set_tick (S (tick s))
                   (set_trace (trace s ++ [ECall (PgExecute q)]) s)))) \/
  (toggle_trigger w b name tt s =
     (Ret tt, set_session (set_trigger name b (pg_session s))
                (set_tick (S (tick s))
                   (set_trace (trace s ++ [ECall (PgExecute q)]) s)))).
Proof.
  unfold toggle_trigger, try_pass, pg_execute, bind, driver, modify, throw.
  cbn. destruct (raises w (tick s) _); cbn; [by left|]. right.
  by destruct b.
Qed.

(** A loop over the triggers never raises; it issues a switch for each
    name; a name whose switch did not raise ends switched; and the other
    triggers keep their state or move the same way. *)
Lemma toggle_loop w b names s :
  exists s' E,
    for_each names (toggle_trigger w b) tt s = (Ret tt, s') /\
    trace s' = trace s ++ E /\
    Forall no_bulk E /\
    (forall name, name ∈ names -> ECall (PgExecute (toggle_sql b name)) ∈ E) /\
    (forall name, name ∈ names ->
       ERaise (DriverError (PgExecute (toggle_sql b name))) ∈ E \/
       if b then name ∈ trigger_names (pg_session s) ->
                 name ∈ armed_triggers invoice_items (pg_session s')
       else name ∉ armed_triggers invoice_items (pg_session s')) /\
    (forall name,
       if b then name ∈ armed_triggers invoice_items (pg_session s) ->
                 name ∈ armed_triggers invoice_items (pg_session s')
       else name ∈ armed_triggers invoice_items (pg_session s') ->
            name ∈ armed_triggers invoice_items (pg_session s)) /\
    toggle_frame s s'.
Proof.
  revert s. induction names as [|x names IH]; intros s.
  - exists s, []. cbn. rewrite app_nil_r. split; [done|]. split; [done|].
    split; [done|]. split; [by intros ? ?%elem_of_nil|].
    split; [by intros ? ?%elem_of_nil|]. split; [by destruct b|done].
  - cbn [for_each].
    destruct (toggle_step w b x s) as [Hstep|Hstep];
      rewrite (bind_ret_run _ _ _ _ _ Hstep);
      match goal with |- context [for_each names _ tt ?s1] =>
        destruct (IH s1) as (s' & E & -> & HE & Hnb & Hcall & Hsw & Hmono & Hfr)
      end;
      cbn [pg_session pg_committed pg_conn trace set_session set_tick set_trace]
        in HE, Hsw, Hmono, Hfr.
    + eexists s', (_ :: _ :: E). split; [done|].
      split; [by rewrite HE, <- !app_assoc|].
      split; [by repeat constructor|].
      split; [|split; [|split; [done|done]]].
      * intros name [->|Hin]%elem_of_cons; [apply list_elem_of_here|].
        do 2 apply list_elem_of_further. by apply Hcall.
      * intros name [->|Hin]%elem_of_cons.
        { left. apply list_elem_of_further, list_elem_of_here. }
        destruct (Hsw name Hin) as [?|?]; [left|by right].
        by do 2 apply list_elem_of_further.
    + eexists s', (_ :: E). split; [done|].
      split; [by rewrite HE, <- !app_assoc|].
      split; [by repeat constructor|].
      destruct Hfr as (Hn & Hl & Hd & Hc & Hp).
      cbn [pg_session pg_committed pg_conn trace set_session set_tick set_trace]
        in Hn, Hl, Hd, Hc, Hp.
      rewrite set_trigger_names in Hn. rewrite set_trigger_listed in Hl.
      split; [|split; [|split; [|done]]].
      * intros name [->|Hin]%elem_of_cons; [apply list_elem_of_here|].
        apply list_elem_of_further. by apply Hcall.
      * intros name Hin. destruct (decide (name = x)) as [->|Hne].
        { right. specialize (Hmono x). destruct b.
          - intros Hx. apply Hmono, set_trigger_armed. by right.
          - intros Hx%Hmono%set_trigger_armed. by destruct Hx as [[? _]|(_ & ? & _)]. }
        apply elem_of_cons in Hin as [?|Hin]; [done|].
        destruct (Hsw name Hin) as [?|Hs]; [left; by apply list_elem_of_further|].
        right. destruct b; [|done]. intros Hx. apply Hs.
        by rewrite set_trigger_names.
      * intros name. specialize (Hmono name). destruct b.
        { intros Hx. apply Hmono, set_trigger_armed.
          destruct (decide (name = x)) as [->|Hne]; [|by left].
          right. split; [done|]. split; [done|].
          apply armed_spec in Hx as (g & ? & ? & ? & ?).
          apply trigger_names_spec. eauto. }
        intros Hx%Hmono%set_trigger_armed.
        by destruct Hx as [[_ ?]|(_ & ? & _)].
Qed.

Ltac in_list := repeat first [apply list_elem_of_here | apply list_elem_of_further].

(** The [try] block of the line items up to the list of the triggers:
    when it returns, constraint checking is deferred in the session and
    the names returned are those the query lists. *)
Lemma items_prelude_runs w s :
  exists evs,
    trace (items_prelude w s).2 = trace s ++ evs /\
    Forall no_bulk evs /\
    pg_committed (items_prelude w s).2 = pg_committed s /\
    match (items_prelude w s).1 with
    | Ret (details, triggers) =>
        details = mysql_rows w tbl_detail_transaksi /\
        triggers = listed_triggers (pg_session s) /\
        pg_deferred (pg_session (items_prelude w s).2) = true /\
        trigger_names (pg_session (items_prelude w s).2)
          = trigger_names (pg_session s) /\
        ECall (PgExecute SetConstraintsAllDeferred) ∈ evs
    | Raise (Error _) => True
    | Raise (SystemExit _) => False
    end.
Proof.
  unfold items_prelude, mysql_cursor, mysql_select_all, pg_cursor, pg_execute,
    pg_fetch_triggers, need, bind, driver, modify, gets, throw, ret.
  cbn. destruct (mysql_conn s); cbn;
    repeat match goal with
    | |- context [raises w ?n ?c] => destruct (raises w n c); cbn
    | |- context [if pg_conn s then _ else _] => destruct (pg_conn s); cbn
    end;
    rewrite <- ?app_assoc; cbn;
    (eexists; split; [reflexivity|]);
    (split; [by repeat constructor|]); (split; [done|]); try done.
  repeat split; try done. in_list.
Qed.






Lemma items_unfold w s :
  migrate_invoice_items w s =
  (print (MsgStart invoice_items) ;;
   try_except (let* dt := items_prelude w in items_load w dt.1 dt.2)
              (handler w invoice_items)) s.
Proof.
  unfold migrate_invoice_items, items_prelude, items_load, items_store, handler.
  unfold try_except, bind, ret.
  destruct (print _ s) as [[[]|e] s0]; [|done].
  destruct (mysql_cursor w s0) as [[[]|e] s1]; [|done].
  destruct (mysql_select_all w _ s1) as [[details|e] s2]; [|done].
  destruct (pg_cursor w s2) as [[[]|e] s3]; [|done].
  destruct (pg_execute w SetConstraintsAllDeferred s3) as [[[]|e] s4]; [|done].
  destruct (pg_execute w SelectTriggers s4) as [[[]|e] s5]; [|done].
  destruct (pg_fetch_triggers w s5) as [[triggers|e] s6]; done.
Qed.





(** C1. For each transfer without dependencies (employees, customers,
    products), run from a connected object on a source table that can be
    read, that has the columns read and whose keys are pairwise distinct
    integers: the bulk insert is issued with exactly one target row per
    source row, in order; the row's identifier is the value [uuid4]
    returned for it, which no other call of [uuid4] returns; after the
    transfer the registry maps the row's source id, under the table's
    tag, to that identifier; and when neither the insert nor the commit
    raises, the target table has grown by exactly these rows. *)
Theorem rows_get_fresh_identifiers w t m ids s :
  (t, m) ∈ transfers w -> independent t = true ->
  Inj (=) (=) (uuid4 w) ->
  mysql_conn s = true -> pg_conn s = true ->
  fetch_succeeds w t -> well_formed w t ids -> NoDup ids ->
  exists data,
    (exists pre post,
        trace (m s).2 = trace s ++ pre ++ ECall (PgExecuteValues t data 100) :: post) /\
    length data = length (mysql_rows w (source_of t)) /\
    (forall i z, ids !! i = Some z ->
       exists tu,
         data !! i = Some tu /\
         tu !! 0 = Some (PStr (uuid4 w (uuid_calls s + i))) /\
         (forall j, uuid4 w j = uuid4 w (uuid_calls s + i) -> j = uuid_calls s + i) /\
         migrated_records (m s).2 !! reg_key (tag_of t) (PInt z)
           = Some (uuid4 w (uuid_calls s + i))) /\
    ((forall n d, raises w n (PgExecuteValues t d 100) = false) ->
     (forall n, raises w n PgCommit = false) ->
     pg_rows (pg_committed (m s).2) t = pg_rows (pg_session s) t ++ data).
Proof.
  intros Hin Ht Hinj Hm Hp Hf Hwf Hnd.
  destruct (independent_transfer_runs w t m ids s Hin Ht Hm Hp Hf Hwf)
    as (data & s2 & -> & [pre0 Hpre] & Hp2 & Hs2 & Hc2 & Hlen & Hrows & Hreg).
  destruct (finish_runs w t data s2 Hp2) as (Hkeep & _ & Hcall & _ & Hok).
  exists data. split; [|split; [done|split]].
  - destruct Hcall as (pre & post & ->). exists (pre0 ++ pre), post.
    by rewrite Hpre, <- !app_assoc.
  - intros i z Hi.
    assert (i < length (mysql_rows w (source_of t))) as Hlt.
    { destruct Hwf as [_ Hids]. apply lookup_lt_Some in Hi.
      apply (f_equal length) in Hids. rewrite !length_fmap in Hids. lia. }
    destruct (Hrows i Hlt) as (tu & Htu & Hid). exists tu.
    split; [done|]. split; [done|]. split; [by intros j ?%Hinj|].
    rewrite Hkeep. by apply Hreg.
  - intros Hi Hc. rewrite (Hok (Hi _ _) (Hc _)). cbn.
    rewrite decide_True by done. by rewrite Hs2.
Qed.

(** C8. For each transfer without dependencies, run as in C1: when the
    bulk insert or the commit raises, nothing is committed to the target
    store, yet after the transfer the registry maps every row's source id
    to the identifier generated for it.  A later transfer can therefore
    commit rows that refer to identifiers the target store never received:
    when the insert of the three customers is refused, the invoices still
    get a row whose customer is the identifier registered for member 2. *)
Theorem registry_survives_rollback w t m ids s :
  (t, m) ∈ transfers w -> independent t = true ->
  mysql_conn s = true -> pg_conn s = true ->
  fetch_succeeds w t -> well_formed w t ids -> NoDup ids ->
  (forall n d, raises w n (PgExecuteValues t d 100) = true) \/
  (forall n, raises w n PgCommit = true) ->
  pg_committed (m s).2 = pg_committed s /\
  (forall i z, ids !! i = Some z ->
     migrated_records (m s).2 !! reg_key (tag_of t) (PInt z)
       = Some (uuid4 w (uuid_calls s + i))) /\
  (let r := run (demo_world customer_insert_fails) demo_store in
   pg_rows (pg_committed r.2) customers = [] /\
   migrated_records r.2 !! "member_2" = Some "uuid-2" /\
   exists tu, pg_rows (pg_committed r.2) invoices = [tu] /\
              tu !! 2 = Some (PStr "uuid-2")).
Proof.
  intros Hin Ht Hm Hp Hf Hwf Hnd Hfail.
  destruct (independent_transfer_runs w t m ids s Hin Ht Hm Hp Hf Hwf)
    as (data & s2 & -> & _ & Hp2 & Hs2 & Hc2 & _ & _ & Hreg).
  destruct (finish_runs w t data s2 Hp2) as (Hkeep & _ & _ & Hnone & _).
  split; [|split].
  - rewrite Hnone; [done|]. destruct Hfail as [Hi|Hc]; auto.
  - intros i z Hi. rewrite Hkeep. by apply Hreg.
  - vm_compute. split; [done|]. split; [done|]. eexists. split; reflexivity.
Qed.

(** C3. In every run the identifiers generated are pairwise distinct, and
    at every event of the log: an identifier stored in the registry was
    generated before and never stored before, inside the transfer that
    fills its tag; a lookup for a tag happens after the transfer that
    fills the tag has returned, and returns what the registry then holds;
    a transfer starts after the transfers it depends on have returned
    (customers before invoices, invoices and products before invoice
    items). *)
Theorem lookups_follow_population w p pre e post :
  Inj (=) (=) (uuid4 w) ->
  trace (run w p).2 = pre ++ e :: post ->
  NoDup (minted (trace (run w p).2)) /\
  match e with
  | EPut tg id v =>
      v ∈ minted pre /\ (v ∉ put_values pre) /\
      EEnter (populates tg) ∈ pre /\ (EReturn (populates tg) ∉ pre)
  | EGet tg id r =>
      EReturn (populates tg) ∈ pre /\ r = replay pre !! reg_key tg id
  | EEnter t => forall t', t' ∈ requires t -> EReturn t' ∈ pre
  | _ => True
  end.
Proof.
  intros Hinj Htr. pose proof (run_minted_NoDup w p Hinj) as Hnd.
  split; [done|].
  pose proof (order_at _ pre e post (run_in_order w p) Htr) as Ho.
  destruct e; try done.
  - split; [done|]. eapply registry_at; [apply run_registry | done].
  - destruct (fresh_at _ pre t id v post (run_fresh w p) Hnd Htr).
    destruct Ho. done.
Qed.

(** C5, as the code has it.  Provided no call of [rollback] raises: in
    each of the five transfers an exception other than a swallowed trigger
    switch is the last event of the [try] block and is followed by the
    diagnostic and the rollback, which puts the session back at the
    committed state, and the transfer returns; and once connected the
    orchestrator calls the five transfers in order, each returning, then
    attempts to close the source connection, attempts to close the target
    connection when that close did not raise, and ends normally or with
    the exception of a close. *)
Theorem transfers_recover w :
  (forall n, raises w n PgRollback = false) ->
  (forall t m s,
      (t, m) ∈ transfers w -> pg_conn s = true ->
      (m s).1 = Ret tt /\
      exists evs, trace (m s).2 = trace s ++ evs /\ recovered t evs (m s).2) /\
  (forall p,
      connected w = true ->
      List.filter is_marker (trace (run w p).2) =
        [EEnter employees; EReturn employees; EEnter customers; EReturn customers;
         EEnter products; EReturn products; EEnter invoices; EReturn invoices;
         EEnter invoice_items; EReturn invoice_items] /\
      (exists pre post,
          trace (run w p).2 = pre ++ ECall MysqlClose :: post /\
          EReturn invoice_items ∈ pre) /\
      (ECall PgClose ∈ trace (run w p).2 \/
       (run w p).1 = Raise (Error (DriverError MysqlClose))) /\
      ((run w p).1 = Ret tt \/
       (run w p).1 = Raise (Error (DriverError MysqlClose)) \/
       (run w p).1 = Raise (Error (DriverError PgClose)))).
Proof.
  intros Hrb. split.
  - intros t m s Hin Hpg.
    destruct (transfers_behave w t m Hin) as (_ & _ & _ & Hret). by apply Hret.
  - intros p Hc.
    destruct (main_transfers w p Hc Hrb)
      as (s & e1 & e2 & e3 & e4 & e5 & -> & T & A1 & A2 & A3 & A4 & A5 & Hm & Hp).
    pose proof (closing w s Hm Hp) as Hcl. cbn zeta in Hcl.
    assert (List.filter is_marker (trace s) =
            [EEnter employees; EReturn employees; EEnter customers;
             EReturn customers; EEnter products; EReturn products;
             EEnter invoices; EReturn invoices; EEnter invoice_items;
             EReturn invoice_items]) as Hmk.
    { rewrite T. unfold bracket. cbn.
      repeat (rewrite List.filter_app; cbn).
      by rewrite (allowed_no_marker _ _ A1), (allowed_no_marker _ _ A2),
         (allowed_no_marker _ _ A3), (allowed_no_marker _ _ A4),
         (allowed_no_marker _ _ A5). }
    assert (EReturn invoice_items ∈ trace s) as Hlast.
    { rewrite T. unfold bracket. rewrite !elem_of_app, !elem_of_cons, !elem_of_app.
      do 5 right. right. right. by apply list_elem_of_singleton. }
    destruct (raises w (tick s) MysqlClose);
      [|destruct (raises w (S (tick s)) PgClose)];
      destruct Hcl as [Hr Ht]; rewrite Hr, Ht, List.filter_app, Hmk; cbn;
      (split; [done|]).
    + split; [by eexists _, _|]. auto.
    + split; [by eexists _, _|]. split; [|auto]. left.
      rewrite elem_of_app. right. by repeat constructor.
    + split; [by eexists _, _|]. split; [|auto]. left.
      rewrite elem_of_app. right. by repeat constructor.
Qed.

(** C6, as the code has it.  The process exits with status 1 when a
    connection cannot be established; it exits with status 0 when both
    are established and no call of [rollback] or [close] raises, however
    many transfers failed. *)
Theorem exit_status_of_run w p :
  (connected w = false -> exit_status (run w p).1 = 1%Z) /\
  (connected w = true ->
   (forall n, raises w n PgRollback = false) ->
   (forall n, raises w n MysqlClose = false) ->
   (forall n, raises w n PgClose = false) ->
   exit_status (run w p).1 = 0%Z).
Proof.
  split.
  - intros Hc. unfold run, main.
    pose proof (connect_fails w p Hc) as Hf. unfold bind at 1.
    destruct (connect w (init p)) as [r s]. cbn in Hf. by subst r.
  - intros Hc Hrb Hm Hp.
    destruct (main_transfers w p Hc Hrb)
      as (s & e1 & e2 & e3 & e4 & e5 & -> & _ & _ & _ & _ & _ & _ & Hms & Hps).
    pose proof (closing w s Hms Hps) as Hcl. cbn zeta in Hcl.
    rewrite Hm, Hp in Hcl. destruct Hcl as [-> _]. done.
Qed.

(** C4. At every point of a run the registry, which is the replay of the
    log up to that point, maps distinct keys to distinct identifiers; for
    integer source ids an identifier therefore determines the tag and the
    source id.  The registry at the end of the run is the replay of the
    whole log. *)
Theorem registry_injective w p pre post :
  Inj (=) (=) (uuid4 w) ->
  trace (run w p).2 = pre ++ post ->
  (forall k1 k2 v,
      replay pre !! k1 = Some v -> replay pre !! k2 = Some v -> k1 = k2) /\
  (forall t1 t2 z1 z2 v,
      replay pre !! reg_key t1 (PInt z1) = Some v ->
      replay pre !! reg_key t2 (PInt z2) = Some v -> t1 = t2 /\ z1 = z2) /\
  migrated_records (run w p).2 = replay (trace (run w p).2).
Proof.
  intros Hinj Htr.
  pose proof (run_prefix_puts w p pre post Hinj Htr) as Hnd.
  split; [|split].
  - intros k1 k2 v. by apply replay_inj.
  - intros t1 t2 z1 z2 v H1 H2. apply reg_key_inj. by eapply replay_inj.
  - by apply check_registry_replay, run_registry.
Qed.

(** C9. In every run, each row of a bulk insert into the invoice line
    items comes from a source row whose [qty] it carries as [int(qty)] when
    that field is truthy and as 1 otherwise, and whose [harga] and
    [subtotal] it carries through [float] when truthy and as 0.0 otherwise;
    each row of a bulk insert into the invoices carries [total_pembelian]
    through [int] when truthy and as 0 otherwise.  NULL, the empty string
    and zero are falsy. *)
Theorem amounts_default w p pre t data n post :
  trace (run w p).2 = pre ++ ECall (PgExecuteValues t data n) :: post ->
  (t = invoice_items ->
   Forall (fun tu => exists detail,
             detail ∈ mysql_rows w tbl_detail_transaksi /\ item_amounts detail tu)
          data) /\
  (t = invoices ->
   Forall (fun tu => exists txn,
             txn ∈ mysql_rows w tbl_transaksi /\ invoice_totals txn tu)
          data) /\
  truthy PNone = false /\ truthy (PStr "") = false /\ truthy (PInt 0) = false.
Proof.
  intros Htr. apply run_bulk in Htr as [_ (s & s' & Hloop)].
  split; [|split; [|done]].
  - intros ->. cbn in Hloop.
    eapply (for_each_batch item_amounts) in Hloop as (new & -> & Hnew);
      [done|]. apply invoice_item_row_emits.
  - intros ->. cbn in Hloop.
    eapply (for_each_batch invoice_totals) in Hloop as (new & -> & Hnew);
      [done|].
    intros r d s0 d' s0' Hrow.
    apply invoice_row_emits in Hrow as [->|(tu & -> & _ & Ht)]; eauto.
Qed.

(** C10. In every run, each row of a bulk insert into the invoices comes
    from a source row: its [status] is 'completed' and its
    [payment_status] is 'paid' when the row's [status_transaksi] equals
    the string 'paid' and 'unpaid' otherwise; only the string 'paid'
    itself equals it. *)
Theorem invoice_payment_status w p pre data n post :
  trace (run w p).2 = pre ++ ECall (PgExecuteValues invoices data n) :: post ->
  Forall (fun t => exists txn,
            txn ∈ mysql_rows w tbl_transaksi /\ invoice_status txn t)
         data /\
  (forall v, py_eq_str v "paid" = true <-> v = PStr "paid").
Proof.
  intros Htr. apply run_bulk in Htr as [_ (s & s' & Hloop)]. split.
  - cbn in Hloop.
    eapply (for_each_batch invoice_status) in Hloop as (new & -> & Hnew);
      [done|].
    intros r d s0 d' s0' Hrow.
    apply invoice_row_emits in Hrow as [->|(tu & -> & Ht & _)]; eauto.
  - intros v. destruct v; cbn; try (split; [done | intros [=]]).
    rewrite bool_decide_eq_true. split; [by intros -> | by intros [= ->]].
Qed.

(** C2, as the code has it.  For a transaction whose member has no entry
    in the registry, the step of the invoice transfer adds no row to the
    rows of the bulk insert and leaves the registry as it is, but it has
    called [uuid4] once for the row, before the lookup, and drops the
    identifier. *)
Theorem unmapped_invoice_mints w txn data s member_id :
  txn !! "id_member" = Some member_id ->
  migrated_records s !! reg_key Member member_id = None ->
  let r := invoice_row w txn data s in
  r.1 = Ret data /\
  migrated_records r.2 = migrated_records s /\
  uuid_calls r.2 = S (uuid_calls s) /\
  trace r.2 =
    trace s ++ [EMint (uuid4 w (uuid_calls s)); EGet Member member_id None].
Proof.
  intros Hcol Hreg. unfold invoice_row, bind, uuid4_str, getitem, records_get.
  rewrite Hcol. cbn. rewrite Hreg. cbn.
  by rewrite <- app_assoc.
Qed.

(** ** The rows of the bulk inserts, column by column *)

Lemma for_each_rows (P : row -> tuple -> Prop) body :
  (forall r data s data' s',
      body r data s = (Ret data', s') -> exists t, data' = data ++ [t] /\ P r t) ->
  forall rows data s data' s',
    for_each rows body data s = (Ret data', s') ->
    exists new, data' = data ++ new /\ Forall2 P rows new.
Proof.
  intros Hbody rows. induction rows as [|r rows IH]; intros data s data' s'; cbn.
  - intros [= <- <-]. exists []. by rewrite app_nil_r.
  - intros (d1 & s1 & Hr & Hrest)%bind_inv_ret.
    apply IH in Hrest as (new & -> & Hnew).
    apply Hbody in Hr as (t & -> & Hp).
    exists (t :: new). split; [by rewrite <- app_assoc|]. by constructor.
Qed.

Lemma for_each_kept (P : row -> tuple -> Prop) body :
  (forall r data s data' s',
      body r data s = (Ret data', s') ->
      data' = data \/ exists t, data' = data ++ [t] /\ P r t) ->
  forall rows data s data' s',
    for_each rows body data s = (Ret data', s') ->
    exists kept new,
      kept `sublist_of` rows /\ data' = data ++ new /\ Forall2 P kept new.
Proof.
  intros Hbody rows. induction rows as [|r rows IH]; intros data s data' s'; cbn.
  - intros [= <- <-]. exists [], []. by rewrite app_nil_r.
  - intros (d1 & s1 & Hr & Hrest)%bind_inv_ret.
    apply IH in Hrest as (kept & new & Hsub & -> & Hnew).
    apply Hbody in Hr as [->|(t & -> & Hp)].
    + exists kept, new. split; [by apply sublist_cons | done].
    + exists (r :: kept), (t :: new).
      split; [by apply sublist_skip|].
      split; [by rewrite <- app_assoc | by constructor].
Qed.

Lemma now_inv s v s' :
  now s = (Ret v, s') -> v = PTime (clock s) /\ s' = set_clock (S (clock s)) s.
Proof. unfold now. by intros [= <- <-]. Qed.

Lemma employee_row_emits w emp data s data' s' :
  employee_row w emp data s = (Ret data', s') ->
  exists t, data' = data ++ [t] /\ employee_fields emp t.
Proof.
  unfold employee_row. intros Hr.
  apply bind_inv_ret in Hr as (id & s1 & _ & Hr).
  apply bind_inv_ret in Hr as (name & s2 & [Hname _]%getitem_inv & Hr).
  apply bind_inv_ret in Hr as (email & s3 & [Hemail _]%getitem_inv & Hr).
  apply bind_inv_ret in Hr as (phone & s4 & [Hphone _]%getitem_inv & Hr).
  apply bind_inv_ret in Hr as (created & s5 & [-> ->]%now_inv & Hr).
  apply bind_inv_ret in Hr as (updated & s6 & [-> _]%now_inv & Hr).
  cbv zeta in Hr.
  apply bind_inv_ret in Hr as (key & s7 & _ & Hr).
  apply bind_inv_ret in Hr as ([] & s8 & _ & Hr).
  injection Hr as <- _. eexists. split; [reflexivity|].
  by exists id, name, email, phone, (clock s4).
Qed.

Lemma customer_row_emits w member data s data' s' :
  customer_row w member data s = (Ret data', s') ->
  exists t, data' = data ++ [t] /\ customer_fields member t.
Proof.
  unfold customer_row. intros Hr.
  apply bind_inv_ret in Hr as (id & s1 & _ & Hr).
  apply bind_inv_ret in Hr as (name & s2 & [Hname _]%getitem_inv & Hr).
  apply bind_inv_ret in Hr as (phone & s3 & [Hphone _]%getitem_inv & Hr).
  apply bind_inv_ret in Hr as (address & s4 & [Haddress _]%getitem_inv & Hr).
  apply bind_inv_ret in Hr as (created & s5 & [-> ->]%now_inv & Hr).
  apply bind_inv_ret in Hr as (updated & s6 & [-> _]%now_inv & Hr).
  cbv zeta in Hr.
  apply bind_inv_ret in Hr as (key & s7 & _ & Hr).
  apply bind_inv_ret in Hr as ([] & s8 & _ & Hr).
  injection Hr as <- _. eexists. split; [reflexivity|].
  by exists id, name, phone, address, (clock s4).
Qed.

Lemma product_row_emits w prod data s data' s' :
  product_row w prod data s = (Ret data', s') ->
  exists t, data' = data ++ [t] /\ product_fields prod t.
Proof.
  unfold product_row. intros Hr.
  apply bind_inv_ret in Hr as (id & s1 & _ & Hr).
  apply bind_inv_ret in Hr as (seri & s2 & [Hseri _]%getitem_inv & Hr).
  apply bind_inv_ret in Hr as (sku & s3 & Hsku & Hr).
  apply bind_inv_ret in Hr as (name & s4 & (nama & Hnama & -> & _)%get_or_inv & Hr).
  apply bind_inv_ret in Hr as (deskripsi & s5 & [Hdesk _]%getitem_inv & Hr).
  apply bind_inv_ret in Hr as (unit & s6 & (satuan & Hsatuan & -> & _)%get_or_inv & Hr).
  apply bind_inv_ret in Hr as (cost & s7 & (hpp & Hhpp & -> & _)%get_or_inv & Hr).
  apply bind_inv_ret in Hr as (sell & s8 & (harga & Hharga & -> & ->)%get_or_inv & Hr).
  apply bind_inv_ret in Hr as (stock & s9 & (stok & Hstok & -> & ->)%get_or_inv & Hr).
  apply bind_inv_ret in Hr as (created & s10 & [-> ->]%now_inv & Hr).
  apply bind_inv_ret in Hr as (updated & s11 & [-> _]%now_inv & Hr).
  cbv zeta in Hr.
  apply bind_inv_ret in Hr as (pid & s12 & [Hpid _]%getitem_inv & Hr).
  apply bind_inv_ret in Hr as ([] & s13 & _ & Hr).
  injection Hr as <- _. eexists. split; [reflexivity|].
  exists id, seri, pid, nama, deskripsi, satuan, hpp, harga, stok, (clock s7).
  do 8 (split; [done|]). do 2 f_equal.
  destruct (truthy seri).
  - by injection Hsku as <- _.
  - apply bind_inv_ret in Hsku as (pid' & s14 & [Hpid' _]%getitem_inv & Hsku).
    injection Hsku as <- _. congruence.
Qed.

Lemma uuid4_str_inv w s id s' :
  uuid4_str w s = (Ret id, s') ->
  id = uuid4 w (uuid_calls s) /\
  s' = set_uuid_calls (S (uuid_calls s)) (set_trace (trace s ++ [EMint id]) s).
Proof. unfold uuid4_str. by intros [= <- <-]. Qed.

Lemma records_get_inv t id s r s' :
  records_get t id s = (Ret r, s') ->
  r = migrated_records s !! reg_key t id /\
  s' = set_trace (trace s ++ [EGet t id r]) s.
Proof. unfold records_get. by intros [= <- <-]. Qed.

Lemma reg_key_tag t1 t2 id1 id2 : reg_key t1 id1 = reg_key t2 id2 -> t1 = t2.
Proof. unfold reg_key. destruct t1, t2; cbn; intros Heq; by simplify_eq. Qed.

(** One round of the loop of the invoices: an identifier is generated;
    the row is skipped and the registry left alone, or the row is built
    with the customer the registry holds for the member and the
    identifier is registered for the transaction. *)
Lemma invoice_row_steps w txn data s data' s' :
  invoice_row w txn data s = (Ret data', s') ->
  uuid_calls s' = S (uuid_calls s) /\
  pg_session s' = pg_session s /\ pg_committed s' = pg_committed s /\
  ((data' = data /\ migrated_records s' = migrated_records s) \/
   exists t member_id cust number,
     data' = data ++ [t] /\
     txn !! "id_member" = Some member_id /\
     migrated_records s !! reg_key Member member_id = Some cust /\
     txn !! "id_transaksi" = Some number /\
     migrated_records s' =
       <[reg_key Txn number := uuid4 w (uuid_calls s)]> (migrated_records s) /\
     t !! 0 = Some (PStr (uuid4 w (uuid_calls s))) /\
     t !! 2 = Some (PStr cust) /\
     invoice_fields txn t).
Proof.
  unfold invoice_row. intros Hr.
  apply bind_inv_ret in Hr as (id & s1 & [-> ->]%uuid4_str_inv & Hr).
  apply bind_inv_ret in Hr as (member_id & s2 & [Hmember ->]%getitem_inv & Hr).
  apply bind_inv_ret in Hr as (got & s3 & [-> ->]%records_get_inv & Hr).
  cbn [migrated_records set_trace set_uuid_calls] in Hr.
  destruct (migrated_records s !! reg_key Member member_id) as [cust|] eqn:Hcust;
    [destruct (str_truthy cust) eqn:Hne|];
    [|injection Hr as <- <-; cbn; by auto 10..].
  apply bind_inv_ret in Hr as (number & s4 & [Hnumber ->]%getitem_inv & Hr).
  apply bind_inv_ret in Hr as (date & s5 & [Hdate ->]%getitem_inv & Hr).
  apply bind_inv_ret in Hr as (status & s6 & [Hstatus ->]%getitem_inv & Hr).
  cbv zeta in Hr.
  apply bind_inv_ret in Hr as (items & s7 & Hitems & Hr).
  apply bind_inv_ret in Hr as (grand & s8 & Hgrand & Hr).
  apply cond_conv_inv in Hitems as (total & Htotal & -> & _).
  apply cond_conv_inv in Hgrand as (total' & Htotal' & -> & _).
  apply bind_inv_ret in Hr as (paid' & s9 & (paid & Hpaid & -> & ->)%get_or_inv & Hr).
  apply bind_inv_ret in Hr as (notes & s10 & [Hnotes ->]%getitem_inv & Hr).
  apply bind_inv_ret in Hr as (created & s11 & [-> ->]%now_inv & Hr).
  apply bind_inv_ret in Hr as (updated & s12 & [-> ->]%now_inv & Hr).
  apply bind_inv_ret in Hr as (address & s13 & [Haddress ->]%getitem_inv & Hr).
  apply bind_inv_ret in Hr as (number' & s14 & [Hnumber' ->]%getitem_inv & Hr).
  assert (number' = number) as -> by congruence.
  apply bind_inv_ret in Hr as ([] & s15 & Hput & Hr).
  injection Hr as <- <-. unfold records_put in Hput. injection Hput as <-.
  cbn. do 3 (split; [done|]). right.
  eexists _, member_id, cust, number. split; [reflexivity|].
  do 4 (split; [done|]). split; [done|]. split; [done|].
  eexists _, number, cust, date, _, items, grand, paid, notes, address, _.
  by do 6 (split; [done|]).
Qed.

Lemma invoice_row_copies w txn data s data' s' :
  invoice_row w txn data s = (Ret data', s') ->
  data' = data \/ exists t, data' = data ++ [t] /\ invoice_fields txn t.
Proof.
  intros (_ & _ & _ & [[-> _]|(t & ? & ? & ? & -> & Ht)])%invoice_row_steps;
    [by left|].
  right. exists t. split; [done|]. by destruct Ht as (_ & _ & _ & _ & _ & _ & ?).
Qed.

(** One round of the loop of the line items: the registry is only read;
    the row is skipped and no identifier generated, or it is built with the
    invoice and the product the registry holds and one identifier is
    generated. *)
Lemma invoice_item_row_steps w detail data s data' s' :
  invoice_item_row w detail data s = (Ret data', s') ->
  migrated_records s' = migrated_records s /\
  pg_session s' = pg_session s /\ pg_committed s' = pg_committed s /\
  ((data' = data /\ uuid_calls s' = uuid_calls s) \/
   exists t txn_id product_id inv prod,
     data' = data ++ [t] /\ uuid_calls s' = S (uuid_calls s) /\
     detail !! "id_transaksi" = Some txn_id /\
     detail !! "id_product" = Some product_id /\
     migrated_records s !! reg_key Txn txn_id = Some inv /\
     migrated_records s !! reg_key Prod product_id = Some prod /\
     t !! 0 = Some (PStr (uuid4 w (uuid_calls s))) /\
     t !! 1 = Some (PStr inv) /\ t !! 2 = Some (PStr prod) /\
     item_fields detail t).
Proof.
  unfold invoice_item_row. intros Hr.
  apply bind_inv_ret in Hr as (txn_id & s1 & [Htxn ->]%getitem_inv & Hr).
  apply bind_inv_ret in Hr as (inv_id & s2 & [-> ->]%records_get_inv & Hr).
  apply bind_inv_ret in Hr as (product_id & s3 & [Hproduct ->]%getitem_inv & Hr).
  apply bind_inv_ret in Hr as (prod_id & s4 & [-> ->]%records_get_inv & Hr).
  cbn [migrated_records set_trace] in Hr.
  destruct (migrated_records s !! reg_key Txn txn_id) as [inv|] eqn:Hinv;
    [|injection Hr as <- <-; cbn; by auto 10].
  destruct (migrated_records s !! reg_key Prod product_id) as [prod|] eqn:Hprod;
    [|cbn in Hr; rewrite orb_true_r in Hr; injection Hr as <- <-; cbn; by auto 10].
  cbn [missing] in Hr.
  destruct (str_truthy inv) eqn:Hi; cbn [negb orb] in Hr;
    [|injection Hr as <- <-; cbn; by auto 10].
  destruct (str_truthy prod) eqn:Hp; cbn [negb orb] in Hr;
    [|injection Hr as <- <-; cbn; by auto 10].
  apply bind_inv_ret in Hr as (id & s5 & [-> ->]%uuid4_str_inv & Hr).
  apply bind_inv_ret in Hr as (name & s6 & [Hname ->]%getitem_inv & Hr).
  apply bind_inv_ret in Hr as (quantity & s7 & Hq & Hr).
  apply bind_inv_ret in Hr as (unit_price & s8 & Hu & Hr).
  apply bind_inv_ret in Hr as (total_price & s9 & Ht & Hr).
  apply cond_conv_inv in Hq as (qty & Hqty & -> & _).
  apply cond_conv_inv in Hu as (harga & Hharga & -> & _).
  apply cond_conv_inv in Ht as (subtotal & Hsub & -> & _).
  apply bind_inv_ret in Hr as (created & s10 & [-> ->]%now_inv & Hr).
  apply bind_inv_ret in Hr as (updated & s11 & [-> ->]%now_inv & Hr).
  injection Hr as <- <-. cbn. do 3 (split; [done|]). right.
  eexists _, txn_id, product_id, inv, prod. split; [reflexivity|].
  do 8 (split; [done|]).
  eexists _, inv, prod, name, quantity, unit_price, total_price, _.
  by do 3 (split; [done|]).
Qed.

Lemma invoice_item_row_copies w detail data s data' s' :
  invoice_item_row w detail data s = (Ret data', s') ->
  data' = data \/ exists t, data' = data ++ [t] /\ item_fields detail t.
Proof.
  intros (_ & _ & _ & [[-> _]|(t & ? & ? & ? & ? & -> & Ht)])%invoice_item_row_steps;
    [by left|].
  right. exists t. split; [done|].
  by destruct Ht as (_ & _ & _ & _ & _ & _ & _ & _ & ?).
Qed.

(** X1. In every run, the rows of a bulk insert into the employees are
    built from the rows of [tbl_karyawan], one for one and in order: name,
    e-mail and telephone are copied as they are, the role is 'technician',
    the status 'available', the rating 0.0, the count of jobs 0 and the
    avatar NULL; 100 rows go into a page. *)
Theorem employee_rows w p pre data n post :
  trace (run w p).2 = pre ++ ECall (PgExecuteValues employees data n) :: post ->
  n = 100 /\ Forall2 employee_fields (mysql_rows w tbl_karyawan) data.
Proof.
  intros Htr. apply run_bulk in Htr as [-> (s & s' & Hloop)]. split; [done|].
  cbn in Hloop.
  eapply (for_each_rows employee_fields) in Hloop as (new & -> & Hnew); [done|].
  apply employee_row_emits.
Qed.

(** X2. In every run, the rows of a bulk insert into the customers are
    built from the rows of [tbl_member], one for one and in order: name,
    telephone and address are copied, the e-mail and the notes are NULL,
    the category is 'retail', the payment terms 0 days, the outstanding
    amount and the credit limit 0.0, and nobody is blacklisted. *)
Theorem customer_rows w p pre data n post :
  trace (run w p).2 = pre ++ ECall (PgExecuteValues customers data n) :: post ->
  n = 100 /\ Forall2 customer_fields (mysql_rows w tbl_member) data.
Proof.
  intros Htr. apply run_bulk in Htr as [-> (s & s' & Hloop)]. split; [done|].
  cbn in Hloop.
  eapply (for_each_rows customer_fields) in Hloop as (new & -> & Hnew); [done|].
  apply customer_row_emits.
Qed.

(** X3. In every run, the rows of a bulk insert into the products are
    built from the rows of [tbl_product], one for one and in order: the SKU
    is [seri], or 'SKU-' followed by the product's id when [seri] is falsy;
    a falsy name becomes 'Unnamed Product', a falsy unit 'pcs', a falsy
    cost, price or stock 0; the description is copied; the category is
    'spare_parts', the stock threshold 5, the product active and no
    service item. *)
Theorem product_rows w p pre data n post :
  trace (run w p).2 = pre ++ ECall (PgExecuteValues products data n) :: post ->
  n = 100 /\ Forall2 product_fields (mysql_rows w tbl_product) data.
Proof.
  intros Htr. apply run_bulk in Htr as [-> (s & s' & Hloop)]. split; [done|].
  cbn in Hloop.
  eapply (for_each_rows product_fields) in Hloop as (new & -> & Hnew); [done|].
  apply product_row_emits.
Qed.

(** X4. In every run, the rows of a bulk insert into the invoices are
    built, in order and at most one each, from rows of [tbl_transaksi]:
    number, date, notes and address are copied, the amount paid is
    [total_pembayaran], or 0 when that is falsy, the customer is a
    non-empty string, due date, admin notes and creator are NULL, and
    services total, discount and tax are 0.0. *)
Theorem invoice_rows w p pre data n post :
  trace (run w p).2 = pre ++ ECall (PgExecuteValues invoices data n) :: post ->
  n = 100 /\
  exists kept,
    kept `sublist_of` mysql_rows w tbl_transaksi /\
    Forall2 invoice_fields kept data.
Proof.
  intros Htr. apply run_bulk in Htr as [-> (s & s' & Hloop)]. split; [done|].
  cbn in Hloop.
  eapply (for_each_kept invoice_fields) in Hloop as (kept & new & ? & -> & Hnew);
    [by exists kept|].
  apply invoice_row_copies.
Qed.

(** X5. In every run, the rows of a bulk insert into the line items are
    built, in order and at most one each, from rows of
    [tbl_detail_transaksi]: the product name is copied, invoice and
    product are non-empty strings, SKU, description and registered unit
    are NULL, the discount is 0.0 and the item is not registered as a
    unit. *)
Theorem invoice_item_rows w p pre data n post :
  trace (run w p).2 = pre ++ ECall (PgExecuteValues invoice_items data n) :: post ->
  n = 100 /\
  exists kept,
    kept `sublist_of` mysql_rows w tbl_detail_transaksi /\
    Forall2 item_fields kept data.
Proof.
  intros Htr. apply run_bulk in Htr as [-> (s & s' & Hloop)]. split; [done|].
  cbn in Hloop.
  eapply (for_each_kept item_fields) in Hloop as (kept & new & ? & -> & Hnew);
    [by exists kept|].
  apply invoice_item_row_copies.
Qed.

(** ** The connection that fails *)

(** X6. When a connection cannot be established the run ends at once with
    [SystemExit(1)]: the diagnostic is printed, no transfer starts, the
    target store and the registry are untouched.  When it is the source
    that refuses, the target is not tried; when it is the target, the
    source connection stays open and is never closed. *)
Theorem failed_connect_stops_run w p :
  connected w = false ->
  let r := run w p in
  r.1 = Raise (SystemExit 1) /\
  pg_committed r.2 = p /\ pg_session r.2 = p /\ migrated_records r.2 = ∅ /\
  pg_conn r.2 = false /\
  if raises w 0 MysqlConnect
  then mysql_conn r.2 = false /\
       trace r.2 = [ECall MysqlConnect; ERaise (DriverError MysqlConnect);
                    EPrint (MsgConnError (DriverError MysqlConnect))]
  else mysql_conn r.2 = true /\
       trace r.2 = [ECall MysqlConnect; ECall PgConnect;
                    ERaise (DriverError PgConnect);
                    EPrint (MsgConnError (DriverError PgConnect))].
Proof.
  unfold connected, run, main, connect, try_except, bind, driver, modify, print,
    log, sys_exit, throw. cbn.
  destruct (raises w 0 MysqlConnect); cbn; [done|].
  destruct (raises w 1 PgConnect); cbn; done.
Qed.

(** ** The registry outside a transfer's own keys *)

Global Instance writes_only_preorder tg : PreOrder (writes_only tg).
Proof.
  split; [done|]. intros s1 s2 s3 H1 H2 k Hk. by rewrite H2, H1.
Qed.

Ltac frame_leaf :=
  let key := fresh "key" in
  let Hkey := fresh "Hkey" in
  run_prim; unfold writes_only; cbn; intros key Hkey; try done;
  apply lookup_insert_ne; intros <-; exact (Hkey _ _ eq_refl eq_refl).

(** X7. A transfer changes the registry only at keys of its own tag:
    the employees at [emp_...], the customers at [member_...], the
    products at [prod_...], the invoices at [txn_...]; the transfer of the
    line items, [connect] and [close] leave the registry as it is. *)
Theorem registry_frame w t m s k :
  (t, m) ∈ transfers w ->
  (forall tg id, registry_tag t = Some tg -> k <> reg_key tg id) ->
  migrated_records (m s).2 !! k = migrated_records s !! k /\
  migrated_records (connect w s).2 = migrated_records s /\
  migrated_records (close w s).2 = migrated_records s /\
  (t = invoice_items -> migrated_records (m s).2 = migrated_records s).
Proof.
  intros Hin Hk.
  assert (respects (writes_only (registry_tag t)) m) as Hm.
  { revert Hin. unfold transfers. rewrite !elem_of_cons, elem_of_nil.
    intros [[= -> ->]|[[= -> ->]|[[= -> ->]|[[= -> ->]|[[= -> ->]|[]]]]]];
      cbn [registry_tag]; split_steps frame_leaf. }
  split; [by apply Hm|]. split; [|split].
  - assert (respects (same migrated_records) (connect w)) as Hc
      by split_steps same_leaf.
    apply Hc.
  - assert (respects (same migrated_records) (close w)) as Hc
      by split_steps same_leaf.
    apply Hc.
  - intros ->. apply map_eq. intros k'. apply Hm. by intros tg id.
Qed.

(** ** The anatomy of a table transfer *)

Lemma inserts_app l1 l2 : inserts (l1 ++ l2) = inserts l1 ++ inserts l2.
Proof. apply omap_app. Qed.

Lemma announced_app l1 l2 : announced (l1 ++ l2) = announced l1 ++ announced l2.
Proof. apply omap_app. Qed.

Global Instance quiet_closed : Closed quiet.
Proof.
  split; [done|]. intros l1 l2 [I1 A1] [I2 A2]. unfold quiet.
  by rewrite inserts_app, announced_app, I1, I2, A1, A2.
Qed.

Ltac quiet_leaf := logs_leaf ltac:(by split).

Lemma try_except_bind_raise {A B} (m : M A) (f : A -> M B) h s e s1 :
  m s = (Raise (Error e), s1) -> try_except (bind m f) h s = h e s1.
Proof. intros Hm. unfold try_except, bind. by rewrite Hm. Qed.

(** The loop of a transfer writes neither to the target store nor a bulk
    insert or a success message to the log, and it does not exit. *)
Lemma loop_runs w t rows data s :
  let r := for_each rows (row_body w t) data s in
  exists L,
    trace r.2 = trace s ++ L /\ quiet L /\
    pg_session r.2 = pg_session s /\
    pg_committed r.2 = pg_committed s /\
    (forall c, r.1 <> Raise (SystemExit c)).
Proof.
  cbv zeta.
  destruct (respects_for_each (logs quiet) _ rows (row_body w t) data)
    with (s := s) as (L & HL & Hq).
  { intros r d. destruct t; cbn [row_body]; split_steps quiet_leaf. }
  exists L. split; [done|]. split; [done|]. split; [|split].
  - apply (respects_for_each (same pg_session) _ rows (row_body w t) data).
    intros r d. destruct t; cbn [row_body]; split_steps same_leaf.
  - apply (respects_for_each (same pg_committed) _ rows (row_body w t) data).
    intros r d. destruct t; cbn [row_body]; split_steps same_leaf.
  - intros c Hc.
    destruct (disciplined_for_each rows (row_body w t) data) with (s := s)
      as (evs & _ & Hm).
    { intros r d. destruct t; cbn [row_body]; split_disciplined. }
    by rewrite Hc in Hm.
Qed.

(** The handler: a diagnostic and a rollback.  It commits nothing, and
    when it returns the session is back at the committed state. *)
Lemma handler_outcome w t e s :
  let r := handler w t e s in
  exists evs,
    trace r.2 = trace s ++ evs /\ quiet evs /\
    pg_committed r.2 = pg_committed s /\
    migrated_records r.2 = migrated_records s /\
    uuid_calls r.2 = uuid_calls s /\
    (r.1 = Ret tt -> pg_session r.2 = pg_committed r.2).
Proof.
  unfold handler, pg_rollback, need, print, log, bind, driver, modify, throw,
    rollback_state.
  cbn. destruct (pg_conn s); cbn;
    repeat match goal with
    | |- context [raises w ?n ?c] => destruct (raises w n c); cbn
    end;
    rewrite <- ?app_assoc; cbn;
    (eexists; split; [reflexivity|]); by repeat split.
Qed.

(** The end of the [try] block of a transfer whose loop built [data],
    with its handler: the bulk insert is issued once; the committed store
    changes only together with the success message, and then by the rows
    of [data]. *)
Lemma finish_outcome w t data s :
  let r := try_except (finish w t data) (handler w t) s in
  exists evs,
    trace r.2 = trace s ++ evs /\
    migrated_records r.2 = migrated_records s /\
    uuid_calls r.2 = uuid_calls s /\
    (r.1 = Ret tt -> pg_session r.2 = pg_committed r.2) /\
    inserts evs = [(t, data, 100)] /\
    ((announced evs = [] /\ pg_committed r.2 = pg_committed s) \/
     (announced evs = [(t, length data)] /\
      pg_committed r.2 = end_transaction (insert_rows t data (pg_session s)))).
Proof.
  unfold finish, handler, execute_values, pg_commit, pg_rollback, need, print,
    log_bulk, log, driver, modify, try_except, bind, throw, ret.
  destruct data as [|tu data]; cbn;
    repeat match goal with
    | |- context [raises w ?n ?c] => destruct (raises w n c); cbn
    | |- context [if pg_conn s then _ else _] => destruct (pg_conn s); cbn
    end;
    rewrite <- ?app_assoc; cbn;
    (eexists; split; [reflexivity|]);
    (split; [done|]); (split; [done|]); (split; [done|]); (split; [done|]);
    first [by left | by right].
Qed.

Lemma table_transfer_unfold w t src body s :
  table_transfer w t src body s =
  (print (MsgStart t) ;;
   try_except (let* rows := fetch w src in
               let* data := for_each rows body [] in
               finish w t data) (handler w t)) s.
Proof.
  unfold table_transfer, fetch, finish, handler.
  unfold try_except, bind, ret.
  destruct (print _ s) as [[[]|e] s0]; [|done].
  destruct (mysql_cursor w s0) as [[[]|e] s1]; [|done].
  destruct (mysql_select_all w src s1) as [[rows|e] s2]; [|done].
  destruct (pg_cursor w s2) as [[[]|e] s3]; done.
Qed.

(** Reading the source table writes neither to the registry nor to the
    target store; it returns the rows of the table or raises. *)
Lemma fetch_outcome w src s :
  let r := fetch w src s in
  exists evs,
    trace r.2 = trace s ++ evs /\ quiet evs /\
    migrated_records r.2 = migrated_records s /\
    uuid_calls r.2 = uuid_calls s /\
    pg_session r.2 = pg_session s /\
    pg_committed r.2 = pg_committed s /\
    match r.1 with
    | Ret rows => rows = mysql_rows w src
    | Raise (Error _) => True
    | Raise (SystemExit _) => False
    end.
Proof.
  unfold fetch, mysql_cursor, mysql_select_all, pg_cursor, need, bind, driver,
    throw, ret.
  cbn. destruct (mysql_conn s); cbn;
    repeat match goal with
    | |- context [raises w ?n ?c] => destruct (raises w n c); cbn
    | |- context [if pg_conn s then _ else _] => destruct (pg_conn s); cbn
    end;
    rewrite <- ?app_assoc; cbn;
    (eexists; split; [reflexivity|]); by repeat split.
Qed.

Lemma table_transfer_outcomes w t s :
  let r := migrate w t s in
  exists evs,
    trace r.2 = trace s ++ evs /\
    (r.1 = Ret tt -> pg_session r.2 = pg_committed r.2) /\
    ((quiet evs /\ pg_committed r.2 = pg_committed s) \/
     exists s1 data s2,
       migrated_records s1 = migrated_records s /\
       uuid_calls s1 = uuid_calls s /\
       for_each (mysql_rows w (source_of t)) (row_body w t) [] s1 = (Ret data, s2) /\
       migrated_records r.2 = migrated_records s2 /\
       uuid_calls r.2 = uuid_calls s2 /\
       inserts evs = [(t, data, 100)] /\
       ((announced evs = [] /\ pg_committed r.2 = pg_committed s) \/
        (announced evs = [(t, length data)] /\
         pg_committed r.2 = end_transaction (insert_rows t data (pg_session s))))).
Proof.
  cbv zeta. destruct (migrate w t s) as [r s'] eqn:Hrun. cbn [fst snd].
  unfold migrate in Hrun. rewrite table_transfer_unfold in Hrun.
  unfold bind at 1, print, log in Hrun. cbn [fst snd] in Hrun.
  destruct (fetch_outcome w (source_of t)
              (set_trace (trace s ++ [EPrint (MsgStart t)]) s))
    as (evs0 & Ht0 & [Hi0 Ha0] & Hreg & Hu & Hse & Hco & Hres).
  cbv zeta in Ht0, Hreg, Hu, Hse, Hco, Hres.
  destruct (fetch w (source_of t) _) as [[rows|[e|c]] s1] eqn:Hfetch;
    cbn in Ht0, Hreg, Hu, Hse, Hco, Hres; [| |done].
  - subst rows. rewrite (try_except_bind_ret _ _ _ _ _ _ Hfetch) in Hrun.
    destruct (loop_runs w t (mysql_rows w (source_of t)) [] s1)
      as (L & HtL & [HiL HaL] & HsL & HcL & Hex).
    cbv zeta in HtL, HsL, HcL, Hex.
    destruct (for_each _ _ [] s1) as [[data|[e|c]] s2] eqn:Hloop;
      cbn [fst snd] in HtL, HsL, HcL, Hex; [| |by destruct (Hex c)].
    + rewrite (try_except_bind_ret _ _ _ _ _ _ Hloop) in Hrun.
      destruct (finish_outcome w t data s2)
        as (F & HtF & HregF & HuF & HsetF & HiF & HaF).
      cbv zeta in HtF, HregF, HuF, HsetF, HaF.
      rewrite Hrun in HtF, HregF, HuF, HsetF, HaF.
      cbn [fst snd] in HtF, HregF, HuF, HsetF, HaF.
      exists ([EPrint (MsgStart t)] ++ evs0 ++ L ++ F).
      split; [by rewrite HtF, HtL, Ht0, <- !app_assoc|]. split; [done|].
      right. exists s1, data, s2. do 5 (split; [done|]).
      split; [by rewrite !inserts_app, Hi0, HiL, HiF|].
      rewrite !announced_app, Ha0, HaL. cbn [announced omap app].
      by rewrite HsL, Hse, HcL, Hco in HaF.
    + rewrite (try_except_bind_raise _ _ _ _ _ _ Hloop) in Hrun.
      destruct (handler_outcome w t e s2)
        as (F & HtF & [HiF HaF] & HcF & _ & _ & HsetF).
      cbv zeta in HtF, HcF, HsetF. rewrite Hrun in HtF, HcF, HsetF.
      cbn [fst snd] in HtF, HcF, HsetF.
      exists ([EPrint (MsgStart t)] ++ evs0 ++ L ++ F).
      split; [by rewrite HtF, HtL, Ht0, <- !app_assoc|]. split; [done|].
      left. split; [|by rewrite HcF, HcL, Hco]. unfold quiet.
      by rewrite !inserts_app, !announced_app, Hi0, HiL, HiF, Ha0, HaL, HaF.
  - rewrite (try_except_bind_raise _ _ _ _ _ _ Hfetch) in Hrun.
    destruct (handler_outcome w t e s1)
      as (F & HtF & [HiF HaF] & HcF & _ & _ & HsetF).
    cbv zeta in HtF, HcF, HsetF. rewrite Hrun in HtF, HcF, HsetF.
    cbn [fst snd] in HtF, HcF, HsetF.
    exists ([EPrint (MsgStart t)] ++ evs0 ++ F).
    split; [by rewrite HtF, Ht0, <- !app_assoc|]. split; [done|].
    left. split; [|by rewrite HcF, Hco]. unfold quiet.
    by rewrite !inserts_app, !announced_app, Hi0, HiF, Ha0, HaF.
Qed.

(** ** The anatomy of the transfer of the line items *)

Lemma try_except_ret {A} (m : M A) h s a s1 :
  m s = (Ret a, s1) -> try_except m h s = (Ret a, s1).
Proof. intros Hm. unfold try_except. by rewrite Hm. Qed.

Lemma try_except_raise {A} (m : M A) h s e s1 :
  m s = (Raise (Error e), s1) -> try_except m h s = h e s1.
Proof. intros Hm. unfold try_except. by rewrite Hm. Qed.

(** A loop over the triggers returns, and touches neither the registry
    nor the rows of the target store. *)
Lemma toggle_loop_frame w b names s :
  let r := for_each names (toggle_trigger w b) tt s in
  r.1 = Ret tt /\
  exists E,
    trace r.2 = trace s ++ E /\ quiet E /\
    migrated_records r.2 = migrated_records s /\
    uuid_calls r.2 = uuid_calls s /\
    pg_rows (pg_session r.2) = pg_rows (pg_session s) /\
    pg_committed r.2 = pg_committed s.
Proof.
  cbv zeta. split.
  { by destruct (toggle_loop w b names s) as (? & ? & -> & _). }
  destruct (respects_for_each (logs quiet) _ names (toggle_trigger w b) tt)
    with (s := s) as (E & HE & Hq).
  { intros x u. unfold toggle_trigger. destruct b; split_steps quiet_leaf. }
  exists E. split; [done|]. split; [done|]. split; [|split; [|split]].
  - apply (respects_for_each (same migrated_records) _ names (toggle_trigger w b) tt).
    intros x u. unfold toggle_trigger. destruct b; split_steps same_leaf.
  - apply (respects_for_each (same uuid_calls) _ names (toggle_trigger w b) tt).
    intros x u. unfold toggle_trigger. destruct b; split_steps same_leaf.
  - apply (respects_for_each (same (fun s => pg_rows (pg_session s))) _ names
             (toggle_trigger w b) tt).
    intros x u. unfold toggle_trigger. destruct b; split_steps same_leaf.
  - apply (respects_for_each (same pg_committed) _ names (toggle_trigger w b) tt).
    intros x u. unfold toggle_trigger. destruct b; split_steps same_leaf.
Qed.

Lemma items_prelude_outcome w s :
  let r := items_prelude w s in
  exists evs,
    trace r.2 = trace s ++ evs /\ quiet evs /\
    migrated_records r.2 = migrated_records s /\
    uuid_calls r.2 = uuid_calls s /\
    pg_rows (pg_session r.2) = pg_rows (pg_session s) /\
    pg_committed r.2 = pg_committed s /\
    match r.1 with
    | Ret dt => dt.1 = mysql_rows w tbl_detail_transaksi
    | Raise (Error _) => True
    | Raise (SystemExit _) => False
    end.
Proof.
  unfold items_prelude, mysql_cursor, mysql_select_all, pg_cursor, pg_execute,
    pg_fetch_triggers, need, bind, driver, modify, gets, throw, ret.
  cbn. destruct (mysql_conn s); cbn;
    repeat match goal with
    | |- context [raises w ?n ?c] => destruct (raises w n c); cbn
    | |- context [if pg_conn s then _ else _] => destruct (pg_conn s); cbn
    end;
    rewrite <- ?app_assoc; cbn;
    (eexists; split; [reflexivity|]); by repeat split.
Qed.

(** The bulk insert of the line items: it is skipped when there is no row. *)
Lemma insert_outcome w data s :
  let r := match data with
           | [] => ret tt
           | _ :: _ => execute_values w invoice_items data 100
           end s in
  exists evs,
    trace r.2 = trace s ++ evs /\ announced evs = [] /\
    inserts evs = match data with
                  | [] => []
                  | _ :: _ => [(invoice_items, data, 100)]
                  end /\
    migrated_records r.2 = migrated_records s /\
    uuid_calls r.2 = uuid_calls s /\
    pg_committed r.2 = pg_committed s /\
    (r.1 = Ret tt ->
     forall t, pg_rows (pg_session r.2) t
               = pg_rows (insert_rows invoice_items data (pg_session s)) t) /\
    (forall c, r.1 <> Raise (SystemExit c)).
Proof.
  unfold execute_values, log_bulk, log, driver, modify, throw, session_insert,
    bind, ret.
  destruct data as [|tu data]; cbn.
  - exists []. rewrite app_nil_r. do 6 (split; [done|]). split; [|done].
    intros _ t. case_decide; [by rewrite app_nil_r | done].
  - destruct (raises w (tick s) _); cbn; rewrite <- ?app_assoc; cbn;
      (eexists; split; [reflexivity|]); by repeat split.
Qed.

(** The commit that ends a [try] block, the success message and the close
    of the source cursor. *)
Lemma commit_outcome w t k s :
  let r := (pg_commit w ;; print (MsgDone t k) ;; driver w MysqlCursorClose) s in
  exists evs,
    trace r.2 = trace s ++ evs /\ inserts evs = [] /\
    migrated_records r.2 = migrated_records s /\
    uuid_calls r.2 = uuid_calls s /\
    (r.1 = Ret tt -> pg_session r.2 = pg_committed r.2) /\
    (forall c, r.1 <> Raise (SystemExit c)) /\
    ((announced evs = [] /\ pg_committed r.2 = pg_committed s /\ r.1 <> Ret tt) \/
     (announced evs = [(t, k)] /\
      pg_committed r.2 = end_transaction (pg_session s))).
Proof.
  unfold pg_commit, need, print, log, bind, driver, modify, throw, commit_state.
  cbn. destruct (pg_conn s); cbn;
    repeat match goal with
    | |- context [raises w ?n ?c] => destruct (raises w n c); cbn
    end;
    rewrite <- ?app_assoc; cbn;
    (eexists; split; [reflexivity|]);
    do 5 (split; [done|]); first [by left | by right].
Qed.

Lemma insert_rows_ext t data p p' t' :
  pg_rows p = pg_rows p' ->
  pg_rows (insert_rows t data p) t' = pg_rows (insert_rows t data p') t'.
Proof. intros Heq. cbn. by rewrite Heq. Qed.

(** The [try] block of the line items from the bulk insert on, with its
    handler. *)
Lemma items_store_outcome w names data s :
  let r := try_except (items_store w names data) (handler w invoice_items) s in
  exists evs,
    trace r.2 = trace s ++ evs /\
    migrated_records r.2 = migrated_records s /\
    uuid_calls r.2 = uuid_calls s /\
    (r.1 = Ret tt -> pg_session r.2 = pg_committed r.2) /\
    inserts evs = match data with
                  | [] => []
                  | _ :: _ => [(invoice_items, data, 100)]
                  end /\
    ((announced evs = [] /\ pg_committed r.2 = pg_committed s) \/
     (announced evs = [(invoice_items, length data)] /\
      forall t, pg_rows (pg_committed r.2) t
                = pg_rows (insert_rows invoice_items data (pg_session s)) t)).
Proof.
  cbv zeta.
  destruct (try_except _ _ s) as [r s'] eqn:Hrun. cbn [fst snd].
  unfold items_store in Hrun.
  destruct (insert_outcome w data s)
    as (I & HtI & HaI & HiI & HregI & HuI & HcI & HrowsI & HexI).
  cbv zeta in HtI, HregI, HuI, HcI, HrowsI, HexI.
  destruct (match data with [] => ret tt | _ :: _ => _ end s)
    as [[[]|[e|c]] s1] eqn:Hins;
    cbn [fst snd] in HtI, HregI, HuI, HcI, HrowsI, HexI; [| |by destruct (HexI c)].
  - rewrite (try_except_bind_ret _ _ _ _ _ _ Hins) in Hrun.
    change (enable_trigger w) with (toggle_trigger w true) in Hrun.
    destruct (toggle_loop_frame w true names s1)
      as (HrE & E & HtE & [HiE HaE] & HregE & HuE & HrowsE & HcE).
    cbv zeta in HrE, HtE, HregE, HuE, HrowsE, HcE.
    destruct (for_each names (toggle_trigger w true) tt s1) as [o s2] eqn:Hen.
    cbn [fst snd] in HrE, HtE, HregE, HuE, HrowsE, HcE. subst o.
    rewrite (try_except_bind_ret _ _ _ _ _ _ Hen) in Hrun.
    destruct (commit_outcome w invoice_items (length data) s2)
      as (C & HtC & HiC & HregC & HuC & HsetC & HexC & HaC).
    cbv zeta in HtC, HregC, HuC, HsetC, HexC, HaC.
    destruct ((pg_commit w ;; print (MsgDone invoice_items (length data)) ;;
               driver w MysqlCursorClose) s2) as [[[]|[e|c]] s3] eqn:Hcom;
      cbn [fst snd] in HtC, HregC, HuC, HsetC, HexC, HaC; [| |by destruct (HexC c)].
    + rewrite (try_except_ret _ _ _ _ _ Hcom) in Hrun. injection Hrun as <- <-.
      exists (I ++ E ++ C).
      split; [by rewrite HtC, HtE, HtI, <- !app_assoc|].
      split; [congruence|]. split; [congruence|]. split; [done|].
      split; [by rewrite !inserts_app, HiI, HiE, HiC, !app_nil_r|].
      destruct HaC as [(_ & _ & Hno)|[HaC Hc3]]; [done|]. right.
      split; [by rewrite !announced_app, HaI, HaE, HaC|].
      intros t. rewrite Hc3. cbn [pg_rows end_transaction].
      rewrite HrowsE. by apply HrowsI.
    + rewrite (try_except_raise _ _ _ _ _ Hcom) in Hrun.
      destruct (handler_outcome w invoice_items e s3)
        as (F & HtF & [HiF HaF] & HcF & HregF & HuF & HsetF).
      cbv zeta in HtF, HcF, HregF, HuF, HsetF.
      rewrite Hrun in HtF, HcF, HregF, HuF, HsetF.
      cbn [fst snd] in HtF, HcF, HregF, HuF, HsetF.
      exists (I ++ E ++ C ++ F).
      split; [by rewrite HtF, HtC, HtE, HtI, <- !app_assoc|].
      split; [congruence|]. split; [congruence|]. split; [done|].
      split; [by rewrite !inserts_app, HiI, HiE, HiC, HiF, !app_nil_r|].
      rewrite !announced_app, HaI, HaE, HaF, app_nil_r. cbn [app].
      destruct HaC as [(HaC & Hc3 & _)|[HaC Hc3]]; [left|right].
      * split; [done|]. congruence.
      * split; [done|]. intros t. rewrite HcF, Hc3. cbn [pg_rows end_transaction].
        rewrite HrowsE. by apply HrowsI.
  - rewrite (try_except_bind_raise _ _ _ _ _ _ Hins) in Hrun.
    destruct (handler_outcome w invoice_items e s1)
      as (F & HtF & [HiF HaF] & HcF & HregF & HuF & HsetF).
    cbv zeta in HtF, HcF, HregF, HuF, HsetF.
    rewrite Hrun in HtF, HcF, HregF, HuF, HsetF.
    cbn [fst snd] in HtF, HcF, HregF, HuF, HsetF.
    exists (I ++ F).
    split; [by rewrite HtF, HtI, <- !app_assoc|].
    split; [congruence|]. split; [congruence|]. split; [done|].
    split; [by rewrite !inserts_app, HiI, HiF, !app_nil_r|].
    left. split; [by rewrite !announced_app, HaI, HaF|congruence].
Qed.

Lemma items_outcomes w s :
  let r := migrate_invoice_items w s in
  exists evs,
    trace r.2 = trace s ++ evs /\
    (r.1 = Ret tt -> pg_session r.2 = pg_committed r.2) /\
    ((quiet evs /\ pg_committed r.2 = pg_committed s) \/
     exists s1 data s2,
       migrated_records s1 = migrated_records s /\
       uuid_calls s1 = uuid_calls s /\
       for_each (mysql_rows w tbl_detail_transaksi) (invoice_item_row w) [] s1
         = (Ret data, s2) /\
       uuid_calls r.2 = uuid_calls s2 /\
       inserts evs = match data with
                     | [] => []
                     | _ :: _ => [(invoice_items, data, 100)]
                     end /\
       ((announced evs = [] /\ pg_committed r.2 = pg_committed s) \/
        (announced evs = [(invoice_items, length data)] /\
         forall t, pg_rows (pg_committed r.2) t
                   = pg_rows (insert_rows invoice_items data (pg_session s)) t))).
Proof.
  cbv zeta. destruct (migrate_invoice_items w s) as [r s'] eqn:Hrun.
  cbn [fst snd]. rewrite items_unfold in Hrun.
  unfold bind at 1, print, log in Hrun. cbn [fst snd] in Hrun.
  destruct (items_prelude_outcome w
              (set_trace (trace s ++ [EPrint (MsgStart invoice_items)]) s))
    as (P & HtP & [HiP HaP] & HregP & HuP & HrowsP & HcP & Hres).
  cbv zeta in HtP, HregP, HuP, HrowsP, HcP, Hres.
  destruct (items_prelude w _) as [[[details names]|[e|c]] s1] eqn:Hpre;
    cbn in HtP, HregP, HuP, HrowsP, HcP, Hres; [| |done].
  - subst details. rewrite (try_except_bind_ret _ _ _ _ _ _ Hpre) in Hrun.
    cbn [fst snd] in Hrun. unfold items_load in Hrun.
    change (disable_trigger w) with (toggle_trigger w false) in Hrun.
    destruct (toggle_loop_frame w false names s1)
      as (HrD & D & HtD & [HiD HaD] & HregD & HuD & HrowsD & HcD).
    cbv zeta in HrD, HtD, HregD, HuD, HrowsD, HcD.
    destruct (for_each names (toggle_trigger w false) tt s1) as [o s2] eqn:Hdis.
    cbn [fst snd] in HrD, HtD, HregD, HuD, HrowsD, HcD. subst o.
    rewrite (try_except_bind_ret _ _ _ _ _ _ Hdis) in Hrun.
    destruct (loop_runs w invoice_items (mysql_rows w tbl_detail_transaksi) [] s2)
      as (L & HtL & [HiL HaL] & HsL & HcL & Hex).
    cbv zeta in HtL, HsL, HcL, Hex. cbn [row_body] in HtL, HsL, HcL, Hex.
    destruct (for_each _ (invoice_item_row w) [] s2) as [[data|[e|c]] s3] eqn:Hloop;
      cbn [fst snd] in HtL, HsL, HcL, Hex; [| |by destruct (Hex c)].
    + rewrite (try_except_bind_ret _ _ _ _ _ _ Hloop) in Hrun.
      destruct (items_store_outcome w names data s3)
        as (F & HtF & HregF & HuF & HsetF & HiF & HaF).
      cbv zeta in HtF, HregF, HuF, HsetF, HaF.
      rewrite Hrun in HtF, HregF, HuF, HsetF, HaF.
      cbn [fst snd] in HtF, HregF, HuF, HsetF, HaF.
      exists ([EPrint (MsgStart invoice_items)] ++ P ++ D ++ L ++ F).
      split; [by rewrite HtF, HtL, HtD, HtP, <- !app_assoc|]. split; [done|].
      right. exists s2, data, s3.
      split; [congruence|]. split; [congruence|]. do 2 (split; [done|]).
      split; [by rewrite !inserts_app, HiP, HiD, HiL, HiF|].
      rewrite !announced_app, HaP, HaD, HaL. cbn [announced omap app].
      destruct HaF as [[HaF Hc]|[HaF Hrows]]; [left|right].
      * split; [done|]. congruence.
      * split; [done|]. intros t. rewrite Hrows.
        apply insert_rows_ext. by rewrite HsL, HrowsD, HrowsP.
    + rewrite (try_except_bind_raise _ _ _ _ _ _ Hloop) in Hrun.
      destruct (handler_outcome w invoice_items e s3)
        as (F & HtF & [HiF HaF] & HcF & _ & _ & HsetF).
      cbv zeta in HtF, HcF, HsetF. rewrite Hrun in HtF, HcF, HsetF.
      cbn [fst snd] in HtF, HcF, HsetF.
      exists ([EPrint (MsgStart invoice_items)] ++ P ++ D ++ L ++ F).
      split; [by rewrite HtF, HtL, HtD, HtP, <- !app_assoc|]. split; [done|].
      left. split; [|congruence]. unfold quiet.
      by rewrite !inserts_app, !announced_app, HiP, HiD, HiL, HiF, HaP, HaD,
        HaL, HaF.
  - rewrite (try_except_bind_raise _ _ _ _ _ _ Hpre) in Hrun.
    destruct (handler_outcome w invoice_items e s1)
      as (F & HtF & [HiF HaF] & HcF & _ & _ & HsetF).
    cbv zeta in HtF, HcF, HsetF. rewrite Hrun in HtF, HcF, HsetF.
    cbn [fst snd] in HtF, HcF, HsetF.
    exists ([EPrint (MsgStart invoice_items)] ++ P ++ F).
    split; [by rewrite HtF, HtP, <- !app_assoc|]. split; [done|].
    left. split; [|congruence]. unfold quiet.
    by rewrite !inserts_app, !announced_app, HiP, HiF, HaP, HaF.
Qed.

(** ** What the transfers leave behind *)

Lemma invoice_loop_refs w rows data s data' s' :
  for_each rows (invoice_row w) data s = (Ret data', s') ->
  uuid_calls s' = uuid_calls s + length rows /\
  (forall id, migrated_records s' !! reg_key Member id
              = migrated_records s !! reg_key Member id) /\
  exists kept new,
    kept `sublist_of` rows /\ data' = data ++ new /\
    Forall2 (customer_of (migrated_records s)) kept new.
Proof.
  revert data s. induction rows as [|r rows IH]; intros data s; cbn.
  - intros [= <- <-]. split; [lia|]. split; [done|].
    exists [], []. by rewrite app_nil_r.
  - intros (d1 & s1 & Hr & Hrest)%bind_inv_ret.
    apply IH in Hrest as (Hu & Hmem & kept & new & Hsub & -> & Hnew).
    apply invoice_row_steps in Hr as (Hu1 & _ & _ & Hrow).
    assert (forall id, migrated_records s1 !! reg_key Member id
                       = migrated_records s !! reg_key Member id) as Hmem1.
    { intros id.
      destruct Hrow as [[_ ->]|(? & ? & ? & number & _ & _ & _ & _ & -> & _)];
        [done|].
      apply lookup_insert_ne. by intros ?%reg_key_tag. }
    assert (Forall2 (customer_of (migrated_records s)) kept new) as Hnew'.
    { eapply Forall2_impl; [exact Hnew|].
      intros txn t (member_id & cust & ? & Hreg & ?).
      exists member_id, cust. by rewrite <- Hmem1. }
    split; [lia|]. split; [intros id; by rewrite Hmem, Hmem1|].
    destruct Hrow as [[-> _]|(t & member_id & cust & number & -> & Hm & Hc & _ & _ & _ & Ht & _)].
    + exists kept, new. split; [by apply sublist_cons | done].
    + exists (r :: kept), (t :: new). split; [by apply sublist_skip|].
      split; [by rewrite <- app_assoc|]. constructor; [|done].
      by exists member_id, cust.
Qed.

Lemma item_loop_refs w rows data s data' s' :
  for_each rows (invoice_item_row w) data s = (Ret data', s') ->
  migrated_records s' = migrated_records s /\
  exists kept new,
    kept `sublist_of` rows /\ data' = data ++ new /\
    Forall2 (parents_of (migrated_records s)) kept new /\
    uuid_calls s' = uuid_calls s + length new /\
    (forall i t, new !! i = Some t ->
                 t !! 0 = Some (PStr (uuid4 w (uuid_calls s + i)))).
Proof.
  revert data s. induction rows as [|r rows IH]; intros data s; cbn.
  - intros [= <- <-]. split; [done|]. exists [], []. rewrite app_nil_r.
    do 3 (split; [done|]). split; [cbn; lia | by intros i t].
  - intros (d1 & s1 & Hr & Hrest)%bind_inv_ret.
    apply IH in Hrest as (Hreg & kept & new & Hsub & -> & Hnew & Hu & Hid).
    apply invoice_item_row_steps in Hr as (Hreg1 & _ & _ & Hrow).
    rewrite Hreg1 in Hreg, Hnew. split; [done|].
    destruct Hrow as [[-> Hu1]|(t & txn_id & product_id & inv & prod & -> & Hu1
                                  & ? & ? & ? & ? & Ht0 & Ht1 & Ht2 & _)].
    + exists kept, new. split; [by apply sublist_cons|].
      do 2 (split; [done|]). split; [lia|]. intros i t Hi.
      rewrite <- Hu1. by apply Hid.
    + exists (r :: kept), (t :: new). split; [by apply sublist_skip|].
      split; [by rewrite <- app_assoc|]. split.
      { constructor; [|done]. by exists txn_id, product_id, inv, prod. }
      split; [cbn; lia|]. intros [|i] t' Hi; cbn in Hi.
      * injection Hi as <-. by rewrite Nat.add_0_r.
      * rewrite (Hid i t' Hi), Hu1. do 3 f_equal. lia.
Qed.

Lemma items_keep_registry w : respects (same migrated_records) (migrate_invoice_items w).
Proof. split_steps same_leaf. Qed.

(** X8. A transfer that returns leaves nothing uncommitted behind: the
    session is at the committed state, whether the transfer committed its
    rows or rolled them back.  The next transfer, which works on the same
    connection, cannot commit rows of a transfer that failed. *)
Theorem transfer_settles w t m s :
  (t, m) ∈ transfers w -> (m s).1 = Ret tt ->
  pg_session (m s).2 = pg_committed (m s).2.
Proof.
  unfold transfers. rewrite !elem_of_cons, elem_of_nil.
  intros [[= -> ->]|[[= -> ->]|[[= -> ->]|[[= -> ->]|[[= -> ->]|[]]]]]] Hret.
  - destruct (table_transfer_outcomes w employees s) as (evs & _ & Hset & _).
    exact (Hset Hret).
  - destruct (table_transfer_outcomes w customers s) as (evs & _ & Hset & _).
    exact (Hset Hret).
  - destruct (table_transfer_outcomes w products s) as (evs & _ & Hset & _).
    exact (Hset Hret).
  - destruct (table_transfer_outcomes w invoices s) as (evs & _ & Hset & _).
    exact (Hset Hret).
  - destruct (items_outcomes w s) as (evs & _ & Hset & _).
    exact (Hset Hret).
Qed.



(** X10. The transfer of the invoices, from any state: when it issues
    its bulk insert, the rows come in order, at most one each, from rows
    of [tbl_transaksi], and the customer of each is what the registry held
    for [member_<id_member>] when the transfer started; and one identifier
    has been generated for every row of [tbl_transaksi], inserted or
    not. *)
Theorem invoices_reference_customers w s :
  let r := migrate_invoices w s in
  exists evs,
    trace r.2 = trace s ++ evs /\
    (inserts evs = [] \/
     exists data kept,
       inserts evs = [(invoices, data, 100)] /\
       kept `sublist_of` mysql_rows w tbl_transaksi /\
       Forall2 (customer_of (migrated_records s)) kept data /\
       uuid_calls r.2 = uuid_calls s + length (mysql_rows w tbl_transaksi)).
Proof.
  cbv zeta.
  destruct (table_transfer_outcomes w invoices s) as (evs & Htr & _ & Hout).
  exists evs. split; [exact Htr|].
  destruct Hout as [[[? _] _]|(s1 & data & s2 & Hreg & Hu & Hloop & _ & Hu2 & Hins & _)];
    [by left|].
  right. cbn [source_of row_body] in Hloop.
  apply invoice_loop_refs in Hloop as (Hu' & _ & kept & new & Hsub & -> & Hnew).
  exists new, kept. split; [exact Hins|]. split; [done|].
  split; [by rewrite <- Hreg|]. etrans; [exact Hu2|]. by rewrite Hu', Hu.
Qed.

(** X11. The transfer of the line items, from any state, leaves the
    registry as it is.  When it issues its bulk insert there is at least
    one row; the rows come in order, at most one each, from rows of
    [tbl_detail_transaksi]; invoice and product of each are what the
    registry holds for [txn_<id_transaksi>] and [prod_<id_product>]; and
    the identifiers generated are those of the rows inserted, in order. *)
Theorem items_reference_parents w s :
  let r := migrate_invoice_items w s in
  migrated_records r.2 = migrated_records s /\
  exists evs,
    trace r.2 = trace s ++ evs /\
    (inserts evs = [] \/
     exists data kept,
       data <> [] /\
       inserts evs = [(invoice_items, data, 100)] /\
       kept `sublist_of` mysql_rows w tbl_detail_transaksi /\
       Forall2 (parents_of (migrated_records s)) kept data /\
       uuid_calls r.2 = uuid_calls s + length data /\
       (forall i t, data !! i = Some t ->
                    t !! 0 = Some (PStr (uuid4 w (uuid_calls s + i))))).
Proof.
  cbv zeta. split; [apply items_keep_registry|].
  destruct (items_outcomes w s) as (evs & Htr & _ & Hout).
  exists evs. split; [exact Htr|].
  destruct Hout as [[[? _] _]|(s1 & data & s2 & Hreg & Hu & Hloop & Hu2 & Hins & _)];
    [by left|].
  destruct data as [|tu data]; [by left|]. right.
  apply item_loop_refs in Hloop as (_ & kept & new & Hsub & Heq & Hnew & Hu' & Hid).
  cbn [app] in Heq. subst new.
  exists (tu :: data), kept. split; [done|]. split; [exact Hins|].
  split; [done|]. split; [by rewrite <- Hreg|].
  split; [etrans; [exact Hu2|]; by rewrite Hu', Hu|].
  intros i t Hi. rewrite <- Hu. by apply Hid.
Qed.

(** ** The closing banner *)

Lemma unfinished_spec evs :
  Forall unfinished evs -> EPrint MsgFinished ∉ evs.
Proof.
  intros Hall Hin. rewrite Forall_forall in Hall. exact (Hall _ Hin).
Qed.

Lemma announces_bind {A} (m : M A) (f : A -> M unit) :
  respects (logs (Forall unfinished)) m ->
  (forall a, announces_end (f a)) -> announces_end (bind m f).
Proof.
  intros Hm Hf s. unfold bind. destruct (Hm s) as (l1 & E1 & K1).
  apply unfinished_spec in K1.
  destruct (m s) as [[a|e] s1]; cbn [fst snd] in *.
  - destruct (Hf a s1) as (l2 & E2 & Hiff). exists (l1 ++ l2).
    split; [by rewrite E2, E1, app_assoc|].
    rewrite Hiff, elem_of_app. tauto.
  - exists l1. split; [done|]. split; [done | by intros ?%K1].
Qed.

(** X12. In every run the closing banner is printed exactly when [main]
    returns normally, that is, when the process exits with status 0 after
    [close]; a run that ends with an exception or with [sys.exit] never
    prints it. *)
Theorem finished_iff_returned w p :
  (run w p).1 = Ret tt <-> EPrint MsgFinished ∈ trace (run w p).2.
Proof.
  assert (announces_end (main w)) as Hmain.
  { unfold main.
    do 8 (apply announces_bind; [split_steps event_leaf | intros _]).
    intros s. exists [EPrint MsgFinished]. split; [done|].
    split; [intros _; apply list_elem_of_here | done]. }
  destruct (Hmain (init p)) as (evs & E & Hiff). unfold run.
  by rewrite E, Hiff.
Qed.

(** ** A source row without a column the transfer reads *)

Lemma for_each_app {A B} (l1 l2 : list A) (body : A -> B -> M B) acc s :
  for_each (l1 ++ l2) body acc s =
  (let* acc' := for_each l1 body acc in for_each l2 body acc') s.
Proof.
  revert acc s. induction l1 as [|x l1 IH]; intros acc s; cbn; [done|].
  unfold bind. destruct (body x acc s) as [[acc1|e] s1]; [|done].
  by rewrite IH.
Qed.

Ltac missing_column c :=
  exists c; eexists; split; [in_list|]; split; [done|];
  split; [reflexivity|]; done.

(** The loop body of a transfer without dependencies, on a row that lacks
    a column: the identifier is generated, then the lookup of the first
    column that is missing raises [KeyError]; the registry is not written. *)
Lemma simple_row_fails w t r data s :
  independent t = true -> has_columns (columns_read t) r = false ->
  exists c s',
    c ∈ columns_read t /\ r !! c = None /\
    row_body w t r data s = (Raise (Error (KeyError c)), s') /\
    migrated_records s' = migrated_records s /\
    uuid_calls s' = S (uuid_calls s).
Proof.
  intros Ht Hc. destruct t; try done; cbn [columns_read row_body] in *.
  - unfold employee_row, bind, uuid4_str, getitem, now, records_put, ret, throw.
    cbn.
    destruct (r !! "nama_karyawan") eqn:H1; cbn; [|missing_column "nama_karyawan"].
    destruct (r !! "email") eqn:H2; cbn; [|missing_column "email"].
    destruct (r !! "nomor_telepon") eqn:H3; cbn; [|missing_column "nomor_telepon"].
    destruct (r !! "id_karyawan") eqn:H4; cbn; [|missing_column "id_karyawan"].
    exfalso. unfold has_columns in Hc. cbn in Hc.
    by rewrite H1, H2, H3, H4 in Hc.
  - unfold customer_row, bind, uuid4_str, getitem, now, records_put, ret, throw.
    cbn.
    destruct (r !! "nama_member") eqn:H1; cbn; [|missing_column "nama_member"].
    destruct (r !! "nomor_telepon") eqn:H2; cbn; [|missing_column "nomor_telepon"].
    destruct (r !! "alamat") eqn:H3; cbn; [|missing_column "alamat"].
    destruct (r !! "id_member") eqn:H4; cbn; [|missing_column "id_member"].
    exfalso. unfold has_columns in Hc. cbn in Hc.
    by rewrite H1, H2, H3, H4 in Hc.
  - unfold product_row, get_or, bind, uuid4_str, getitem, now, records_put, ret,
      throw.
    cbn.
    destruct (r !! "seri") as [seri|] eqn:H1; cbn; [|missing_column "seri"].
    destruct (r !! "id_product") eqn:H2; cbn;
      [|destruct (truthy seri); cbn].
    + destruct (r !! "nama") eqn:H3; cbn;
        [|destruct (truthy seri); cbn; missing_column "nama"].
      destruct (r !! "deskripsi") eqn:H4; cbn;
        [|destruct (truthy seri); cbn; missing_column "deskripsi"].
      destruct (r !! "satuan") eqn:H5; cbn;
        [|destruct (truthy seri); cbn; missing_column "satuan"].
      destruct (r !! "hpp") eqn:H6; cbn;
        [|destruct (truthy seri); cbn; missing_column "hpp"].
      destruct (r !! "harga") eqn:H7; cbn;
        [|destruct (truthy seri); cbn; missing_column "harga"].
      destruct (r !! "stok") eqn:H8; cbn;
        [|destruct (truthy seri); cbn; missing_column "stok"].
      exfalso. unfold has_columns in Hc. cbn in Hc.
      by rewrite H1, H2, H3, H4, H5, H6, H7, H8 in Hc.
    + destruct (r !! "nama") eqn:H3; cbn; [|missing_column "nama"].
      destruct (r !! "deskripsi") eqn:H4; cbn; [|missing_column "deskripsi"].
      destruct (r !! "satuan") eqn:H5; cbn; [|missing_column "satuan"].
      destruct (r !! "hpp") eqn:H6; cbn; [|missing_column "hpp"].
      destruct (r !! "harga") eqn:H7; cbn; [|missing_column "harga"].
      destruct (r !! "stok") eqn:H8; cbn; [|missing_column "stok"].
      missing_column "id_product".
    + missing_column "id_product".
Qed.

Lemma handler_prints w t e s :
  exists evs, trace (handler w t e s).2 = trace s ++ EPrint (MsgError t e) :: evs.
Proof.
  unfold handler, pg_rollback, need, print, log, bind, driver, modify, throw.
  cbn. destruct (pg_conn s); cbn;
    repeat match goal with
    | |- context [raises w ?n ?c] => destruct (raises w n c); cbn
    end;
    rewrite <- ?app_assoc; cbn; by eexists.
Qed.

(** X13. A transfer without dependencies whose source table has a row
    that lacks a column the loop reads: the rows before it are processed,
    an identifier is generated for the row, the lookup raises [KeyError]
    and the whole table is given up.  No bulk insert is issued, nothing is
    committed and no success message is printed; the diagnostic names the
    column; but the identifiers registered for the rows before stay in the
    registry. *)
Theorem missing_column_aborts w t m ids good bad rest s :
  (t, m) ∈ transfers w -> independent t = true ->
  mysql_conn s = true -> pg_conn s = true -> fetch_succeeds w t ->
  mysql_rows w (source_of t) = good ++ bad :: rest ->
  forallb (has_columns (columns_read t)) good = true ->
  (fun r => r !! id_column t) <$> good = (fun z => Some (PInt z)) <$> ids ->
  NoDup ids ->
  has_columns (columns_read t) bad = false ->
  exists c evs,
    c ∈ columns_read t /\ bad !! c = None /\
    trace (m s).2 = trace s ++ evs /\
    quiet evs /\
    EPrint (MsgError t (KeyError c)) ∈ evs /\
    pg_committed (m s).2 = pg_committed s /\
    uuid_calls (m s).2 = uuid_calls s + S (length good) /\
    forall i z, ids !! i = Some z ->
      migrated_records (m s).2 !! reg_key (tag_of t) (PInt z)
        = Some (uuid4 w (uuid_calls s + i)).
Proof.
  intros Hin Ht Hm Hp Hf Hrows Hgood Hids Hnd Hbad.
  rewrite (independent_is_migrate w t m Hin Ht). unfold migrate.
  destruct (fetch_runs w t (row_body w t) s Hm Hp Hf)
    as (s1 & -> & Hu1 & Hr1 & Hm1 & Hp1 & Hs1 & Hc1 & Ht1).
  rewrite Hrows.
  destruct (simple_loop w t good ids [] s1 Ht Hgood Hids)
    as (new & s2 & Hloop & Hlen & _ & Hu2 & _ & Hmine & Hfr).
  cbn [app] in Hloop.
  destruct (simple_row_fails w t bad new s2 Ht Hbad)
    as (c & s3 & Hc & Hnone & Hrow & Hr3 & Hu3).
  assert (for_each (good ++ bad :: rest) (row_body w t) [] s1
          = (Raise (Error (KeyError c)), s3)) as Hall.
  { rewrite for_each_app, (bind_ret_run _ _ _ _ _ Hloop). cbn [for_each].
    by rewrite (bind_raise_run _ _ _ _ _ Hrow). }
  rewrite (try_except_bind_raise _ _ _ _ _ _ Hall).
  destruct (loop_runs w t (good ++ bad :: rest) [] s1)
    as (L & HtL & [HiL HaL] & _ & HcL & _).
  cbv zeta in HtL, HcL. rewrite Hall in HtL, HcL. cbn [fst snd] in HtL, HcL.
  destruct (handler_outcome w t (KeyError c) s3)
    as (F & HtF & [HiF HaF] & HcF & HregF & HuF & _).
  cbv zeta in HtF, HcF, HregF, HuF.
  destruct (handler_prints w t (KeyError c) s3) as (F' & HtF').
  assert (F = EPrint (MsgError t (KeyError c)) :: F') as HF.
  { rewrite HtF in HtF'. by apply app_inv_head in HtF'. }
  exists c, ([EPrint (MsgStart t); ECall MysqlCursor;
              ECall (MysqlExecute (SelectAll (source_of t)));
              ECall MysqlFetchall; ECall PgCursor] ++ L ++ F).
  split; [done|]. split; [done|].
  split; [by rewrite HtF, HtL, Ht1, <- !app_assoc|].
  split; [|split; [|split; [|split]]].
  - unfold quiet. by rewrite !inserts_app, !announced_app, HiL, HiF, HaL, HaF.
  - rewrite !elem_of_app. right. right. rewrite HF. apply list_elem_of_here.
  - by rewrite HcF, HcL, Hc1.
  - rewrite HuF, Hu3, Hu2, Hu1. lia.
  - intros i z Hi. rewrite HregF, Hr3, <- Hu1. by apply Hmine.
Qed.

(** ** The trigger switches, in order *)

Lemma switches_app l1 l2 : switches (l1 ++ l2) = switches l1 ++ switches l2.
Proof. apply omap_app. Qed.

Global Instance still_closed : Closed still.
Proof.
  split; [done|]. intros l1 l2 H1 H2. unfold still in *.
  by rewrite switches_app, H1, H2.
Qed.

Ltac still_leaf := logs_leaf ltac:(reflexivity).

Lemma try_except_bind_exit {A B} (m : M A) (f : A -> M B) h s c s1 :
  m s = (Raise (SystemExit c), s1) ->
  try_except (bind m f) h s = (Raise (SystemExit c), s1).
Proof. intros Hm. unfold try_except, bind. by rewrite Hm. Qed.

(** A loop over the triggers issues one switch for each name, in the
    order of the list. *)
Lemma toggle_loop_switches w b names s :
  exists s' E,
    for_each names (toggle_trigger w b) tt s = (Ret tt, s') /\
    trace s' = trace s ++ E /\
    switches E = (fun n => (b, n)) <$> names.
Proof.
  revert s. induction names as [|x names IH]; intros s.
  - exists s, []. cbn. by rewrite app_nil_r.
  - cbn [for_each].
    destruct (toggle_step w b x s) as [Hstep|Hstep];
      rewrite (bind_ret_run _ _ _ _ _ Hstep);
      match goal with |- context [for_each names _ tt ?s1] =>
        destruct (IH s1) as (s' & E & -> & HE & Hsw)
      end;
      cbn [trace set_session set_tick set_trace] in HE.
    + eexists s', (_ :: _ :: E). split; [done|].
      split; [by rewrite HE, <- !app_assoc|].
      cbn. rewrite <- Hsw. by destruct b.
    + eexists s', (_ :: E). split; [done|].
      split; [by rewrite HE, <- !app_assoc|].
      cbn. rewrite <- Hsw. by destruct b.
Qed.

Lemma handler_still w t e : respects (logs still) (handler w t e).
Proof. unfold handler. split_steps still_leaf. Qed.

Lemma items_prelude_still w : respects (logs still) (items_prelude w).
Proof. unfold items_prelude. split_steps still_leaf. Qed.

Lemma item_loop_still w rows data :
  respects (logs still) (for_each rows (invoice_item_row w) data).
Proof. split_steps still_leaf. Qed.

Lemma insert_still w data :
  respects (logs still)
    (match data with
     | [] => ret tt
     | _ :: _ => execute_values w invoice_items data 100
     end).
Proof. split_steps still_leaf. Qed.

Lemma commit_part_still w t k :
  respects (logs still)
    (pg_commit w ;; print (MsgDone t k) ;; driver w MysqlCursorClose).
Proof. split_steps still_leaf. Qed.

Lemma items_store_switches w names data s :
  let r := try_except (items_store w names data) (handler w invoice_items) s in
  exists evs,
    trace r.2 = trace s ++ evs /\
    (switches evs = [] \/ switches evs = (fun n => (true, n)) <$> names).
Proof.
  cbv zeta.
  destruct (try_except _ _ s) as [r s'] eqn:Hrun. cbn [fst snd].
  unfold items_store in Hrun.
  destruct (insert_still w data s) as (I & HtI & HsI).
  destruct (match data with [] => ret tt | _ :: _ => _ end s)
    as [[[]|[e|c]] s1] eqn:Hins; cbn [fst snd] in HtI.
  - rewrite (try_except_bind_ret _ _ _ _ _ _ Hins) in Hrun.
    change (enable_trigger w) with (toggle_trigger w true) in Hrun.
    destruct (toggle_loop_switches w true names s1) as (s2 & E & Hen & HtE & HsE).
    rewrite (try_except_bind_ret _ _ _ _ _ _ Hen) in Hrun.
    destruct (commit_part_still w invoice_items (length data) s2)
      as (C & HtC & HsC).
    destruct ((pg_commit w ;; print (MsgDone invoice_items (length data)) ;;
               driver w MysqlCursorClose) s2) as [[[]|[e|c]] s3] eqn:Hcom;
      cbn [fst snd] in HtC.
    + rewrite (try_except_ret _ _ _ _ _ Hcom) in Hrun. injection Hrun as <- <-.
      exists (I ++ E ++ C). split; [by rewrite HtC, HtE, HtI, <- !app_assoc|].
      right. by rewrite !switches_app, HsI, HsE, HsC, app_nil_r.
    + rewrite (try_except_raise _ _ _ _ _ Hcom) in Hrun.
      destruct (handler_still w invoice_items e s3) as (F & HtF & HsF).
      rewrite Hrun in HtF. cbn [fst snd] in HtF.
      exists (I ++ E ++ C ++ F).
      split; [by rewrite HtF, HtC, HtE, HtI, <- !app_assoc|].
      right. by rewrite !switches_app, HsI, HsE, HsC, HsF, !app_nil_r.
    + unfold try_except in Hrun. rewrite Hcom in Hrun. injection Hrun as <- <-.
      exists (I ++ E ++ C). split; [by rewrite HtC, HtE, HtI, <- !app_assoc|].
      right. by rewrite !switches_app, HsI, HsE, HsC, app_nil_r.
  - rewrite (try_except_bind_raise _ _ _ _ _ _ Hins) in Hrun.
    destruct (handler_still w invoice_items e s1) as (F & HtF & HsF).
    rewrite Hrun in HtF. cbn [fst snd] in HtF.
    exists (I ++ F). split; [by rewrite HtF, HtI, <- !app_assoc|].
    left. by rewrite !switches_app, HsI, HsF.
  - rewrite (try_except_bind_exit _ _ _ _ _ _ Hins) in Hrun.
    injection Hrun as <- <-. exists I. split; [done|]. by left.
Qed.

(** X14. The transfer of the line items, from any state, switches
    triggers in one fixed order: nothing at all; or one [DISABLE] for each
    trigger the query lists, in the order listed; or these followed by one
    [ENABLE] for each, in the same order.  A listed trigger is a trigger
    of the line items whose name does not match ['RI_%']; no other trigger
    is ever switched, and no other transfer switches any. *)
Theorem triggers_switched_in_order w s :
  let r := migrate_invoice_items w s in
  let names := listed_triggers (pg_session s) in
  (exists evs,
     trace r.2 = trace s ++ evs /\
     (switches evs = [] \/
      switches evs = (fun n => (false, n)) <$> names \/
      switches evs = ((fun n => (false, n)) <$> names)
                       ++ ((fun n => (true, n)) <$> names))) /\
  (forall name, name ∈ names ->
     like_RI name = false /\ name ∈ trigger_names (pg_session s)) /\
  (forall t m s0,
     (t, m) ∈ transfers w -> t <> invoice_items ->
     exists evs, trace (m s0).2 = trace s0 ++ evs /\ switches evs = []).
Proof.
  cbv zeta. split; [|split].
  - destruct (migrate_invoice_items w s) as [r s'] eqn:Hrun.
    cbn [fst snd]. rewrite items_unfold in Hrun.
    unfold bind at 1, print, log in Hrun. cbn [fst snd] in Hrun.
    destruct (items_prelude_still w
                (set_trace (trace s ++ [EPrint (MsgStart invoice_items)]) s))
      as (P & HtP & HsP).
    destruct (items_prelude_runs w
                (set_trace (trace s ++ [EPrint (MsgStart invoice_items)]) s))
      as (P0 & _ & _ & _ & Hres).
    destruct (items_prelude w _) as [[[details names]|[e|c]] s1] eqn:Hpre;
      cbn in HtP, Hres; [| |done].
    + destruct Hres as (Hdet & Hnames & _). subst names.
      rewrite (try_except_bind_ret _ _ _ _ _ _ Hpre) in Hrun.
      cbn [fst snd] in Hrun. unfold items_load in Hrun.
      change (disable_trigger w) with (toggle_trigger w false) in Hrun.
      destruct (toggle_loop_switches w false (listed_triggers (pg_session s)) s1)
        as (s2 & D & Hdis & HtD & HsD).
      rewrite (try_except_bind_ret _ _ _ _ _ _ Hdis) in Hrun.
      destruct (item_loop_still w details [] s2) as (L & HtL & HsL).
      destruct (for_each details (invoice_item_row w) [] s2)
        as [[data|[e|c]] s3] eqn:Hloop; cbn [fst snd] in HtL.
      * rewrite (try_except_bind_ret _ _ _ _ _ _ Hloop) in Hrun.
        destruct (items_store_switches w (listed_triggers (pg_session s)) data s3)
          as (F & HtF & HsF).
        cbv zeta in HtF. rewrite Hrun in HtF. cbn [fst snd] in HtF.
        exists ([EPrint (MsgStart invoice_items)] ++ P ++ D ++ L ++ F).
        split; [by rewrite HtF, HtL, HtD, HtP, <- !app_assoc|].
        rewrite !switches_app, HsP, HsD, HsL. cbn [switches omap app].
        destruct HsF as [-> | ->]; [rewrite app_nil_r|]; auto.
      * rewrite (try_except_bind_raise _ _ _ _ _ _ Hloop) in Hrun.
        destruct (handler_still w invoice_items e s3) as (F & HtF & HsF).
        rewrite Hrun in HtF. cbn [fst snd] in HtF.
        exists ([EPrint (MsgStart invoice_items)] ++ P ++ D ++ L ++ F).
        split; [by rewrite HtF, HtL, HtD, HtP, <- !app_assoc|].
        rewrite !switches_app, HsP, HsD, HsL, HsF. cbn [switches omap app].
        rewrite app_nil_r. auto.
      * rewrite (try_except_bind_exit _ _ _ _ _ _ Hloop) in Hrun.
        injection Hrun as <- <-.
        exists ([EPrint (MsgStart invoice_items)] ++ P ++ D ++ L).
        split; [by rewrite HtL, HtD, HtP, <- !app_assoc|].
        rewrite !switches_app, HsP, HsD, HsL. cbn [switches omap app].
        rewrite app_nil_r. auto.
    + rewrite (try_except_bind_raise _ _ _ _ _ _ Hpre) in Hrun.
      destruct (handler_still w invoice_items e s1) as (F & HtF & HsF).
      rewrite Hrun in HtF. cbn [fst snd] in HtF.
      exists ([EPrint (MsgStart invoice_items)] ++ P ++ F).
      split; [by rewrite HtF, HtP, <- !app_assoc|].
      rewrite !switches_app, HsP, HsF. auto.
  - intros name Hin. apply listed_spec in Hin. tauto.
  - intros t m s0 Hin Hne.
    assert (respects (logs still) m) as Hm; [|exact (Hm s0)].
    revert Hin. unfold transfers. rewrite !elem_of_cons, elem_of_nil.
    intros [[= -> ->]|[[= -> ->]|[[= -> ->]|[[= -> ->]|[[= -> ->]|[]]]]]];
      [split_steps still_leaf..|done].
Qed.

(** ** The invoices in the registry *)

Lemma txn_keys_cons r rows :
  NoDup (txn_keys (r :: rows)) ->
  NoDup (txn_keys rows) /\
  forall number, r !! "id_transaksi" = Some number ->
                 reg_key Txn number ∉ txn_keys rows.
Proof.
  unfold txn_keys. cbn. destruct (r !! "id_transaksi") as [number|]; cbn.
  - intros [Hnew Hnd]%NoDup_cons. split; [done|]. by intros ? [= <-].
  - intros Hnd. split; [done|]. by intros.
Qed.

Lemma invoice_loop_registers w rows data s data' s' :
  for_each rows (invoice_row w) data s = (Ret data', s') ->
  NoDup (txn_keys rows) ->
  (forall k, k ∉ txn_keys rows ->
             migrated_records s' !! k = migrated_records s !! k) /\
  exists new, data' = data ++ new /\ Forall (registered (migrated_records s')) new.
Proof.
  revert data s. induction rows as [|r rows IH]; intros data s; cbn [for_each].
  - intros [= <- <-] _. split; [done|]. exists []. by rewrite app_nil_r.
  - intros (d1 & s1 & Hr & Hrest)%bind_inv_ret [Hnd Hnew]%txn_keys_cons.
    apply IH in Hrest as (Hframe & new & -> & Hall); [|done].
    apply invoice_row_steps in Hr as (_ & _ & _ & Hrow).
    destruct Hrow as [[-> Hreg]|(t & member_id & cust & number & -> & _ & _
                                  & Hnumber & Hreg & Ht0 & _ & Hfields)].
    + split; [|by exists new].
      intros k Hk. rewrite Hframe, Hreg; [done|].
      intros Hin. apply Hk. unfold txn_keys in *. cbn.
      destruct (r !! "id_transaksi"); cbn; [by apply list_elem_of_further | done].
    + split.
      * intros k Hk. rewrite Hframe, Hreg.
        { apply lookup_insert_ne. intros <-. apply Hk. unfold txn_keys. cbn.
          rewrite Hnumber. cbn. apply list_elem_of_here. }
        intros Hin. apply Hk. unfold txn_keys in *. cbn. rewrite Hnumber. cbn.
        by apply list_elem_of_further.
      * exists (t :: new). split; [by rewrite <- app_assoc|].
        constructor; [|done].
        exists (uuid4 w (uuid_calls s)), number. split; [done|]. split.
        { destruct Hfields as (? & number' & ? & ? & ? & ? & ? & ? & ? & ? & ?
                               & Hn' & _ & _ & _ & _ & _ & ->).
          cbn. congruence. }
        rewrite Hframe by auto. rewrite Hreg. apply lookup_insert_eq.
Qed.

(** X15. The transfer of the invoices, from any state, when the invoice
    numbers of [tbl_transaksi] give pairwise distinct registry keys: after
    the transfer the registry maps [txn_<invoice number>] of every row of
    its bulk insert to the identifier of that row. *)
Theorem invoices_registered w s :
  NoDup (txn_keys (mysql_rows w tbl_transaksi)) ->
  let r := migrate_invoices w s in
  exists evs,
    trace r.2 = trace s ++ evs /\
    (inserts evs = [] \/
     exists data,
       inserts evs = [(invoices, data, 100)] /\
       Forall (registered (migrated_records r.2)) data).
Proof.
  intros Hnd. cbv zeta.
  destruct (table_transfer_outcomes w invoices s) as (evs & Htr & _ & Hout).
  exists evs. split; [exact Htr|].
  destruct Hout as [[[? _] _]|(s1 & data & s2 & _ & _ & Hloop & Hreg & _ & Hins & _)];
    [by left|].
  right. cbn [source_of row_body] in Hloop.
  apply invoice_loop_registers in Hloop as (_ & new & -> & Hall); [|done].
  exists new. split; [exact Hins|].
  eapply Forall_impl; [exact Hall|]. intros t (id & number & ? & ? & ?).
  exists id, number. split; [done|]. split; [done|].
  etrans; [|eassumption]. f_equal. exact Hreg.
Qed.

(** ** Closing the connections *)

(** X16. [close], from any state: a connection is closed only when its
    handle is set, the source first; when closing the source raises, the
    target is not closed and the message is not printed; the message is
    printed exactly when [close] returns.  The handles stay set and the
    target store is not touched. *)
Theorem close_outcomes w s :
  let r := close w s in
  exists evs,
    trace r.2 = trace s ++ evs /\
    mysql_conn r.2 = mysql_conn s /\ pg_conn r.2 = pg_conn s /\
    pg_committed r.2 = pg_committed s /\ pg_session r.2 = pg_session s /\
    (ECall MysqlClose ∈ evs <-> mysql_conn s = true) /\
    (ECall PgClose ∈ evs <->
     pg_conn s = true /\ ERaise (DriverError MysqlClose) ∉ evs) /\
    (r.1 = Ret tt <-> EPrint MsgClosed ∈ evs).
Proof.
  unfold close, when_set, bind, driver, print, log, throw, ret. cbn.
  destruct (mysql_conn s) eqn:Hm; cbn;
    repeat match goal with
    | |- context [raises w ?n ?c] => destruct (raises w n c); cbn
    | |- context [if pg_conn s then _ else _] => destruct (pg_conn s) eqn:Hp; cbn
    end;
    rewrite <- ?app_assoc; cbn;
    (eexists; split; [reflexivity|]);
    rewrite ?Hm, ?Hp;
    do 4 (split; [done|]);
    rewrite ?elem_of_cons, ?elem_of_nil;
    repeat split; intros; try done;
    rewrite ?elem_of_cons, ?elem_of_nil in *;
    intuition congruence.
Qed.

(** ** The source cursor *)

Global Instance close_safe_closed : Closed close_safe.
Proof.
  split.
  - intros st. by eexists.
  - intros l1 l2 H1 H2 st. rewrite check_app.
    destruct (H1 st) as [st1 ->]. apply H2.
Qed.

Lemma done_then_close w t n :
  respects (logs close_safe)
    (log (EPrint (MsgDone t n)) ;; driver w MysqlCursorClose).
Proof.
  intros s. unfold bind, log, driver, throw. cbn.
  destruct (raises w (tick s) MysqlCursorClose); cbn; unfold logs; cbn;
    rewrite <- ?app_assoc; (eexists; split; [reflexivity|]);
    intros st; cbn; eauto.
Qed.

Lemma main_close_safe w : respects (logs close_safe) (main w).
Proof.
  split_steps_with ltac:(apply done_then_close)
                   ltac:(logs_leaf ltac:(intros st; cbn; eauto)).
Qed.

Lemma close_step_true st pre :
  check close_step st pre = Some true ->
  (pre = [] /\ st = true) \/
  exists pre' t n, pre = pre' ++ [EPrint (MsgDone t n)].
Proof.
  induction pre as [|e pre _] using rev_ind.
  - cbn. intros [= ->]. by left.
  - intros (st1 & _ & He)%check_app_inv. right. cbn in He.
    destruct e as [c|er|idm|tg id r|tg id v|m|tb ar df|t0|t0];
      try (by destruct c; try destruct st1); try done.
    destruct m; try done. by eexists _, _, _.
Qed.

(** X17. In every run the source cursor of a transfer is closed only
    right after the success message of the transfer, hence only after its
    commit went through; a transfer that fails leaves its cursor open. *)
Theorem cursor_closed_on_success w p pre post :
  trace (run w p).2 = pre ++ ECall MysqlCursorClose :: post ->
  exists pre' t n, pre = pre' ++ [EPrint (MsgDone t n)].
Proof.
  intros Htr. unfold run in Htr.
  destruct (main_close_safe w (init p)) as (evs & E & Hsafe).
  rewrite E in Htr. cbn in Htr. subst evs.
  destruct (Hsafe false) as [st Hc].
  apply check_app_inv in Hc as (st1 & Hpre & Hc). cbn in Hc.
  destruct st1; [|done].
  by apply close_step_true in Hpre as [[_ ?]|?].
Qed.

(** ** An empty source table *)




(** ** An amount that cannot be converted *)

Lemma invoice_row_converts w txn data s data' s' member_id cust total :
  invoice_row w txn data s = (Ret data', s') ->
  txn !! "id_member" = Some member_id ->
  migrated_records s !! reg_key Member member_id = Some cust ->
  str_truthy cust = true ->
  txn !! "total_pembelian" = Some total -> truthy total = true ->
  exists q, int_of total = inr q.
Proof.
  unfold invoice_row. intros Hr Hmember Hcust Hne Htotal Htruthy.
  apply bind_inv_ret in Hr as (id & s1 & [-> ->]%uuid4_str_inv & Hr).
  apply bind_inv_ret in Hr as (member_id' & s2 & [Hmember' ->]%getitem_inv & Hr).
  assert (member_id' = member_id) as -> by congruence.
  apply bind_inv_ret in Hr as (got & s3 & [-> ->]%records_get_inv & Hr).
  cbn [migrated_records set_trace set_uuid_calls] in Hr.
  rewrite Hcust, Hne in Hr.
  apply bind_inv_ret in Hr as (number & s4 & _ & Hr).
  apply bind_inv_ret in Hr as (date & s5 & _ & Hr).
  apply bind_inv_ret in Hr as (status & s6 & _ & Hr).
  cbv zeta in Hr.
  apply bind_inv_ret in Hr as (items & s7 & Hitems & _).
  apply cond_conv_inv in Hitems as (total' & Htotal' & _ & Hconv).
  assert (total' = total) as -> by congruence.
  rewrite Htruthy in Hconv. by exists items.
Qed.

Lemma invoice_loop_converts w rows data s data' s' txn member_id cust total :
  for_each rows (invoice_row w) data s = (Ret data', s') ->
  txn ∈ rows ->
  txn !! "id_member" = Some member_id ->
  migrated_records s !! reg_key Member member_id = Some cust ->
  str_truthy cust = true ->
  txn !! "total_pembelian" = Some total -> truthy total = true ->
  exists q, int_of total = inr q.
Proof.
  revert data s. induction rows as [|r rows IH]; intros data s; cbn [for_each].
  - by intros _ ?%elem_of_nil.
  - intros (d1 & s1 & Hr & Hrest)%bind_inv_ret Hin Hmember Hcust Hne Htotal Ht.
    apply elem_of_cons in Hin as [->|Hin].
    + by eapply invoice_row_converts.
    + eapply IH; try done.
      apply invoice_row_steps in Hr as (_ & _ & _ & Hrow).
      destruct Hrow as [[_ ->]|(? & ? & ? & number & _ & _ & _ & _ & -> & _)];
        [done|].
      rewrite lookup_insert_ne; [done|]. by intros ?%reg_key_tag.
Qed.

(** X19. The transfer of the invoices, from any state: when some row of
    [tbl_transaksi] whose member the registry holds carries a truthy
    [total_pembelian] that [int] rejects, the transfer issues no bulk
    insert, commits nothing and prints no success message, wherever the
    row stands in the table. *)
Theorem bad_total_blocks_invoices w s txn member_id cust total e :
  txn ∈ mysql_rows w tbl_transaksi ->
  txn !! "id_member" = Some member_id ->
  migrated_records s !! reg_key Member member_id = Some cust ->
  str_truthy cust = true ->
  txn !! "total_pembelian" = Some total -> truthy total = true ->
  int_of total = inl e ->
  exists evs,
    trace (migrate_invoices w s).2 = trace s ++ evs /\
    quiet evs /\
    pg_committed (migrate_invoices w s).2 = pg_committed s.
Proof.
  intros Hin Hmember Hcust Hne Htotal Ht Hbad.
  destruct (table_transfer_outcomes w invoices s) as (evs & Htr & _ & Hout).
  exists evs. split; [exact Htr|].
  destruct Hout as [[? ?]|(s1 & data & s2 & Hreg & _ & Hloop & _)]; [done|].
  exfalso. cbn [source_of row_body] in Hloop.
  eapply invoice_loop_converts in Hloop as [q Hq]; try done; [|by rewrite Hreg].
  congruence.
Qed.

Lemma invoice_item_row_converts w detail data s data' s' txn_id product_id
    inv prod :
  invoice_item_row w detail data s = (Ret data', s') ->
  detail !! "id_transaksi" = Some txn_id ->
  detail !! "id_product" = Some product_id ->
  migrated_records s !! reg_key Txn txn_id = Some inv ->
  migrated_records s !! reg_key Prod product_id = Some prod ->
  str_truthy inv = true -> str_truthy prod = true ->
  exists t, item_amounts detail t.
Proof.
  intros Hr Htxn Hproduct Hinv Hprod Hi Hp.
  pose proof (invoice_item_row_emits _ _ _ _ _ _ Hr) as [->|(t & _ & ?)];
    [|by exists t].
  exfalso. unfold invoice_item_row in Hr.
  apply bind_inv_ret in Hr as (txn_id' & s1 & [Htxn' ->]%getitem_inv & Hr).
  assert (txn_id' = txn_id) as -> by congruence.
  apply bind_inv_ret in Hr as (got & s2 & [-> ->]%records_get_inv & Hr).
  apply bind_inv_ret in Hr as (product_id' & s3 & [Hproduct' ->]%getitem_inv & Hr).
  assert (product_id' = product_id) as -> by congruence.
  apply bind_inv_ret in Hr as (got' & s4 & [-> ->]%records_get_inv & Hr).
  cbn [migrated_records set_trace] in Hr. rewrite Hinv, Hprod in Hr.
  cbn [missing] in Hr. rewrite Hi, Hp in Hr. cbn [negb orb] in Hr.
  apply bind_inv_ret in Hr as (id & s5 & _ & Hr).
  apply bind_inv_ret in Hr as (name & s6 & _ & Hr).
  apply bind_inv_ret in Hr as (quantity & s7 & _ & Hr).
  apply bind_inv_ret in Hr as (unit_price & s8 & _ & Hr).
  apply bind_inv_ret in Hr as (total_price & s9 & _ & Hr).
  apply bind_inv_ret in Hr as (created & s10 & _ & Hr).
  apply bind_inv_ret in Hr as (updated & s11 & _ & Hr).
  injection Hr as Hr _. apply (f_equal length) in Hr.
  rewrite length_app in Hr. cbn in Hr. lia.
Qed.

Lemma item_loop_converts w rows data s data' s' detail txn_id product_id
    inv prod :
  for_each rows (invoice_item_row w) data s = (Ret data', s') ->
  detail ∈ rows ->
  detail !! "id_transaksi" = Some txn_id ->
  detail !! "id_product" = Some product_id ->
  migrated_records s !! reg_key Txn txn_id = Some inv ->
  migrated_records s !! reg_key Prod product_id = Some prod ->
  str_truthy inv = true -> str_truthy prod = true ->
  exists t, item_amounts detail t.
Proof.
  revert data s. induction rows as [|r rows IH]; intros data s; cbn [for_each].
  - by intros _ ?%elem_of_nil.
  - intros (d1 & s1 & Hr & Hrest)%bind_inv_ret Hin Htxn Hproduct Hinv Hprod Hi Hp.
    apply elem_of_cons in Hin as [->|Hin].
    + by eapply invoice_item_row_converts.
    + apply invoice_item_row_steps in Hr as (Hreg & _).
      eapply IH; try done; by rewrite Hreg.
Qed.

(** X20. The transfer of the line items, from any state: when some row
    of [tbl_detail_transaksi] whose transaction and product the registry
    holds carries a truthy [qty] that [int] rejects, or a truthy [harga]
    or [subtotal] that [float] rejects, the transfer issues no bulk
    insert, commits nothing and prints no success message. *)
Theorem bad_amount_blocks_items w s detail txn_id product_id inv prod v e :
  detail ∈ mysql_rows w tbl_detail_transaksi ->
  detail !! "id_transaksi" = Some txn_id ->
  detail !! "id_product" = Some product_id ->
  migrated_records s !! reg_key Txn txn_id = Some inv ->
  migrated_records s !! reg_key Prod product_id = Some prod ->
  str_truthy inv = true -> str_truthy prod = true ->
  truthy v = true ->
  (detail !! "qty" = Some v /\ int_of v = inl e) \/
  (detail !! "harga" = Some v /\ float_of v = inl e) \/
  (detail !! "subtotal" = Some v /\ float_of v = inl e) ->
  exists evs,
    trace (migrate_invoice_items w s).2 = trace s ++ evs /\
    quiet evs /\
    pg_committed (migrate_invoice_items w s).2 = pg_committed s.
Proof.
  intros Hin Htxn Hproduct Hinv Hprod Hi Hp Hv Hbad.
  destruct (items_outcomes w s) as (evs & Htr & _ & Hout).
  exists evs. split; [exact Htr|].
  destruct Hout as [[? ?]|(s1 & data & s2 & Hreg & _ & Hloop & _)]; [done|].
  exfalso.
  apply (item_loop_converts w _ _ _ _ _ detail txn_id product_id inv prod)
    in Hloop as (t & qty & harga & subtotal & Hq & Hh & Hs & Cq & Ch & Cs);
    [|done|done|done|by rewrite Hreg|by rewrite Hreg|done|done].
  destruct Hbad as [[Hc He]|[[Hc He]|[Hc He]]].
  - assert (qty = v) as -> by congruence. rewrite Hv in Cq.
    destruct Cq as (? & ? & _). congruence.
  - assert (harga = v) as -> by congruence. rewrite Hv in Ch.
    destruct Ch as (? & ? & _). congruence.
  - assert (subtotal = v) as -> by congruence. rewrite Hv in Cs.
    destruct Cs as (? & ? & _). congruence.
Qed.

End Migration.

(** * The claims on concrete runs *)

#[local] Existing Instance integral_builtins.

Lemma registry_injective_witness :
  let r := run (demo_world no_failure) demo_store in
  (Member = Member /\ 2%Z = 2%Z) /\
  migrated_records r.2 = replay (trace r.2).
Proof.
  intros r.
  destruct (registry_injective (demo_world no_failure) demo_store
              (take 40 (trace r.2)) (drop 40 (trace r.2)))
    as (_ & Hpair & Hreg).
  - exact demo_uuid_inj.
  - symmetry. apply take_drop.
  - split; [|exact Hreg].
    apply (Hpair Member Member 2%Z 2%Z "uuid-2"); vm_compute; reflexivity.
Defined.

Lemma lookups_follow_population_witness :
  let tr := trace (run (demo_world no_failure) demo_store).2 in
  EReturn customers ∈ take 57 tr /\
  Some "uuid-2" = replay (take 57 tr) !! reg_key Member (PInt 2).
Proof.
  intros tr.
  apply (lookups_follow_population (demo_world no_failure) demo_store
           (take 57 tr) (EGet Member (PInt 2) (Some "uuid-2")) (drop 58 tr)).
  - exact demo_uuid_inj.
  - symmetry. apply take_drop_middle. vm_compute. reflexivity.
Defined.

Lemma transfers_recover_witness :
  let r := run (demo_world product_fetch_fails) demo_store in
  List.filter is_marker (trace r.2) =
    [EEnter employees; EReturn employees; EEnter customers; EReturn customers;
     EEnter products; EReturn products; EEnter invoices; EReturn invoices;
     EEnter invoice_items; EReturn invoice_items] /\
  (exists pre post,
      trace r.2 = pre ++ ECall MysqlClose :: post /\ EReturn invoice_items ∈ pre) /\
  (ECall PgClose ∈ trace r.2 \/ r.1 = Raise (Error (DriverError MysqlClose))) /\
  (r.1 = Ret tt \/ r.1 = Raise (Error (DriverError MysqlClose)) \/
   r.1 = Raise (Error (DriverError PgClose))).
Proof.
  apply (transfers_recover (demo_world product_fetch_fails)).
  - intros n. reflexivity.
  - vm_compute. reflexivity.
Defined.

(** C5 fails as stated: the employees cannot be read and the rollback of
    the handler raises; the exception leaves [main], no other transfer
    runs and no connection is closed. *)
Lemma failed_rollback_ends_run :
  let r := run (demo_world fetch_and_rollback_fail) demo_store in
  r.1 = Raise (Error (DriverError PgRollback)) /\
  trace r.2 =
    [ECall MysqlConnect; ECall PgConnect; EPrint MsgConnected; EPrint MsgBanner;
     EEnter employees; EPrint (MsgStart employees); ECall MysqlCursor;
     ECall (MysqlExecute (SelectAll tbl_karyawan));
     ERaise (DriverError (MysqlExecute (SelectAll tbl_karyawan)));
     EPrint (MsgError employees (DriverError (MysqlExecute (SelectAll tbl_karyawan))));
     ECall PgRollback; ERaise (DriverError PgRollback)].
Proof. vm_compute. split; reflexivity. Qed.

Lemma exit_status_of_run_witness :
  exit_status (run (demo_world pg_connect_fails) demo_store).1 = 1%Z /\
  exit_status (run (demo_world product_fetch_fails) demo_store).1 = 0%Z.
Proof.
  split.
  - apply (exit_status_of_run (demo_world pg_connect_fails) demo_store).
    vm_compute. reflexivity.
  - apply (exit_status_of_run (demo_world product_fetch_fails) demo_store).
    + vm_compute. reflexivity.
    + intros n. reflexivity.
    + intros n. reflexivity.
    + intros n. reflexivity.
Defined.

(** C6 fails as stated: both connections are established, the first commit
    raises and so does the rollback of the handler, and the process ends
    with status 1. *)
Lemma connected_run_exits_nonzero :
  connected (demo_world commit_and_rollback_fail) = true /\
  exit_status (run (demo_world commit_and_rollback_fail) demo_store).1 = 1%Z.
Proof. vm_compute. split; reflexivity. Qed.

Lemma amounts_default_witness :
  let tr := trace (run (demo_world no_failure) demo_store).2 in
  Forall (fun tu => exists detail,
            detail ∈ demo_rows tbl_detail_transaksi /\ item_amounts detail tu)
         [[PStr "uuid-7"; PStr "uuid-5"; PStr "uuid-4"; PStr "Kabel"; PNone;
           PNone; PInt 3; PFloat 0%Z; PFloat 0%Z; PFloat 0%Z; PBool false;
           PNone; PTime 12; PTime 13]].
Proof.
  intros tr.
  eapply (amounts_default (demo_world no_failure) demo_store
            (take 83 tr) invoice_items _ 100 (drop 84 tr)).
  - symmetry. apply take_drop_middle. vm_compute. reflexivity.
  - reflexivity.
Defined.

Lemma invoice_payment_status_witness :
  let tr := trace (run (demo_world no_failure) demo_store).2 in
  Forall (fun t => exists txn,
            txn ∈ demo_rows tbl_transaksi /\ invoice_status txn t)
         [[PStr "uuid-5"; PInt 100; PStr "uuid-2"; PTime 7; PNone;
           PStr "completed"; PStr "paid"; PFloat 0%Z; PInt 15000; PFloat 0%Z;
           PFloat 0%Z; PInt 15000; PInt 15000; PNone; PNone; PNone; PTime 10;
           PTime 11; PStr "Malang"]].
Proof.
  intros tr.
  eapply (invoice_payment_status (demo_world no_failure) demo_store
            (take 62 tr) _ 100 (drop 63 tr)).
  symmetry. apply take_drop_middle. vm_compute. reflexivity.
Defined.

Lemma rows_get_fresh_identifiers_witness :
  let w := demo_world no_failure in
  let s := connected_state demo_store in
  exists data,
    (exists pre post,
        trace (migrate_customers w s).2
          = trace s ++ pre ++ ECall (PgExecuteValues customers data 100) :: post) /\
    length data = length (mysql_rows w (source_of customers)) /\
    (forall i z, [1; 2; 3]%Z !! i = Some z ->
       exists tu,
         data !! i = Some tu /\
         tu !! 0 = Some (PStr (uuid4 w (uuid_calls s + i))) /\
         (forall j, uuid4 w j = uuid4 w (uuid_calls s + i) -> j = uuid_calls s + i) /\
         migrated_records (migrate_customers w s).2 !! reg_key (tag_of customers) (PInt z)
           = Some (uuid4 w (uuid_calls s + i))) /\
    ((forall n d, raises w n (PgExecuteValues customers d 100) = false) ->
     (forall n, raises w n PgCommit = false) ->
     pg_rows (pg_committed (migrate_customers w s).2) customers
       = pg_rows (pg_session s) customers ++ data).
Proof.
  intros w s.
  apply (rows_get_fresh_identifiers w customers (migrate_customers w) [1; 2; 3]%Z s).
  - apply list_elem_of_further, list_elem_of_here.
  - reflexivity.
  - exact demo_uuid_inj.
  - reflexivity.
  - reflexivity.
  - intros n. repeat split.
  - split; vm_compute; reflexivity.
  - apply (bool_decide_unpack _). vm_compute. exact I.
Defined.

Lemma unmapped_invoice_mints_witness :
  let r := invoice_row (demo_world no_failure) demo_txn_unmapped []
             (init demo_store) in
  r.1 = Ret [] /\
  migrated_records r.2 = ∅ /\
  uuid_calls r.2 = 1 /\
  trace r.2 = [EMint "uuid-0"; EGet Member (PInt 4) None].
Proof.
  apply (unmapped_invoice_mints (demo_world no_failure) demo_txn_unmapped []
           (init demo_store) (PInt 4)); reflexivity.
Defined.

Lemma registry_survives_rollback_witness :
  let w := demo_world customer_insert_fails in
  let s := connected_state demo_store in
  pg_committed (migrate_customers w s).2 = pg_committed s /\
  migrated_records (migrate_customers w s).2 !! reg_key Member (PInt 2)
    = Some (uuid4 w (uuid_calls s + 1)).
Proof.
  intros w s.
  destruct (registry_survives_rollback w customers (migrate_customers w)
              [1; 2; 3]%Z s) as (Hc & Hreg & _).
  - apply list_elem_of_further, list_elem_of_here.
  - reflexivity.
  - reflexivity.
  - reflexivity.
  - intros n. repeat split.
  - split; vm_compute; reflexivity.
  - apply (bool_decide_unpack _). vm_compute. exact I.
  - left. intros n d. reflexivity.
  - split; [exact Hc|]. exact (Hreg 1 2%Z eq_refl).
Defined.


(** * Further properties on concrete runs *)

Lemma employee_rows_witness :
  let tr := trace (run (demo_world no_failure) demo_store).2 in
  100 = 100 /\
  Forall2 employee_fields (demo_rows tbl_karyawan)
    [[PStr "uuid-0"; PStr "Sari"; PNone; PStr "0811"; PStr "technician";
      PStr "available"; PFloat 0%Z; PInt 0; PNone; PTime 0; PTime 1]].
Proof.
  intros tr.
  eapply (employee_rows (demo_world no_failure) demo_store
            (take 13 tr) _ 100 (drop 14 tr)).
  symmetry. apply take_drop_middle. vm_compute. reflexivity.
Defined.

Lemma customer_rows_witness :
  let tr := trace (run (demo_world no_failure) demo_store).2 in
  100 = 100 /\
  Forall2 customer_fields (demo_rows tbl_member)
    [[PStr "uuid-1"; PStr "Adi"; PStr "0812"; PNone; PNone; PStr "retail";
      PInt 0; PFloat 0%Z; PBool false; PNone; PTime 2; PTime 3; PFloat 0%Z];
     [PStr "uuid-2"; PStr "Budi"; PNone; PNone; PStr "Jl. Melati 3";
      PStr "retail"; PInt 0; PFloat 0%Z; PBool false; PNone; PTime 4; PTime 5;
      PFloat 0%Z];
     [PStr "uuid-3"; PStr "Citra"; PNone; PNone; PNone; PStr "retail"; PInt 0;
      PFloat 0%Z; PBool false; PNone; PTime 6; PTime 7; PFloat 0%Z]].
Proof.
  intros tr.
  eapply (customer_rows (demo_world no_failure) demo_store
            (take 31 tr) _ 100 (drop 32 tr)).
  symmetry. apply take_drop_middle. vm_compute. reflexivity.
Defined.

Lemma product_rows_witness :
  let tr := trace (run (demo_world no_failure) demo_store).2 in
  100 = 100 /\
  Forall2 product_fields (demo_rows tbl_product)
    [[PStr "uuid-4"; PStr "SKU-10"; PStr "Kabel"; PNone; PStr "spare_parts";
      PStr "pcs"; PInt 4000; PInt 5000; PInt 0; PInt 5; PBool false;
      PBool true; PTime 8; PTime 9; PNone]].
Proof.
  intros tr.
  eapply (product_rows (demo_world no_failure) demo_store
            (take 45 tr) _ 100 (drop 46 tr)).
  symmetry. apply take_drop_middle. vm_compute. reflexivity.
Defined.

Lemma invoice_rows_witness :
  let tr := trace (run (demo_world no_failure) demo_store).2 in
  100 = 100 /\
  exists kept,
    kept `sublist_of` demo_rows tbl_transaksi /\
    Forall2 invoice_fields kept
      [[PStr "uuid-5"; PInt 100; PStr "uuid-2"; PTime 7; PNone;
        PStr "completed"; PStr "paid"; PFloat 0%Z; PInt 15000; PFloat 0%Z;
        PFloat 0%Z; PInt 15000; PInt 15000; PNone; PNone; PNone; PTime 10;
        PTime 11; PStr "Malang"]].
Proof.
  intros tr.
  eapply (invoice_rows (demo_world no_failure) demo_store
            (take 62 tr) _ 100 (drop 63 tr)).
  symmetry. apply take_drop_middle. vm_compute. reflexivity.
Defined.

Lemma invoice_item_rows_witness :
  let tr := trace (run (demo_world no_failure) demo_store).2 in
  100 = 100 /\
  exists kept,
    kept `sublist_of` demo_rows tbl_detail_transaksi /\
    Forall2 item_fields kept
      [[PStr "uuid-7"; PStr "uuid-5"; PStr "uuid-4"; PStr "Kabel"; PNone;
        PNone; PInt 3; PFloat 0%Z; PFloat 0%Z; PFloat 0%Z; PBool false;
        PNone; PTime 12; PTime 13]].
Proof.
  intros tr.
  eapply (invoice_item_rows (demo_world no_failure) demo_store
            (take 83 tr) _ 100 (drop 84 tr)).
  symmetry. apply take_drop_middle. vm_compute. reflexivity.
Defined.

Lemma failed_connect_stops_run_witness :
  let r := run (demo_world pg_connect_fails) demo_store in
  r.1 = Raise (SystemExit 1) /\
  pg_committed r.2 = demo_store /\ pg_session r.2 = demo_store /\
  migrated_records r.2 = ∅ /\ pg_conn r.2 = false /\
  mysql_conn r.2 = true /\
  trace r.2 = [ECall MysqlConnect; ECall PgConnect;
               ERaise (DriverError PgConnect);
               EPrint (MsgConnError (DriverError PgConnect))].
Proof.
  apply (failed_connect_stops_run (demo_world pg_connect_fails) demo_store).
  reflexivity.
Defined.

Lemma registry_frame_witness :
  let w := demo_world no_failure in
  let s := (migrate_employees w (connected_state demo_store)).2 in
  migrated_records s !! "emp_1" = Some "uuid-0" /\
  migrated_records (migrate_customers w s).2 !! "emp_1"
    = migrated_records s !! "emp_1".
Proof.
  intros w s. split; [vm_compute; reflexivity|].
  apply (registry_frame w customers (migrate_customers w) s "emp_1").
  - apply list_elem_of_further, list_elem_of_here.
  - intros tg id [= <-]. discriminate.
Defined.

Lemma transfer_settles_witness :
  let w := demo_world customer_insert_fails in
  let s := connected_state demo_store in
  pg_session (migrate_customers w s).2 = pg_committed (migrate_customers w s).2.
Proof.
  intros w s. apply (transfer_settles w customers (migrate_customers w) s).
  - apply list_elem_of_further, list_elem_of_here.
  - vm_compute. reflexivity.
Defined.


Lemma missing_column_aborts_witness :
  let w := broken_world in
  let s := connected_state demo_store in
  exists c evs,
    c ∈ columns_read customers /\ demo_member_no_address !! c = None /\
    trace (migrate_customers w s).2 = trace s ++ evs /\
    quiet evs /\
    EPrint (MsgError customers (KeyError c)) ∈ evs /\
    pg_committed (migrate_customers w s).2 = pg_committed s /\
    uuid_calls (migrate_customers w s).2 = uuid_calls s + 2 /\
    forall i z, [1%Z] !! i = Some z ->
      migrated_records (migrate_customers w s).2 !! reg_key Member (PInt z)
        = Some (uuid4 w (uuid_calls s + i)).
Proof.
  intros w s.
  apply (missing_column_aborts w customers (migrate_customers w) [1%Z]
           [demo_member_first] demo_member_no_address [demo_member_first] s).
  - apply list_elem_of_further, list_elem_of_here.
  - reflexivity.
  - reflexivity.
  - reflexivity.
  - intros n. repeat split.
  - reflexivity.
  - vm_compute. reflexivity.
  - vm_compute. reflexivity.
  - apply (bool_decide_unpack _). vm_compute. exact I.
  - vm_compute. reflexivity.
Defined.

Lemma invoices_registered_witness :
  let w := demo_world no_failure in
  let s := (migrate_customers w (connected_state demo_store)).2 in
  let r := migrate_invoices w s in
  exists evs,
    trace r.2 = trace s ++ evs /\
    (inserts evs = [] \/
     exists data,
       inserts evs = [(invoices, data, 100)] /\
       Forall (registered (migrated_records r.2)) data).
Proof.
  intros w s. apply (invoices_registered w s).
  apply (bool_decide_unpack _). vm_compute. exact I.
Defined.

Lemma cursor_closed_on_success_witness :
  let tr := trace (run (demo_world no_failure) demo_store).2 in
  exists pre' t n, take 65 tr = pre' ++ [EPrint (MsgDone t n)].
Proof.
  intros tr.
  apply (cursor_closed_on_success (demo_world no_failure) demo_store
           (take 65 tr) (drop 66 tr)).
  symmetry. apply take_drop_middle. vm_compute. reflexivity.
Defined.


Lemma bad_total_blocks_invoices_witness :
  let w := bad_amount_world in
  let s := demo_registered in
  exists evs,
    trace (migrate_invoices w s).2 = trace s ++ evs /\
    quiet evs /\
    pg_committed (migrate_invoices w s).2 = pg_committed s.
Proof.
  intros w s.
  apply (bad_total_blocks_invoices w s demo_txn_bad_total (PInt 2) "uuid-2"
           (PStr "15.000,-") ValueError).
  - apply list_elem_of_further, list_elem_of_here.
  - vm_compute. reflexivity.
  - vm_compute. reflexivity.
  - reflexivity.
  - vm_compute. reflexivity.
  - reflexivity.
  - reflexivity.
Defined.

Lemma bad_amount_blocks_items_witness :
  let w := bad_amount_world in
  let s := demo_registered in
  exists evs,
    trace (migrate_invoice_items w s).2 = trace s ++ evs /\
    quiet evs /\
    pg_committed (migrate_invoice_items w s).2 = pg_committed s.
Proof.
  intros w s.
  apply (bad_amount_blocks_items w s demo_detail_bad_qty (PInt 100) (PInt 10)
           "uuid-5" "uuid-4" (PStr "tiga") ValueError).
  - apply list_elem_of_here.
  - vm_compute. reflexivity.
  - vm_compute. reflexivity.
  - vm_compute. reflexivity.
  - vm_compute. reflexivity.
  - reflexivity.
  - reflexivity.
  - reflexivity.
  - left. split; vm_compute; reflexivity.
Defined.
